(** * A configurable cache model (dcache.H): shallow embedding and properties

    The model follows the layout of the header: the bit utilities, the
    cache tag, the two cache-set classes of namespace [CACHE_SET], the
    untemplated base class [CACHE_BASE] and the templated class [CACHE].
    The vocabulary of the properties comes next, then the properties: first
    for every set and cache, then on concrete caches.  A last part goes
    further into the header: the bit utilities, the geometry, the
    constructors, and the allocation and replacement order of the sets.

    Machine integers are values of [Z] with the wrap-around of their C++ type
    written out where an operation can leave the range.  Arrays are lists
    read with [!!] and written with [<[ _ := _ ]>]. *)

From Stdlib Require Import ZArith Lia Bool String.
From stdpp Require Import base tactics option list.

Local Open Scope Z_scope.

(** ** Machine integers *)

(** [UINT32]: arithmetic modulo 2^32. *)
Definition UINT32_of (z : Z) : Z := z mod 2 ^ 32.

(** [UINT64], the type of [CACHE_STATS]: arithmetic modulo 2^64. *)
Definition UINT64_of (z : Z) : Z := z mod 2 ^ 64.

(** [INT32] and [int]: the two's-complement reading of the low 32 bits. *)
Definition INT32_of (z : Z) : Z := (z + 2 ^ 31) mod 2 ^ 32 - 2 ^ 31.

(** [ADDRINT] comes from the instrumentation kit's headers: an unsigned
    integer as wide as a pointer, 64 bits on the Intel 64 target. *)
Definition ADDRINT_BITS : Z := 64.
Definition ADDRINT_of (z : Z) : Z := z mod 2 ^ ADDRINT_BITS.

Definition is_UINT32 (z : Z) : Prop := 0 <= z < 2 ^ 32.
Definition is_ADDRINT (z : Z) : Prop := 0 <= z < 2 ^ ADDRINT_BITS.

Definition INT_MAX : Z := 2 ^ 31 - 1.

(** ** Size units *)

Definition KILO : Z := 1024.
Definition MEGA : Z := KILO * KILO.
Definition GIGA : Z := KILO * MEGA.

(** ** Bit utilities *)

(** [IsPower2]: [(n & (n - 1)) == 0] on [UINT32]. *)
Definition IsPower2 (n : Z) : bool :=
  Z.land n (UINT32_of (n - 1)) =? 0.

(** A C++ condition on an integer: true when it is not zero. *)
Definition nonzero (z : Z) : bool := negb (z =? 0).

(** [FloorLog2]: the five conditional steps, each updating [p] and (all but
    the last) [n]. *)
Definition FloorLog2 (n : Z) : Z :=
  let p := 0 in
  if n =? 0 then -1
  else
    let '(p, n) :=
      if nonzero (Z.land n 0xffff0000) then (p + 16, Z.shiftr n 16) else (p, n) in
    let '(p, n) :=
      if nonzero (Z.land n 0x0000ff00) then (p + 8, Z.shiftr n 8) else (p, n) in
    let '(p, n) :=
      if nonzero (Z.land n 0x000000f0) then (p + 4, Z.shiftr n 4) else (p, n) in
    let '(p, n) :=
      if nonzero (Z.land n 0x0000000c) then (p + 2, Z.shiftr n 2) else (p, n) in
    let p := if nonzero (Z.land n 0x00000002) then p + 1 else p in
    p.

(** [CeilLog2]: [FloorLog2(n - 1) + 1], the subtraction on [UINT32]. *)
Definition CeilLog2 (n : Z) : Z :=
  INT32_of (FloorLog2 (UINT32_of (n - 1)) + 1).

(** ** Cache tag *)

Record CACHE_TAG : Type := mkCACHE_TAG {
  _tag : Z;      (* ADDRINT *)
  dirty : bool;
  LRU : Z        (* int *)
}.

(** The constructor [CACHE_TAG(ADDRINT tag = 0)]. *)
Definition CACHE_TAG_ctor (tag : Z) : CACHE_TAG :=
  {| _tag := tag; dirty := false; LRU := 0 |}.

(** [operator==] compares the identifying value only. *)
Definition CACHE_TAG_eqb (left right : CACHE_TAG) : bool :=
  _tag left =? _tag right.

(** [operator ADDRINT()]. *)
Definition to_ADDRINT (t : CACHE_TAG) : Z := _tag t.

(** Assignment to the public member [LRU] of a stored tag. *)
Definition set_LRU (v : Z) (t : CACHE_TAG) : CACHE_TAG :=
  {| _tag := _tag t; dirty := dirty t; LRU := v |}.

(** ** Cache sets *)

(** What the template parameter [SET] of [CACHE] must provide: a default
    constructor, [SetAssociativity] (which may fail its [ASSERTX]), [Find]
    (which may update the set) and [Replace]. *)
Class SET_OPS (SET : Type) : Type := {
  SET_default : SET;
  SetAssociativity : Z -> SET -> option SET;
  Find : CACHE_TAG -> SET -> bool * SET;
  Replace : CACHE_TAG -> SET -> SET
}.

(** The loop shape shared by the set classes,
    [for (INT32 index = last; index >= 0; index--) body], run for [n = last + 1]
    iterations: [body] sees the indices [n - 1], ..., [0] in this order. *)
Fixpoint for_down {A : Type} (n : nat) (body : nat -> A -> A) (a : A) : A :=
  match n with
  | O => a
  | S index => for_down index body (body index a)
  end.

Module CACHE_SET.

(** *** Direct mapped set *)
Module DIRECT_MAPPED.

Record t : Type := mk { _tag : CACHE_TAG }.

(** [DIRECT_MAPPED(UINT32 associativity = 1)]. *)
Definition ctor (associativity : Z) : option t :=
  if associativity =? 1 then Some {| _tag := CACHE_TAG_ctor 0 |} else None.

Definition SetAssociativity (associativity : Z) (s : t) : option t :=
  if associativity =? 1 then Some s else None.

Definition GetAssociativity (associativity : Z) (s : t) : Z := 1.

Definition Find (tag : CACHE_TAG) (s : t) : bool * t :=
  (CACHE_TAG_eqb (_tag s) tag, s).

Definition Replace (tag : CACHE_TAG) (s : t) : t := {| _tag := tag |}.

Definition default : t := {| _tag := CACHE_TAG_ctor 0 |}.

End DIRECT_MAPPED.

(** *** Associative set with recency counters *)
Module LRU.

Record t : Type := mk {
  _tags : list CACHE_TAG;     (* CACHE_TAG _tags[MAX_ASSOCIATIVITY] *)
  _tagsLastIndex : Z          (* UINT32 *)
}.

(** Number of iterations of the descending loops: the index starts at
    [_tagsLastIndex] read as [INT32] and runs while it is [>= 0]. *)
Definition active (s : t) : nat := Z.to_nat (INT32_of (_tagsLastIndex s) + 1).

(** The constructor [LRU(UINT32 associativity = MAX_ASSOCIATIVITY)]: the
    array starts as default tags and the loop stores [CACHE_TAG(0)] in the
    active slots. *)
Definition ctor (MAX_ASSOCIATIVITY associativity : Z) : option t :=
  let last := UINT32_of (associativity - 1) in
  if associativity <=? MAX_ASSOCIATIVITY then
    let tags0 := replicate (Z.to_nat MAX_ASSOCIATIVITY) (CACHE_TAG_ctor 0) in
    Some {| _tags := for_down (Z.to_nat (INT32_of last + 1))
                       (fun index tags => <[index := CACHE_TAG_ctor 0]> tags)
                       tags0;
            _tagsLastIndex := last |}
  else None.

Definition SetAssociativity (MAX_ASSOCIATIVITY associativity : Z) (s : t)
  : option t :=
  if associativity <=? MAX_ASSOCIATIVITY then
    Some {| _tags := _tags s; _tagsLastIndex := UINT32_of (associativity - 1) |}
  else None.

Definition GetAssociativity (associativity : Z) (s : t) : Z :=
  UINT32_of (_tagsLastIndex s + 1).

(** One iteration of the loop of [Find]; the state is the array and
    [result].  A slot outside the array is left alone (the source has no
    defined behaviour there). *)
Definition Find_body (tag : CACHE_TAG) (index : nat)
    (st : list CACHE_TAG * bool) : list CACHE_TAG * bool :=
  let '(tags, result) := st in
  match tags !! index with
  | Some slot =>
      if CACHE_TAG_eqb slot tag
      then (<[index := set_LRU 0 slot]> tags, true)
      else (<[index := set_LRU (INT32_of (LRU slot + 1)) slot]> tags, result)
  | None => (tags, result)
  end.

Definition Find (tag : CACHE_TAG) (s : t) : bool * t :=
  let '(tags, result) := for_down (active s) (Find_body tag) (_tags s, false) in
  (result, {| _tags := tags; _tagsLastIndex := _tagsLastIndex s |}).

(** One iteration of the loop of [Replace]; the state is
    [(lru_index, lru_val)]. *)
Definition Replace_body (tags : list CACHE_TAG) (index : nat)
    (st : Z * Z) : Z * Z :=
  let '(lru_index, lru_val) := st in
  match tags !! index with
  | Some slot =>
      if lru_val <? LRU slot then (Z.of_nat index, LRU slot)
      else (lru_index, lru_val)
  | None => (lru_index, lru_val)
  end.

(** The slot [Replace] selects. *)
Definition victim (s : t) : Z :=
  fst (for_down (active s) (Replace_body (_tags s)) (_tagsLastIndex s, 0)).

(** [_tags[lru_index] = tag; _tags[lru_index].LRU = 0].  An index outside
    the array leaves it alone (the source has no defined behaviour there). *)
Definition Replace (tag : CACHE_TAG) (s : t) : t :=
  let lru_index := victim s in
  {| _tags := <[Z.to_nat lru_index := set_LRU 0 tag]> (_tags s);
     _tagsLastIndex := _tagsLastIndex s |}.

(** The set as the array declaration [SET _sets[MAX_SETS]] builds it. *)
Definition default (MAX_ASSOCIATIVITY : Z) : t :=
  {| _tags := replicate (Z.to_nat MAX_ASSOCIATIVITY) (CACHE_TAG_ctor 0);
     _tagsLastIndex := UINT32_of (MAX_ASSOCIATIVITY - 1) |}.

End LRU.

End CACHE_SET.

#[export] Instance DIRECT_MAPPED_OPS : SET_OPS CACHE_SET.DIRECT_MAPPED.t := {|
  SET_default := CACHE_SET.DIRECT_MAPPED.default;
  SetAssociativity := CACHE_SET.DIRECT_MAPPED.SetAssociativity;
  Find := CACHE_SET.DIRECT_MAPPED.Find;
  Replace := CACHE_SET.DIRECT_MAPPED.Replace
|}.

(** [CACHE_SET::LRU<MAX_ASSOCIATIVITY>]. *)
Definition LRU_OPS (MAX_ASSOCIATIVITY : Z) : SET_OPS CACHE_SET.LRU.t := {|
  SET_default := CACHE_SET.LRU.default MAX_ASSOCIATIVITY;
  SetAssociativity := CACHE_SET.LRU.SetAssociativity MAX_ASSOCIATIVITY;
  Find := CACHE_SET.LRU.Find;
  Replace := CACHE_SET.LRU.Replace
|}.

(** ** Allocation policy and access types *)

Module CACHE_ALLOC.
Inductive STORE_ALLOCATION : Type := STORE_ALLOCATE | STORE_NO_ALLOCATE.
End CACHE_ALLOC.

(** [ACCESS_TYPE]; the third enumerator of the source, [ACCESS_TYPE_NUM], is
    the number of access types and dimensions the counter arrays. *)
Inductive ACCESS_TYPE : Type := ACCESS_TYPE_LOAD | ACCESS_TYPE_STORE.

Definition ACCESS_TYPE_eqb (a b : ACCESS_TYPE) : bool :=
  match a, b with
  | ACCESS_TYPE_LOAD, ACCESS_TYPE_LOAD => true
  | ACCESS_TYPE_STORE, ACCESS_TYPE_STORE => true
  | _, _ => false
  end.

(** ** The base class *)

(** A row [CACHE_STATS row[HIT_MISS_NUM]], indexed by the result of the
    access ([false] is 0, [true] is 1). *)
Record HIT_MISS : Type := mkHIT_MISS {
  at_false : Z;     (* UINT64 *)
  at_true : Z       (* UINT64 *)
}.

(** A counter array [CACHE_STATS a[ACCESS_TYPE_NUM][HIT_MISS_NUM]]. *)
Record STATS : Type := mkSTATS {
  at_LOAD : HIT_MISS;
  at_STORE : HIT_MISS
}.

Definition STATS_zero : STATS :=
  {| at_LOAD := {| at_false := 0; at_true := 0 |};
     at_STORE := {| at_false := 0; at_true := 0 |} |}.

(** [a[accessType][hit]]. *)
Definition STATS_get (a : STATS) (accessType : ACCESS_TYPE) (hit : bool) : Z :=
  let row :=
    match accessType with
    | ACCESS_TYPE_LOAD => at_LOAD a
    | ACCESS_TYPE_STORE => at_STORE a
    end in
  if hit then at_true row else at_false row.

(** [row[hit]++] on [UINT64]. *)
Definition HIT_MISS_incr (row : HIT_MISS) (hit : bool) : HIT_MISS :=
  if hit
  then {| at_false := at_false row; at_true := UINT64_of (at_true row + 1) |}
  else {| at_false := UINT64_of (at_false row + 1); at_true := at_true row |}.

(** [a[accessType][hit]++]. *)
Definition STATS_incr (a : STATS) (accessType : ACCESS_TYPE) (hit : bool) : STATS :=
  match accessType with
  | ACCESS_TYPE_LOAD =>
      {| at_LOAD := HIT_MISS_incr (at_LOAD a) hit; at_STORE := at_STORE a |}
  | ACCESS_TYPE_STORE =>
      {| at_LOAD := at_LOAD a; at_STORE := HIT_MISS_incr (at_STORE a) hit |}
  end.

Record CACHE_BASE : Type := mkCACHE_BASE {
  _access : STATS;
  _l2_access : STATS;
  _name : string;
  _cacheSize : Z;
  _lineSize : Z;
  _associativity : Z;
  _l2_cacheSize : Z;
  _l2_lineSize : Z;
  _l2_associativity : Z;
  _lineShift : Z;
  _setIndexMask : Z;
  _l2_lineShift : Z;
  _l2_setIndexMask : Z
}.

(** Unsigned division; dividing by zero stops the program. *)
Definition udiv (a b : Z) : option Z :=
  if b =? 0 then None else Some (a / b).

(** The initialiser [(size / (associativity * lineSize)) - 1] on [UINT32]. *)
Definition index_mask (size lineSize associativity : Z) : option Z :=
  q ← udiv size (UINT32_of (associativity * lineSize));
  Some (UINT32_of (q - 1)).

(** [SumAccess]: the summation loops of the source are inside a comment; what
    is compiled declares [sum = 0] and returns it. *)
Definition SumAccess (b : CACHE_BASE) (hit : bool) (cache_level : Z) : Z :=
  let sum := 0 in
  sum.

Definition NumSets (b : CACHE_BASE) : Z := UINT32_of (_setIndexMask b + 1).
Definition l2_NumSets (b : CACHE_BASE) : Z := UINT32_of (_l2_setIndexMask b + 1).

Definition CacheSize (b : CACHE_BASE) : Z := _cacheSize b.
Definition LineSize (b : CACHE_BASE) : Z := _lineSize b.
Definition Associativity (b : CACHE_BASE) : Z := _associativity b.

(** The per-type accessors [Hits(accessType)], [Misses(accessType)],
    [Accesses(accessType)]. *)
Definition Hits_of (b : CACHE_BASE) (accessType : ACCESS_TYPE) : Z :=
  STATS_get (_access b) accessType true.
Definition Misses_of (b : CACHE_BASE) (accessType : ACCESS_TYPE) : Z :=
  STATS_get (_access b) accessType false.
Definition Accesses_of (b : CACHE_BASE) (accessType : ACCESS_TYPE) : Z :=
  UINT64_of (Hits_of b accessType + Misses_of b accessType).

(** The aggregate accessors [Hits()], [Misses()], [Accesses()]. *)
Definition Hits (b : CACHE_BASE) : Z := SumAccess b true 1.
Definition Misses (b : CACHE_BASE) : Z := SumAccess b false 1.
Definition Accesses (b : CACHE_BASE) : Z := UINT64_of (Hits b + Misses b).

Definition l2_Hits_of (b : CACHE_BASE) (accessType : ACCESS_TYPE) : Z :=
  STATS_get (_l2_access b) accessType true.
Definition l2_Misses_of (b : CACHE_BASE) (accessType : ACCESS_TYPE) : Z :=
  STATS_get (_l2_access b) accessType false.
Definition l2_Accesses_of (b : CACHE_BASE) (accessType : ACCESS_TYPE) : Z :=
  UINT64_of (l2_Hits_of b accessType + l2_Misses_of b accessType).
Definition l2_Hits (b : CACHE_BASE) : Z := SumAccess b true 2.
Definition l2_Misses (b : CACHE_BASE) : Z := SumAccess b false 2.
Definition l2_Accesses (b : CACHE_BASE) : Z := UINT64_of (l2_Hits b + l2_Misses b).

(** [SplitAddress(addr, tag, setIndex, level)]: the two out-parameters are
    returned as a pair.  The tag is built from the shifted address; the set
    index is the tag's value masked, stored in a [UINT32]. *)
Definition SplitAddress (b : CACHE_BASE) (addr : Z) (level : Z) : CACHE_TAG * Z :=
  let tag :=
    CACHE_TAG_ctor (Z.shiftr addr (if level =? 1 then _lineShift b else _l2_lineShift b)) in
  let setIndex :=
    UINT32_of (Z.land (to_ADDRINT tag)
                      (if level =? 1 then _setIndexMask b else _l2_setIndexMask b)) in
  (tag, setIndex).

(** The five-argument overload, which also yields the offset in the line.
    For a level other than 0, 1 or 2 the source assigns nothing. *)
Definition SplitAddress_line (b : CACHE_BASE) (addr : Z) (level : Z)
  : option (CACHE_TAG * Z * Z) :=
  if (level =? 1) || (level =? 0) then
    let lineMask := UINT32_of (_lineSize b - 1) in
    let lineIndex := UINT32_of (Z.land addr lineMask) in
    let '(tag, setIndex) := SplitAddress b addr 1 in
    Some (tag, setIndex, lineIndex)
  else if level =? 2 then
    let lineMask := UINT32_of (_l2_lineSize b - 1) in
    let lineIndex := UINT32_of (Z.land addr lineMask) in
    let '(tag, setIndex) := SplitAddress b addr 2 in
    Some (tag, setIndex, lineIndex)
  else None.

(** The constructor of [CACHE_BASE].  The member initialisers run first (two
    of them divide); then the two [ASSERTX]; then the loop that clears the
    counters.  [None] stands for a run that the constructor stops. *)
Definition CACHE_BASE_ctor (name : string)
    (cacheSize lineSize associativity : Z)
    (l2_cacheSize l2_lineSize l2_associativity : Z) : option CACHE_BASE :=
  let lineShift := UINT32_of (FloorLog2 lineSize) in
  setIndexMask ← index_mask cacheSize lineSize associativity;
  let l2_lineShift := UINT32_of (FloorLog2 l2_lineSize) in
  l2_setIndexMask ← index_mask l2_cacheSize l2_lineSize l2_associativity;
  if IsPower2 lineSize && IsPower2 (UINT32_of (setIndexMask + 1)) then
    Some {| _access := STATS_zero;
            _l2_access := STATS_zero;
            _name := name;
            _cacheSize := cacheSize;
            _lineSize := lineSize;
            _associativity := associativity;
            _l2_cacheSize := l2_cacheSize;
            _l2_lineSize := l2_lineSize;
            _l2_associativity := l2_associativity;
            _lineShift := lineShift;
            _setIndexMask := setIndexMask;
            _l2_lineShift := l2_lineShift;
            _l2_setIndexMask := l2_setIndexMask |}
  else None.

(** The geometry of a cache: everything but the counters. *)
Definition same_geometry (b b' : CACHE_BASE) : Prop :=
  _name b' = _name b /\
  _cacheSize b' = _cacheSize b /\ _lineSize b' = _lineSize b /\
  _associativity b' = _associativity b /\
  _l2_cacheSize b' = _l2_cacheSize b /\ _l2_lineSize b' = _l2_lineSize b /\
  _l2_associativity b' = _l2_associativity b /\
  _lineShift b' = _lineShift b /\ _setIndexMask b' = _setIndexMask b /\
  _l2_lineShift b' = _l2_lineShift b /\ _l2_setIndexMask b' = _l2_setIndexMask b.

(** [_access[accessType][hit]++] inside the object. *)
Definition count_access (b : CACHE_BASE) (accessType : ACCESS_TYPE) (hit : bool)
  : CACHE_BASE :=
  {| _access := STATS_incr (_access b) accessType hit;
     _l2_access := _l2_access b;
     _name := _name b;
     _cacheSize := _cacheSize b;
     _lineSize := _lineSize b;
     _associativity := _associativity b;
     _l2_cacheSize := _l2_cacheSize b;
     _l2_lineSize := _l2_lineSize b;
     _l2_associativity := _l2_associativity b;
     _lineShift := _lineShift b;
     _setIndexMask := _setIndexMask b;
     _l2_lineShift := _l2_lineShift b;
     _l2_setIndexMask := _l2_setIndexMask b |}.

(** ** The templated cache *)

Record CACHE (SET : Type) : Type := mkCACHE {
  base : CACHE_BASE;
  _sets : list SET;       (* SET _sets[MAX_SETS] *)
  _l2_sets : list SET     (* SET _l2_sets[MAX_SETS] *)
}.
Arguments mkCACHE {SET} _ _ _.
Arguments base {SET} _.
Arguments _sets {SET} _.
Arguments _l2_sets {SET} _.

Section CACHE_template.

(** The template parameters [<class SET, UINT32 MAX_SETS, UINT32 STORE_ALLOCATION>]. *)
Context {SET : Type} `{SET_OPS SET}.
Variable MAX_SETS : Z.
Variable STORE_ALLOCATION : CACHE_ALLOC.STORE_ALLOCATION.

(** [for (i = 0; i < n; i++) sets[i].SetAssociativity(associativity)]: the
    first [n] sets are configured in order.  [None] stands for an [ASSERTX]
    that fails, which stops the run, and for an index past the array.  The
    first loop cannot reach one, [NumSets() <= MAX_SETS] being asserted before
    it; the second-level loop has no such assertion, and past [_l2_sets] the
    source has no defined behaviour (the constructor as built goes on, writing
    outside the object): there [None] stands for that, not for a constructor
    that stops, and the properties of the constructor are stated where the
    loop stays inside the array. *)
Fixpoint configure_sets (n : nat) (associativity : Z) (sets : list SET)
  : option (list SET) :=
  match n with
  | O => Some sets
  | S m =>
      match sets with
      | [] => None
      | s :: rest =>
          s' ← SetAssociativity associativity s;
          rest' ← configure_sets m associativity rest;
          Some (s' :: rest')
      end
  end.

(** The constructor of [CACHE].  [None] stands for a run that the base class
    or an [ASSERTX] stops, and for a second-level loop that leaves
    [_l2_sets] (see [configure_sets]). *)
Definition CACHE_ctor (name : string)
    (cacheSize lineSize associativity : Z)
    (l2_cacheSize l2_lineSize l2_associativity : Z) : option (CACHE SET) :=
  b ← CACHE_BASE_ctor name cacheSize lineSize associativity
        l2_cacheSize l2_lineSize l2_associativity;
  let sets0 := replicate (Z.to_nat MAX_SETS) SET_default in
  if NumSets b <=? MAX_SETS then
    sets ← configure_sets (Z.to_nat (NumSets b)) associativity sets0;
    l2_sets ← configure_sets (Z.to_nat (l2_NumSets b)) l2_associativity sets0;
    Some {| base := b; _sets := sets; _l2_sets := l2_sets |}
  else None.

(** The test guarding [set.Replace(tag)]. *)
Definition allocates (hit : bool) (accessType : ACCESS_TYPE) : bool :=
  negb hit &&
  (ACCESS_TYPE_eqb accessType ACCESS_TYPE_LOAD ||
   match STORE_ALLOCATION with
   | CACHE_ALLOC.STORE_ALLOCATE => true
   | CACHE_ALLOC.STORE_NO_ALLOCATE => false
   end).

(** [AccessSingleLine]: the new state of the object is returned with the
    result.  [None] stands for a set index outside [_sets]. *)
Definition AccessSingleLine (c : CACHE SET) (addr : Z) (accessType : ACCESS_TYPE)
  : option (bool * CACHE SET) :=
  let '(tag, setIndex) := SplitAddress (base c) addr 1 in
  set ← _sets c !! Z.to_nat setIndex;
  let '(hit, set) := Find tag set in
  let set := if allocates hit accessType then Replace tag set else set in
  Some (hit,
        {| base := count_access (base c) accessType hit;
           _sets := <[Z.to_nat setIndex := set]> (_sets c);
           _l2_sets := _l2_sets c |}).

(** The loop of [Access].  Its body, as compiled, sets [localHit] to [true]
    (the call of [AccessSingleLine] is inside a comment), so the object is
    not touched.  [fuel] bounds the number of iterations: the result is
    [Some] once the test [addr < highAddr] fails, and [None] when it has held
    after each of the [fuel] iterations.  A loop whose test never fails has no
    side effect here, and C++ gives such an execution no defined behaviour
    (built without optimisation it runs on; an optimising compiler may drop
    it): [None] for every [fuel] stands for a call without a defined result,
    not for one that is known to hang. *)
Fixpoint Access_loop (fuel : nat) (addr highAddr lineSize notLineMask : Z)
    (allHit : bool) : option bool :=
  match fuel with
  | O => None
  | S fuel' =>
      let localHit := true in
      let allHit := allHit && localHit in
      let addr := ADDRINT_of (Z.land addr notLineMask + lineSize) in
      if addr <? highAddr
      then Access_loop fuel' addr highAddr lineSize notLineMask allHit
      else Some allHit
  end.

Definition Access (fuel : nat) (c : CACHE SET) (addr size : Z)
    (accessType : ACCESS_TYPE) : option (bool * CACHE SET) :=
  let highAddr := ADDRINT_of (addr + size) in
  let allHit := true in
  let lineSize := LineSize (base c) in
  let notLineMask := ADDRINT_of (Z.lnot (ADDRINT_of (lineSize - 1))) in
  allHit ← Access_loop fuel addr highAddr lineSize notLineMask allHit;
  Some (allHit, c).

(** A sequence of single-line accesses, each on the state the previous one
    left. *)
Fixpoint run (accs : list (Z * ACCESS_TYPE)) (c : CACHE SET) : option (CACHE SET) :=
  match accs with
  | [] => Some c
  | (addr, accessType) :: rest =>
      r ← AccessSingleLine c addr accessType;
      run rest (snd r)
  end.

End CACHE_template.

(** * Vocabulary of the properties *)

(** ** Sets *)

(** What one probe does to a slot. *)
Definition probe (tag slot : CACHE_TAG) : CACHE_TAG :=
  if CACHE_TAG_eqb slot tag then set_LRU 0 slot
  else set_LRU (INT32_of (LRU slot + 1)) slot.

(** The state of the loop once the indices [k], ..., [n - 1] are done. *)
Definition Find_inv (tag : CACHE_TAG) (tags : list CACHE_TAG) (n k : nat)
    (st : list CACHE_TAG * bool) : Prop :=
  length (fst st) = length tags /\
  (forall i, (k <= i < n)%nat -> fst st !! i = probe tag <$> tags !! i) /\
  (forall i, (i < k \/ n <= i)%nat -> fst st !! i = tags !! i) /\
  (snd st = true <->
   exists i slot, (k <= i < n)%nat /\ tags !! i = Some slot /\
                  CACHE_TAG_eqb slot tag = true).

(** The state [(lru_index, lru_val)] once the indices [k], ..., [n - 1] are
    done: [lru_val] bounds the recencies seen, and either nothing was
    selected yet, or the selected slot holds [lru_val] and every slot seen
    before it (the ones above it) holds less. *)
Definition Replace_inv (tags : list CACHE_TAG) (last : Z) (n k : nat)
    (st : Z * Z) : Prop :=
  0 <= snd st /\
  (forall i slot, (k <= i < n)%nat -> tags !! i = Some slot -> LRU slot <= snd st) /\
  ((fst st = last /\ snd st = 0) \/
   (exists j slot, fst st = Z.of_nat j /\ (k <= j < n)%nat /\
      tags !! j = Some slot /\ LRU slot = snd st /\ 0 < snd st /\
      forall i slot', (j < i < n)%nat -> tags !! i = Some slot' ->
                      LRU slot' < snd st)).

(** A load of the line of tag value [tag] on an associative set: [Find],
    then [Replace] when it missed. *)
Definition LRU_load (tag : Z) (s : CACHE_SET.LRU.t) : CACHE_SET.LRU.t :=
  let r := CACHE_SET.LRU.Find (CACHE_TAG_ctor tag) s in
  if fst r then snd r else CACHE_SET.LRU.Replace (CACHE_TAG_ctor tag) (snd r).

(** A [k]-way set that started fresh and has loaded the distinct non-zero
    tag values [ts], in this order: the value loaded [j]-th (from 0) sits in
    slot [k - 1 - j] with recency [length ts - 1 - j], and the slots below
    still hold the default tag, aged by every load. *)
Definition cold_inv (k : nat) (ts : list Z) (s : CACHE_SET.LRU.t) : Prop :=
  is_UINT32 (CACHE_SET.LRU._tagsLastIndex s) /\
  CACHE_SET.LRU.active s = k /\
  (k <= length (CACHE_SET.LRU._tags s))%nat /\
  (forall i, (i + length ts < k)%nat ->
     CACHE_SET.LRU._tags s !! i
     = Some {| _tag := 0; dirty := false; LRU := Z.of_nat (length ts) |}) /\
  (forall j t, ts !! j = Some t ->
     CACHE_SET.LRU._tags s !! (k - 1 - j)%nat
     = Some {| _tag := t; dirty := false; LRU := Z.of_nat (length ts - 1 - j) |}).

(** The tag values of the active slots of an associative set. *)
Definition LRU_resident (s : CACHE_SET.LRU.t) : list Z :=
  to_ADDRINT <$> take (CACHE_SET.LRU.active s) (CACHE_SET.LRU._tags s).

(** The tag values a set compares a probe with, per set class. *)
Class SET_VIEW (SET : Type) : Type := resident : SET -> list Z.

#[export] Instance DIRECT_MAPPED_VIEW : SET_VIEW CACHE_SET.DIRECT_MAPPED.t :=
  fun s => [to_ADDRINT (CACHE_SET.DIRECT_MAPPED._tag s)].

#[export] Instance LRU_VIEW : SET_VIEW CACHE_SET.LRU.t := LRU_resident.

(** What the cache relies on in a set class: [Find] hits exactly on the
    resident values and keeps them; a default set, configured or not, holds
    the value 0. *)
Class SET_LAWS (SET : Type) `{SET_OPS SET} `{SET_VIEW SET} : Prop := {
  Find_hit : forall tag s, fst (Find tag s) = true <-> to_ADDRINT tag ∈ resident s;
  Find_resident : forall tag s, resident (snd (Find tag s)) = resident s;
  default_resident : 0 ∈ resident SET_default;
  configured_resident : forall k s,
    1 <= k -> SetAssociativity k SET_default = Some s -> 0 ∈ resident s
}.

(** An associative set with three active slots of four; the fourth slot is
    inactive although it holds the probed value of the example. *)
Definition sample_set : CACHE_SET.LRU.t :=
  {| CACHE_SET.LRU._tags :=
       [ {| _tag := 7; dirty := false; LRU := 3 |};
         {| _tag := 9; dirty := false; LRU := 1 |};
         {| _tag := 5; dirty := false; LRU := 0 |};
         {| _tag := 9; dirty := false; LRU := 4 |} ];
     CACHE_SET.LRU._tagsLastIndex := 2 |}.

(** A set whose maximal recency 5 is held by the slots 1 and 2. *)
Definition tied_set : CACHE_SET.LRU.t :=
  {| CACHE_SET.LRU._tags :=
       [ {| _tag := 7; dirty := false; LRU := 2 |};
         {| _tag := 9; dirty := false; LRU := 5 |};
         {| _tag := 5; dirty := false; LRU := 5 |};
         {| _tag := 3; dirty := false; LRU := 1 |} ];
     CACHE_SET.LRU._tagsLastIndex := 3 |}.

(** ** Caches *)

(** Number of accesses of one type in a sequence. *)
Fixpoint count_type (t : ACCESS_TYPE) (accs : list (Z * ACCESS_TYPE)) : Z :=
  match accs with
  | [] => 0
  | (_, t') :: rest =>
      (if ACCESS_TYPE_eqb t' t then 1 else 0) + count_type t rest
  end.

Section CACHE_vocabulary.

Context {SET : Type} {ops : SET_OPS SET}.
Variable STORE_ALLOCATION : CACHE_ALLOC.STORE_ALLOCATION.

(** The tag and the array index [AccessSingleLine] computes for an address. *)
Definition tag_of (c : CACHE SET) (addr : Z) : CACHE_TAG :=
  fst (SplitAddress (base c) addr 1).
Definition index_of (c : CACHE SET) (addr : Z) : nat :=
  Z.to_nat (snd (SplitAddress (base c) addr 1)).

(** What [AccessSingleLine] leaves in the set it looked up. *)
Definition set_after (tag : CACHE_TAG) (accessType : ACCESS_TYPE) (set : SET) : SET :=
  if allocates STORE_ALLOCATION (fst (Find tag set)) accessType
  then Replace tag (snd (Find tag set))
  else snd (Find tag set).

(** A cache in which every set index [SplitAddress] can produce is inside
    [_sets]. *)
Definition cache_wf (c : CACHE SET) : Prop :=
  is_UINT32 (_setIndexMask (base c)) /\
  (Z.to_nat (_setIndexMask (base c)) < length (_sets c))%nat.

(** The counters of one type, as long as they have not wrapped: they are
    in range and add up to the number of accesses of the type. *)
Definition counted (c : CACHE SET) (t : ACCESS_TYPE) (n : Z) : Prop :=
  0 <= Hits_of (base c) t /\ 0 <= Misses_of (base c) t /\
  Hits_of (base c) t + Misses_of (base c) t = n.

(** Whether the access runs [Replace] on the set of index [idx]. *)
Definition replaces_in (idx : nat) (c : CACHE SET) (addr : Z) (t : ACCESS_TYPE)
  : bool :=
  match _sets c !! index_of c addr with
  | Some set =>
      allocates STORE_ALLOCATION (fst (Find (tag_of c addr) set)) t &&
      Nat.eqb (index_of c addr) idx
  | None => false
  end.

(** No access of the sequence runs [Replace] on the set of index [idx]. *)
Fixpoint no_replace_in (idx : nat) (accs : list (Z * ACCESS_TYPE)) (c : CACHE SET)
  : bool :=
  match accs with
  | [] => true
  | (addr, t) :: rest =>
      negb (replaces_in idx c addr t) &&
      match AccessSingleLine STORE_ALLOCATION c addr t with
      | Some r => no_replace_in idx rest (snd r)
      | None => true
      end
  end.

End CACHE_vocabulary.

(** The address the loop of [Access] moves to. *)
Definition next_line (lineSize addr : Z) : Z :=
  ADDRINT_of (Z.land addr (ADDRINT_of (Z.lnot (ADDRINT_of (lineSize - 1)))) + lineSize).

(** The address the loop of [Access] holds after [n] iterations, the one its
    test [addr < highAddr] then reads. *)
Definition Access_addr (lineSize : Z) (n : nat) (addr : Z) : Z :=
  Nat.iter n (next_line lineSize) addr.

(** ** Invariants of the sets *)

(** An associative set with at least one active slot, all of them inside the
    array: what [SetAssociativity(k)] leaves for [1 <= k <= MAX_ASSOCIATIVITY]. *)
Definition LRU_ok (s : CACHE_SET.LRU.t) : Prop :=
  is_UINT32 (CACHE_SET.LRU._tagsLastIndex s) /\
  (1 <= CACHE_SET.LRU.active s <= length (CACHE_SET.LRU._tags s))%nat.

(** No non-zero tag value is held by two active slots. *)
Definition LRU_distinct (s : CACHE_SET.LRU.t) : Prop :=
  forall i j x y,
    (i < CACHE_SET.LRU.active s)%nat -> (j < CACHE_SET.LRU.active s)%nat ->
    CACHE_SET.LRU._tags s !! i = Some x -> CACHE_SET.LRU._tags s !! j = Some y ->
    _tag x = _tag y -> _tag x <> 0 -> i = j.

(** The recencies of the active slots lie between 0 and [n]. *)
Definition LRU_aged (n : Z) (s : CACHE_SET.LRU.t) : Prop :=
  forall i slot,
    (i < CACHE_SET.LRU.active s)%nat -> CACHE_SET.LRU._tags s !! i = Some slot ->
    0 <= LRU slot <= n.

(** The sets on which [Replace] has a slot to write, per set class. *)
Class SET_OK (SET : Type) : Type := set_ok : SET -> Prop.

#[export] Instance DIRECT_MAPPED_OK : SET_OK CACHE_SET.DIRECT_MAPPED.t :=
  fun _ => True.

#[export] Instance LRU_OK : SET_OK CACHE_SET.LRU.t := LRU_ok.

(** What allocation relies on in a set class: the sets of a cache are of the
    kind above and stay so, and [Replace] on such a set makes its tag
    resident. *)
Class SET_ALLOC_LAWS (SET : Type) `{SET_OPS SET} `{SET_VIEW SET} `{SET_OK SET}
    : Prop := {
  default_ok : set_ok SET_default;
  configured_ok : forall k s,
    1 <= k -> SetAssociativity k SET_default = Some s -> set_ok s;
  Find_ok : forall tag s, set_ok s -> set_ok (snd (Find tag s));
  Replace_ok : forall tag s, set_ok s -> set_ok (Replace tag s);
  Replace_resident : forall tag s,
    set_ok s -> to_ADDRINT tag ∈ resident (Replace tag s)
}.


(** ** Histories *)

(** In a history [h] of tag values, the latest first: the number of accesses
    made after the last one with the value [v], if there was one. *)
Fixpoint since (v : Z) (h : list Z) : option nat :=
  match h with
  | [] => None
  | u :: rest => if u =? v then Some O else S <$> since v rest
  end.

(** The recencies of a set follow the history [h] of the accesses made to
    it: a slot whose tag value was accessed holds the number of accesses made
    since; a slot whose tag value was not holds the number of all accesses,
    or more. *)
Definition LRU_tracks (h : list Z) (s : CACHE_SET.LRU.t) : Prop :=
  forall i slot,
    (i < CACHE_SET.LRU.active s)%nat -> CACHE_SET.LRU._tags s !! i = Some slot ->
    match since (_tag slot) h with
    | Some d => LRU slot = Z.of_nat d
    | None => Z.of_nat (length h) <= LRU slot
    end.

(** The history of the set of index [idx] along a sequence of accesses to a
    cache of geometry [b]: the tag values of the accesses that index it, the
    latest first, in front of the history [h] it had. *)
Fixpoint set_history (b : CACHE_BASE) (idx : nat)
    (accs : list (Z * ACCESS_TYPE)) (h : list Z) : list Z :=
  match accs with
  | [] => h
  | (addr, _) :: rest =>
      set_history b idx rest
        (if Nat.eqb (Z.to_nat (snd (SplitAddress b addr 1))) idx
         then to_ADDRINT (fst (SplitAddress b addr 1)) :: h
         else h)
  end.

(** ** Proof tools *)

(** For a goal [exists c, call = Some c /\ _] (or [Some (b, c)]) on a closed
    call of the constructor or of an access: run the call and go on with the
    cache it yields. *)
Ltac exists_built :=
  lazymatch goal with
  | |- exists c, ?call = Some (?b, c) /\ _ =>
      let v := eval vm_compute in call in
      lazymatch v with
      | Some (_, ?c) => exists c; split; [vm_compute; reflexivity|]
      end
  | |- exists c, ?call = Some c /\ _ =>
      let v := eval vm_compute in call in
      lazymatch v with
      | Some ?c => exists c; split; [vm_compute; reflexivity|]
      end
  end.

(** * Properties *)

(** ** Machine integers *)

Lemma UINT32_of_small (z : Z) : is_UINT32 z -> UINT32_of z = z.
Proof. unfold is_UINT32, UINT32_of. intros Hz. apply Z.mod_small. lia. Qed.

Lemma UINT32_of_range (z : Z) : is_UINT32 (UINT32_of z).
Proof. unfold is_UINT32, UINT32_of. apply Z.mod_pos_bound. lia. Qed.

Lemma UINT64_of_small (z : Z) : 0 <= z < 2 ^ 64 -> UINT64_of z = z.
Proof. unfold UINT64_of. intros Hz. apply Z.mod_small. lia. Qed.

Lemma ADDRINT_of_small (z : Z) : is_ADDRINT z -> ADDRINT_of z = z.
Proof. unfold is_ADDRINT, ADDRINT_of. intros Hz. apply Z.mod_small. lia. Qed.

Lemma ADDRINT_of_range (z : Z) : is_ADDRINT (ADDRINT_of z).
Proof. unfold is_ADDRINT, ADDRINT_of. apply Z.mod_pos_bound. unfold ADDRINT_BITS. lia. Qed.

Lemma INT32_of_small (z : Z) : - 2 ^ 31 <= z < 2 ^ 31 -> INT32_of z = z.
Proof. unfold INT32_of. intros Hz. rewrite Z.mod_small; lia. Qed.

(** ** The descending loop *)

(** Loop invariant rule: [P k] holds of the state once the indices [>= k]
    have been visited. *)
Lemma for_down_invariant {A : Type} (P : nat -> A -> Prop)
    (body : nat -> A -> A) (n : nat) (a : A) :
  P n a ->
  (forall i x, (i < n)%nat -> P (S i) x -> P i (body i x)) ->
  P O (for_down n body a).
Proof.
  revert a. induction n as [|n IH]; intros a Hinit Hstep; simpl.
  - exact Hinit.
  - apply IH.
    + apply Hstep; [lia | exact Hinit].
    + intros i x Hi. apply Hstep. lia.
Qed.

(** ** [CACHE_SET::LRU::Find] *)

Module LRU_Find.
Import CACHE_SET.LRU.

Lemma Find_body_probe tag index tags result :
  Find_body tag index (tags, result) =
    match tags !! index with
    | Some slot => (<[index := probe tag slot]> tags, CACHE_TAG_eqb slot tag || result)
    | None => (tags, result)
    end.
Proof.
  unfold Find_body, probe. destruct (tags !! index) as [slot|]; [|done].
  by destruct (CACHE_TAG_eqb slot tag).
Qed.

Lemma Find_loop_inv tag tags n :
  Find_inv tag tags n O (for_down n (Find_body tag) (tags, false)).
Proof.
  apply (for_down_invariant (Find_inv tag tags n)).
  - repeat split; simpl; try done.
    + intros i Hi. lia.
    + intros (i & slot & Hi & _). lia.
  - intros i [tags' r] Hi (Hlen & Hin & Hout & Hres).
    rewrite Find_body_probe. simpl in Hlen, Hin, Hout, Hres.
    assert (Hi' : tags' !! i = tags !! i) by (apply Hout; lia).
    rewrite Hi'. unfold Find_inv. destruct (tags !! i) as [slot|] eqn:Hslot.
    + assert (Hlt : (i < length tags')%nat).
      { apply lookup_lt_is_Some. rewrite Hi'. eauto. }
      repeat split; simpl.
      * by rewrite length_insert.
      * intros j Hj. destruct (decide (j = i)) as [->|Hne].
        -- rewrite list_lookup_insert_eq by done. by rewrite Hslot.
        -- rewrite list_lookup_insert_ne by done. apply Hin. lia.
      * intros j Hj. rewrite list_lookup_insert_ne by lia. apply Hout. lia.
      * intros Hor. apply orb_true_iff in Hor as [Heq|Hr].
        -- exists i, slot. split; [lia|done].
        -- apply Hres in Hr as (j & slot' & Hj & Hl & He).
           exists j, slot'. split; [lia|done].
      * intros (j & slot' & Hj & Hl & He). apply orb_true_iff.
        destruct (decide (j = i)) as [->|Hne].
        -- left. congruence.
        -- right. apply Hres. exists j, slot'. split; [lia|done].
    + repeat split; simpl; try done.
      * intros j Hj. destruct (decide (j = i)) as [->|Hne].
        -- by rewrite Hi', Hslot.
        -- apply Hin. lia.
      * intros j Hj. apply Hout. lia.
      * intros Hr. apply Hres in Hr as (j & slot' & Hj & Hl & He).
        exists j, slot'. split; [lia|done].
      * intros (j & slot' & Hj & Hl & He). apply Hres.
        exists j, slot'. split; [|done].
        assert (j <> i) by congruence. lia.
Qed.

Lemma Find_unfold tag s :
  Find tag s =
    (snd (for_down (active s) (Find_body tag) (_tags s, false)),
     {| _tags := fst (for_down (active s) (Find_body tag) (_tags s, false));
        _tagsLastIndex := _tagsLastIndex s |}).
Proof.
  unfold Find. by destruct (for_down (active s) (Find_body tag) (_tags s, false)).
Qed.

Lemma Find_last tag s : _tagsLastIndex (snd (Find tag s)) = _tagsLastIndex s.
Proof. by rewrite Find_unfold. Qed.

Lemma Find_active tag s : active (snd (Find tag s)) = active s.
Proof. unfold active. by rewrite Find_last. Qed.

Lemma Find_length tag s : length (_tags (snd (Find tag s))) = length (_tags s).
Proof. rewrite Find_unfold. simpl. apply (Find_loop_inv tag (_tags s) (active s)). Qed.

Lemma Find_lookup_active tag s i :
  (i < active s)%nat ->
  _tags (snd (Find tag s)) !! i = probe tag <$> _tags s !! i.
Proof.
  intros Hi. rewrite Find_unfold. simpl.
  apply (Find_loop_inv tag (_tags s) (active s)). lia.
Qed.

Lemma Find_lookup_inactive tag s i :
  (active s <= i)%nat -> _tags (snd (Find tag s)) !! i = _tags s !! i.
Proof.
  intros Hi. rewrite Find_unfold. simpl.
  apply (Find_loop_inv tag (_tags s) (active s)). lia.
Qed.

Lemma Find_result tag s :
  fst (Find tag s) = true <->
  exists i slot, (i < active s)%nat /\ _tags s !! i = Some slot /\
                 _tag slot = _tag tag.
Proof.
  rewrite Find_unfold. simpl.
  destruct (Find_loop_inv tag (_tags s) (active s)) as (_ & _ & _ & Hres).
  rewrite Hres. split; intros (i & slot & Hi & Hl & He); exists i, slot.
  - split; [lia|]. split; [done|]. by apply Z.eqb_eq.
  - split; [lia|]. split; [done|]. by apply Z.eqb_eq.
Qed.

Lemma probe_tag tag slot : _tag (probe tag slot) = _tag slot.
Proof. unfold probe. by destruct (CACHE_TAG_eqb slot tag). Qed.

Lemma probe_miss tag slot :
  _tag slot <> _tag tag -> - 2 ^ 31 <= LRU slot + 1 < 2 ^ 31 ->
  probe tag slot = {| _tag := _tag slot; dirty := dirty slot; LRU := LRU slot + 1 |}.
Proof.
  intros Hne Hrange. unfold probe, CACHE_TAG_eqb.
  destruct (Z.eqb_spec (_tag slot) (_tag tag)); [done|].
  unfold set_LRU. by rewrite INT32_of_small.
Qed.

End LRU_Find.

(** C5.  [Find] visits every active slot, whatever the other slots hold: an
    active slot whose tag equals the probe gets recency 0; every other active
    slot gets its recency plus 1 (the recency being an [int] below [INT_MAX],
    where the increment stays in range); slots past the active ones, the tag
    values and the active count are left as they were; and the result is
    [true] exactly when some active slot holds the probed tag. *)
Theorem LRU_Find_full_scan (tag : CACHE_TAG) (s : CACHE_SET.LRU.t) :
  let r := CACHE_SET.LRU.Find tag s in
  (forall i slot,
      (i < CACHE_SET.LRU.active s)%nat ->
      CACHE_SET.LRU._tags s !! i = Some slot ->
      (_tag slot = _tag tag ->
       CACHE_SET.LRU._tags (snd r) !! i = Some (set_LRU 0 slot)) /\
      (_tag slot <> _tag tag -> - 2 ^ 31 <= LRU slot < INT_MAX ->
       CACHE_SET.LRU._tags (snd r) !! i = Some (set_LRU (LRU slot + 1) slot))) /\
  (forall i, (CACHE_SET.LRU.active s <= i)%nat ->
      CACHE_SET.LRU._tags (snd r) !! i = CACHE_SET.LRU._tags s !! i) /\
  length (CACHE_SET.LRU._tags (snd r)) = length (CACHE_SET.LRU._tags s) /\
  CACHE_SET.LRU._tagsLastIndex (snd r) = CACHE_SET.LRU._tagsLastIndex s /\
  (fst r = true <->
   exists i slot, (i < CACHE_SET.LRU.active s)%nat /\
                  CACHE_SET.LRU._tags s !! i = Some slot /\ _tag slot = _tag tag).
Proof.
  intros r. subst r. split; [|split; [|split; [|split]]].
  - intros i slot Hi Hslot. split.
    + intros Heq. rewrite LRU_Find.Find_lookup_active by done.
      rewrite Hslot. simpl. unfold probe, CACHE_TAG_eqb.
      by rewrite (proj2 (Z.eqb_eq _ _) Heq).
    + intros Hne Hrange. rewrite LRU_Find.Find_lookup_active by done.
      rewrite Hslot. simpl. unfold probe, CACHE_TAG_eqb.
      rewrite (proj2 (Z.eqb_neq _ _) Hne).
      rewrite INT32_of_small; [done | unfold INT_MAX in Hrange; lia].
  - intros i Hi. by apply LRU_Find.Find_lookup_inactive.
  - apply LRU_Find.Find_length.
  - apply LRU_Find.Find_last.
  - apply LRU_Find.Find_result.
Qed.

(** ** [CACHE_SET::LRU::Replace] *)

Module LRU_Replace.
Import CACHE_SET.LRU.

Lemma Replace_loop_inv tags last n :
  Replace_inv tags last n O (for_down n (Replace_body tags) (last, 0)).
Proof.
  apply (for_down_invariant (Replace_inv tags last n)).
  - split; [simpl; lia|]. split; [intros i slot Hi; lia|]. by left.
  - intros i [idx val] Hi (Hval & Hmax & Hsel). simpl in Hval, Hmax, Hsel.
    unfold Replace_body. destruct (tags !! i) as [slot|] eqn:Hslot.
    + destruct (Z.ltb_spec val (LRU slot)) as [Hlt|Hge].
      * split; [simpl; lia|]. split.
        -- simpl. intros j slot' Hj Hl. destruct (decide (j = i)) as [->|Hne].
           ++ assert (slot' = slot) by congruence. subst. lia.
           ++ assert (LRU slot' <= val) by (apply (Hmax j); [lia|done]). lia.
        -- right. exists i, slot. simpl. repeat split; try done; try lia.
           intros j slot' Hj Hl.
           assert (LRU slot' <= val) by (apply (Hmax j); [lia|done]). lia.
      * split; [done|]. split.
        -- simpl. intros j slot' Hj Hl. destruct (decide (j = i)) as [->|Hne].
           ++ assert (slot' = slot) by congruence. subst. lia.
           ++ apply (Hmax j); [lia|done].
        -- destruct Hsel as [Hsel|(j & slot' & Hidx & Hj & Hl & Hv & Hpos & Habove)].
           ++ by left.
           ++ right. exists j, slot'. repeat split; try done; lia.
    + split; [done|]. split.
      * simpl. intros j slot' Hj Hl. apply (Hmax j); [|done].
        assert (j <> i) by congruence. lia.
      * destruct Hsel as [Hsel|(j & slot' & Hidx & Hj & Hl & Hv & Hpos & Habove)].
        -- by left.
        -- right. exists j, slot'. repeat split; try done; lia.
Qed.

(** When the active count is at least one, [_tagsLastIndex] is the index of
    the last active slot. *)
Lemma active_last s :
  is_UINT32 (_tagsLastIndex s) -> (1 <= active s)%nat ->
  _tagsLastIndex s = Z.of_nat (active s - 1).
Proof.
  unfold active, is_UINT32, INT32_of. intros Hr Hn.
  destruct (Z.lt_ge_cases (_tagsLastIndex s) (2 ^ 31)) as [Hlt|Hge].
  - rewrite Z.mod_small in * by lia. lia.
  - exfalso.
    replace (_tagsLastIndex s + 2 ^ 31)
      with (_tagsLastIndex s - 2 ^ 31 + 1 * 2 ^ 32) in Hn by lia.
    rewrite Z.mod_add in Hn by lia.
    rewrite Z.mod_small in Hn by lia. lia.
Qed.

(** The selected slot: an active slot of maximal recency, above which every
    active slot has a smaller recency. *)
Lemma victim_spec s :
  is_UINT32 (_tagsLastIndex s) ->
  (1 <= active s <= length (_tags s))%nat ->
  (forall i slot, (i < active s)%nat -> _tags s !! i = Some slot -> 0 <= LRU slot) ->
  exists j slot,
    victim s = Z.of_nat j /\ (j < active s)%nat /\ _tags s !! j = Some slot /\
    (forall i slot', (i < active s)%nat -> _tags s !! i = Some slot' ->
                     LRU slot' <= LRU slot) /\
    (forall i slot', (j < i < active s)%nat -> _tags s !! i = Some slot' ->
                     LRU slot' < LRU slot).
Proof.
  intros Hlast [Hn Hlen] Hnonneg. unfold victim.
  destruct (Replace_loop_inv (_tags s) (_tagsLastIndex s) (active s))
    as (Hval & Hmax & Hsel).
  destruct (for_down _ _ _) as [idx val]. simpl in *.
  destruct Hsel as [[-> ->]|(j & slot & -> & Hj & Hl & Hv & Hpos & Habove)].
  - destruct (lookup_lt_is_Some_2 (_tags s) (active s - 1)) as [slot Hslot]; [lia|].
    exists (active s - 1)%nat, slot.
    split; [by apply active_last|]. split; [lia|]. split; [done|].
    assert (LRU slot = 0).
    { assert (LRU slot <= 0) by (apply (Hmax (active s - 1)%nat); [lia|done]).
      assert (0 <= LRU slot) by (apply (Hnonneg (active s - 1)%nat); [lia|done]).
      lia. }
    split.
    + intros i slot' Hi Hl'.
      assert (LRU slot' <= 0) by (apply (Hmax i); [lia|done]). lia.
    + intros i slot' Hi. lia.
  - exists j, slot. split; [done|]. split; [lia|]. split; [done|]. split.
    + intros i slot' Hi Hl'. rewrite Hv. apply (Hmax i); [lia|done].
    + intros i slot' Hi Hl'. rewrite Hv. by apply (Habove i).
Qed.

End LRU_Replace.

Module LRU_fresh.
Import CACHE_SET.LRU.

(** The set [SetAssociativity(k)] leaves when applied to a default set. *)
Lemma SetAssociativity_default MAX k s :
  1 <= k <= MAX -> MAX <= 2 ^ 31 ->
  SetAssociativity MAX k (default MAX) = Some s ->
  s = {| _tags := replicate (Z.to_nat MAX) (CACHE_TAG_ctor 0);
         _tagsLastIndex := k - 1 |} /\
  active s = Z.to_nat k.
Proof.
  intros Hk HM. unfold SetAssociativity, default. simpl.
  destruct (Z.leb_spec k MAX); [|lia]. intros [= <-].
  rewrite UINT32_of_small by (unfold is_UINT32; lia).
  split; [done|]. unfold active. simpl. rewrite INT32_of_small by lia. lia.
Qed.

(** The default constructor is the constructor at [MAX_ASSOCIATIVITY]: its
    loop stores the tags the array already holds. *)
Lemma ctor_default MAX : ctor MAX MAX = Some (default MAX).
Proof.
  unfold ctor, default. rewrite Z.leb_refl. do 2 f_equal.
  generalize (Z.to_nat (INT32_of (UINT32_of (MAX - 1)) + 1)).
  intros n. induction n as [|n IH]; simpl; [done|].
  rewrite <- IH at 2. f_equal.
  destruct (decide (n < Z.to_nat MAX)%nat) as [Hlt|Hge].
  - apply list_insert_id. apply lookup_replicate. done.
  - apply list_insert_ge. rewrite length_replicate. lia.
Qed.

End LRU_fresh.

(** *** The first loads of a fresh set *)

Module LRU_cold.
Import CACHE_SET.LRU.

Lemma cold_inv_fresh MAX k s0 :
  1 <= k <= MAX -> MAX <= 2 ^ 31 ->
  SetAssociativity MAX k (default MAX) = Some s0 ->
  cold_inv (Z.to_nat k) [] s0.
Proof.
  intros Hk HM Hs0.
  destruct (LRU_fresh.SetAssociativity_default MAX k s0 Hk HM Hs0) as [-> Hact].
  unfold cold_inv. rewrite Hact. simpl.
  split; [unfold is_UINT32; lia|]. split; [done|].
  split; [rewrite length_replicate; lia|]. split; [|done].
  intros i Hi. apply lookup_replicate_2. lia.
Qed.

(** Every active slot holds the default tag or one of the loaded values. *)
Lemma cold_slot k ts s i slot :
  cold_inv k ts s -> (i < k)%nat -> _tags s !! i = Some slot ->
  ((i + length ts < k)%nat /\
   slot = {| _tag := 0; dirty := false; LRU := Z.of_nat (length ts) |}) \/
  (exists j t, ts !! j = Some t /\ i = (k - 1 - j)%nat /\
     slot = {| _tag := t; dirty := false; LRU := Z.of_nat (length ts - 1 - j) |}).
Proof.
  intros (_ & _ & _ & Hzero & Hload) Hi Hslot.
  destruct (decide (i + length ts < k)%nat) as [Hlow|Hhigh].
  - left. split; [done|]. rewrite (Hzero i Hlow) in Hslot. congruence.
  - right. destruct (lookup_lt_is_Some_2 ts (k - 1 - i)) as [t Ht]; [lia|].
    exists (k - 1 - i)%nat, t. split; [done|].
    assert (Hidx : (k - 1 - (k - 1 - i))%nat = i) by lia.
    split; [lia|]. pose proof (Hload _ _ Ht) as Hl. rewrite Hidx in Hl. congruence.
Qed.

Lemma cold_miss k ts s t :
  cold_inv k ts s -> t ∉ ts -> t <> 0 ->
  fst (Find (CACHE_TAG_ctor t) s) = false.
Proof.
  intros Hinv Hnew Hnz. apply not_true_is_false. intros Hhit.
  apply LRU_Find.Find_result in Hhit as (i & slot & Hi & Hslot & Heq).
  destruct Hinv as (Hl & Hact & Hrest). rewrite Hact in Hi.
  destruct (cold_slot k ts s i slot (conj Hl (conj Hact Hrest)) Hi Hslot)
    as [[_ ->]|(j & t' & Ht' & _ & ->)]; simpl in Heq.
  - congruence.
  - subst t'. apply Hnew. apply list_elem_of_lookup. eauto.
Qed.

(** The slots after a missing [Find]: every active recency grew by one. *)
Lemma cold_after_Find k ts s t :
  cold_inv k ts s -> t ∉ ts -> t <> 0 -> Z.of_nat k < 2 ^ 31 ->
  (length ts <= k)%nat ->
  let s1 := snd (Find (CACHE_TAG_ctor t) s) in
  active s1 = k /\ _tagsLastIndex s1 = _tagsLastIndex s /\
  length (_tags s1) = length (_tags s) /\
  (forall i, (i + length ts < k)%nat ->
     _tags s1 !! i
     = Some {| _tag := 0; dirty := false; LRU := Z.of_nat (length ts) + 1 |}) /\
  (forall j t', ts !! j = Some t' ->
     _tags s1 !! (k - 1 - j)%nat
     = Some {| _tag := t'; dirty := false; LRU := Z.of_nat (length ts - 1 - j) + 1 |}).
Proof.
  intros (Hl & Hact & Hlen & Hzero & Hload) Hnew Hnz Hk Hm s1. unfold s1.
  rewrite LRU_Find.Find_active, LRU_Find.Find_last, LRU_Find.Find_length.
  split; [done|]. split; [done|]. split; [done|]. split.
  - intros i Hi. rewrite LRU_Find.Find_lookup_active by lia.
    rewrite (Hzero i Hi). simpl. rewrite LRU_Find.probe_miss; simpl; [done|congruence|lia].
  - intros j t' Ht'. pose proof (lookup_lt_Some _ _ _ Ht') as Hj.
    rewrite LRU_Find.Find_lookup_active by lia.
    rewrite (Hload j t' Ht'). simpl. rewrite LRU_Find.probe_miss; simpl; [done| |lia].
    intros ->. apply Hnew. apply list_elem_of_lookup. eauto.
Qed.

(** While a default tag is left, the next new value is installed just below
    the values loaded so far. *)
Lemma cold_step k ts s t :
  cold_inv k ts s -> t ∉ ts -> t <> 0 -> Z.of_nat k < 2 ^ 31 ->
  (length ts < k)%nat ->
  victim (snd (Find (CACHE_TAG_ctor t) s)) = Z.of_nat (k - 1 - length ts) /\
  cold_inv k (ts ++ [t]) (LRU_load t s).
Proof.
  intros Hinv Hnew Hnz Hk Hm.
  pose proof (cold_miss k ts s t Hinv Hnew Hnz) as Hmiss.
  destruct (cold_after_Find k ts s t Hinv Hnew Hnz Hk ltac:(lia))
    as (Hact1 & Hlast1 & Hlen1 & Hzero1 & Hload1).
  destruct Hinv as (Hl & Hact & Hlen & Hzero & Hload).
  set (s1 := snd (Find (CACHE_TAG_ctor t) s)) in *.
  assert (Hslots : forall i slot, (i < k)%nat -> _tags s1 !! i = Some slot ->
            ((i + length ts < k)%nat /\ LRU slot = Z.of_nat (length ts) + 1) \/
            ((k <= i + length ts)%nat /\ 0 <= LRU slot <= Z.of_nat (length ts))).
  { intros i slot Hi Hslot.
    destruct (decide (i + length ts < k)%nat) as [Hlow|Hhigh].
    - left. split; [done|]. rewrite (Hzero1 i Hlow) in Hslot.
      injection Hslot as <-. done.
    - right. split; [lia|].
      destruct (lookup_lt_is_Some_2 ts (k - 1 - i)) as [t' Ht']; [lia|].
      pose proof (Hload1 _ _ Ht') as Hl1.
      replace (k - 1 - (k - 1 - i))%nat with i in Hl1 by lia.
      rewrite Hl1 in Hslot. injection Hslot as <-. simpl. lia. }
  destruct (LRU_Replace.victim_spec s1) as (j & slot & Hv & Hj & Hslot & Hmax & Habove).
  { by rewrite Hlast1. }
  { rewrite Hact1, Hlen1. lia. }
  { intros i slot Hi Hslot. rewrite Hact1 in Hi.
    destruct (Hslots i slot Hi Hslot) as [[_ ->]|[_ ?]]; lia. }
  rewrite Hact1 in Hj, Hmax, Habove.
  assert (Hjv : j = (k - 1 - length ts)%nat).
  { pose proof (Hzero1 (k - 1 - length ts)%nat ltac:(lia)) as Htop.
    destruct (Hslots j slot Hj Hslot) as [[Hlow HL]|[Hhigh HL]].
    - destruct (decide (j = k - 1 - length ts)%nat) as [|Hne]; [done|].
      pose proof (Habove (k - 1 - length ts)%nat _ ltac:(lia) Htop) as Hlt.
      simpl in Hlt. lia.
    - pose proof (Hmax (k - 1 - length ts)%nat _ ltac:(lia) Htop) as Hle.
      simpl in Hle. lia. }
  split; [by rewrite Hv, Hjv|].
  unfold LRU_load. rewrite Hmiss. fold s1. unfold Replace. rewrite Hv, Nat2Z.id, Hjv.
  unfold cold_inv. simpl. rewrite length_app, length_insert. simpl.
  split; [by rewrite Hlast1|].
  split; [by rewrite <- Hact1|].
  split; [lia|]. split.
  - intros i Hi. rewrite list_lookup_insert_ne by lia.
    rewrite Hzero1 by lia. do 3 f_equal. lia.
  - intros j' t' Ht'. apply lookup_app_Some in Ht' as [Ht'|[Hge Ht']].
    + pose proof (lookup_lt_Some _ _ _ Ht') as Hj'.
      rewrite list_lookup_insert_ne by lia.
      rewrite (Hload1 _ _ Ht'). do 3 f_equal. lia.
    + apply list_lookup_singleton_Some in Ht' as [Hz <-].
      replace j' with (length ts) by lia.
      rewrite list_lookup_insert_eq by lia.
      unfold set_LRU. simpl. do 2 f_equal. lia.
Qed.

(** Once the set is full of loaded values, the next new value evicts slot
    [k - 1], which holds the value loaded first. *)
Lemma cold_full k ts s t :
  cold_inv k ts s -> t ∉ ts -> t <> 0 -> Z.of_nat k < 2 ^ 31 ->
  length ts = k -> (1 <= k)%nat ->
  fst (Find (CACHE_TAG_ctor t) s) = false /\
  victim (snd (Find (CACHE_TAG_ctor t) s)) = Z.of_nat (k - 1) /\
  _tag <$> _tags s !! (k - 1)%nat = ts !! O /\
  _tag <$> _tags (LRU_load t s) !! (k - 1)%nat = Some t.
Proof.
  intros Hinv Hnew Hnz Hk Hm Hpos.
  pose proof (cold_miss k ts s t Hinv Hnew Hnz) as Hmiss.
  destruct (cold_after_Find k ts s t Hinv Hnew Hnz Hk ltac:(lia))
    as (Hact1 & Hlast1 & Hlen1 & Hzero1 & Hload1).
  destruct Hinv as (Hl & Hact & Hlen & Hzero & Hload).
  set (s1 := snd (Find (CACHE_TAG_ctor t) s)) in *.
  destruct (lookup_lt_is_Some_2 ts O) as [t0 Ht0]; [lia|].
  assert (Hslots : forall i slot, (i < k)%nat -> _tags s1 !! i = Some slot ->
            LRU slot = Z.of_nat i + 1).
  { intros i slot Hi Hslot.
    destruct (lookup_lt_is_Some_2 ts (k - 1 - i)) as [t' Ht']; [lia|].
    pose proof (Hload1 _ _ Ht') as Hl1.
    replace (k - 1 - (k - 1 - i))%nat with i in Hl1 by lia.
    rewrite Hl1 in Hslot. injection Hslot as <-. simpl. lia. }
  destruct (LRU_Replace.victim_spec s1) as (j & slot & Hv & Hj & Hslot & Hmax & _).
  { by rewrite Hlast1. }
  { rewrite Hact1, Hlen1. lia. }
  { intros i slot Hi Hslot. rewrite Hact1 in Hi. rewrite (Hslots i slot Hi Hslot). lia. }
  rewrite Hact1 in Hj, Hmax.
  assert (Hjv : j = (k - 1)%nat).
  { destruct (lookup_lt_is_Some_2 (_tags s1) (k - 1)) as [top Htop]; [lia|].
    pose proof (Hmax (k - 1)%nat top ltac:(lia) Htop) as Hle.
    assert (Hk1 : (k - 1 < k)%nat) by lia.
    rewrite (Hslots _ _ Hk1 Htop), (Hslots _ _ Hj Hslot) in Hle. lia. }
  split; [done|]. split; [by rewrite Hv, Hjv|]. split.
  - pose proof (Hload _ _ Ht0) as Hl0.
    replace (k - 1 - 0)%nat with (k - 1)%nat in Hl0 by lia.
    by rewrite Hl0, Ht0.
  - unfold LRU_load. rewrite Hmiss. fold s1. unfold Replace. rewrite Hv, Nat2Z.id, Hjv.
    simpl. rewrite list_lookup_insert_eq by lia. done.
Qed.

(** The invariant along a sequence of loads of distinct new values. *)
Lemma cold_run k ts acc s :
  cold_inv k acc s -> NoDup (acc ++ ts) -> 0 ∉ ts -> Z.of_nat k < 2 ^ 31 ->
  (length (acc ++ ts) <= k)%nat ->
  cold_inv k (acc ++ ts) (foldl (fun s t => LRU_load t s) s ts).
Proof.
  revert acc s. induction ts as [|t ts IH]; intros acc s Hinv Hnd Hnz Hk Hlen; simpl.
  - by rewrite app_nil_r.
  - rewrite length_app in Hlen. simpl in Hlen.
    apply NoDup_app in Hnd as (Hacc & Hdisj & Hts).
    apply NoDup_cons in Hts as [Ht Hts].
    assert (Hnew : t ∉ acc).
    { intros Hin. apply (Hdisj t Hin). by left. }
    assert (Hnz' : t <> 0).
    { intros ->. apply Hnz. by left. }
    destruct (cold_step k acc s t Hinv Hnew Hnz' Hk ltac:(lia)) as [_ Hinv'].
    replace (acc ++ t :: ts) with ((acc ++ [t]) ++ ts) by (by rewrite <- app_assoc).
    apply IH; try done.
    + rewrite <- app_assoc. simpl. apply NoDup_app. split; [done|]. split.
      * intros x Hx. by apply Hdisj.
      * by apply NoDup_cons.
    + intros Hin. apply Hnz. by right.
    + rewrite !length_app. simpl. lia.
Qed.

End LRU_cold.

(** A load through the cache does this to its set, whatever the store
    policy. *)
Lemma set_after_load MAX STORE_ALLOCATION t s :
  @set_after _ (LRU_OPS MAX) STORE_ALLOCATION (CACHE_TAG_ctor t) ACCESS_TYPE_LOAD s
  = LRU_load t s.
Proof.
  unfold set_after, LRU_load, allocates. simpl.
  by destruct (fst (CACHE_SET.LRU.Find (CACHE_TAG_ctor t) s)).
Qed.

(** In a set whose active slots all hold the same recency, the selected slot
    is the last active one. *)
Lemma LRU_victim_tie (s : CACHE_SET.LRU.t) (j : nat) (slot : CACHE_TAG) :
  (j < CACHE_SET.LRU.active s <= length (CACHE_SET.LRU._tags s))%nat ->
  CACHE_SET.LRU._tags s !! j = Some slot ->
  (forall i slot', (j < i < CACHE_SET.LRU.active s)%nat ->
     CACHE_SET.LRU._tags s !! i = Some slot' -> LRU slot' < LRU slot) ->
  (forall i slot', (i < CACHE_SET.LRU.active s)%nat ->
     CACHE_SET.LRU._tags s !! i = Some slot' -> LRU slot' = LRU slot) ->
  j = (CACHE_SET.LRU.active s - 1)%nat.
Proof.
  intros [Hj Hlen] Hslot Habove Htie.
  destruct (decide (j = CACHE_SET.LRU.active s - 1)%nat) as [|Hne]; [done|].
  exfalso.
  destruct (lookup_lt_is_Some_2 (CACHE_SET.LRU._tags s) (CACHE_SET.LRU.active s - 1))
    as [slot' Hslot']; [lia|].
  assert (LRU slot' < LRU slot) by (eapply Habove; [|done]; lia).
  assert (LRU slot' = LRU slot) by (eapply Htie; [|done]; lia).
  lia.
Qed.

(** C4, as the code has it.  [Replace] installs the tag, with recency 0, in an
    active slot of maximal recency; among several slots of maximal recency it
    takes the one of HIGHEST index (the scan runs from the last active slot
    down and moves on a strictly greater recency only), so when all active
    recencies are equal it takes the last active slot.  No other slot
    changes.  In particular, on a fresh set of associativity [k] the tag goes
    to slot [k - 1], also when a missing [Find] came first; the loads of [k]
    distinct new tag values fill the slots [k - 1], ..., [0] in this order,
    and the load of one more evicts slot [k - 1], the one filled first. *)
Theorem LRU_Replace_highest_maximum :
  (forall (tag : CACHE_TAG) (s : CACHE_SET.LRU.t),
      is_UINT32 (CACHE_SET.LRU._tagsLastIndex s) ->
      (1 <= CACHE_SET.LRU.active s <= length (CACHE_SET.LRU._tags s))%nat ->
      (forall i slot, (i < CACHE_SET.LRU.active s)%nat ->
         CACHE_SET.LRU._tags s !! i = Some slot -> 0 <= LRU slot) ->
      exists j slot,
        CACHE_SET.LRU.victim s = Z.of_nat j /\
        (j < CACHE_SET.LRU.active s)%nat /\
        CACHE_SET.LRU._tags s !! j = Some slot /\
        (forall i slot', (i < CACHE_SET.LRU.active s)%nat ->
           CACHE_SET.LRU._tags s !! i = Some slot' -> LRU slot' <= LRU slot) /\
        (forall i slot', (j < i < CACHE_SET.LRU.active s)%nat ->
           CACHE_SET.LRU._tags s !! i = Some slot' -> LRU slot' < LRU slot) /\
        ((forall i slot', (i < CACHE_SET.LRU.active s)%nat ->
            CACHE_SET.LRU._tags s !! i = Some slot' -> LRU slot' = LRU slot) ->
         j = (CACHE_SET.LRU.active s - 1)%nat) /\
        CACHE_SET.LRU._tags (CACHE_SET.LRU.Replace tag s) !! j
          = Some {| _tag := _tag tag; dirty := dirty tag; LRU := 0 |} /\
        (forall i, i <> j ->
           CACHE_SET.LRU._tags (CACHE_SET.LRU.Replace tag s) !! i
           = CACHE_SET.LRU._tags s !! i) /\
        CACHE_SET.LRU._tagsLastIndex (CACHE_SET.LRU.Replace tag s)
          = CACHE_SET.LRU._tagsLastIndex s) /\
  (forall (MAX k : Z) (tag : CACHE_TAG) (s : CACHE_SET.LRU.t),
      1 <= k <= MAX -> MAX <= 2 ^ 31 ->
      CACHE_SET.LRU.SetAssociativity MAX k (CACHE_SET.LRU.default MAX) = Some s ->
      CACHE_SET.LRU.victim s = k - 1 /\
      (_tag tag <> 0 ->
       fst (CACHE_SET.LRU.Find tag s) = false /\
       CACHE_SET.LRU.victim (snd (CACHE_SET.LRU.Find tag s)) = k - 1)) /\
  (forall (MAX k : Z) (ts : list Z) (t : Z) (s0 : CACHE_SET.LRU.t),
      1 <= k <= MAX -> MAX < 2 ^ 31 ->
      CACHE_SET.LRU.SetAssociativity MAX k (CACHE_SET.LRU.default MAX) = Some s0 ->
      NoDup (ts ++ [t]) -> 0 ∉ ts ++ [t] -> Z.of_nat (length ts) = k ->
      let s := foldl (fun s t' => LRU_load t' s) s0 ts in
      (forall j t', ts !! j = Some t' ->
         _tag <$> CACHE_SET.LRU._tags s !! (Z.to_nat k - 1 - j)%nat = Some t') /\
      fst (CACHE_SET.LRU.Find (CACHE_TAG_ctor t) s) = false /\
      CACHE_SET.LRU.victim (snd (CACHE_SET.LRU.Find (CACHE_TAG_ctor t) s)) = k - 1 /\
      _tag <$> CACHE_SET.LRU._tags (LRU_load t s) !! (Z.to_nat k - 1)%nat = Some t).
Proof.
  split; [|split].
  - intros tag s Hlast Hact Hnonneg.
    destruct (LRU_Replace.victim_spec s Hlast Hact Hnonneg)
      as (j & slot & Hv & Hj & Hslot & Hmax & Habove).
    exists j, slot. repeat split; try done; try lia.
    + intros Htie. apply (LRU_victim_tie s j slot); try done. lia.
    + unfold CACHE_SET.LRU.Replace. simpl. rewrite Hv, Nat2Z.id.
      apply list_lookup_insert_eq. lia.
    + intros i Hi. unfold CACHE_SET.LRU.Replace. simpl. rewrite Hv, Nat2Z.id.
      by apply list_lookup_insert_ne.
  - intros MAX k tag s Hk HM Hs.
    destruct (LRU_fresh.SetAssociativity_default MAX k s Hk HM Hs) as [-> Hact].
    set (s := {| CACHE_SET.LRU._tags := _; CACHE_SET.LRU._tagsLastIndex := _ |}) in *.
    assert (Hzero : forall i slot, CACHE_SET.LRU._tags s !! i = Some slot ->
                                   slot = CACHE_TAG_ctor 0).
    { intros i slot Hl. by apply lookup_replicate in Hl as [-> _]. }
    assert (Hlen : length (CACHE_SET.LRU._tags s) = Z.to_nat MAX)
      by (simpl; apply length_replicate).
    assert (Hlast : is_UINT32 (CACHE_SET.LRU._tagsLastIndex s))
      by (unfold is_UINT32; simpl; lia).
    split.
    + destruct (LRU_Replace.victim_spec s) as (j & slot & Hv & Hj & Hslot & _ & Habove).
      * done.
      * rewrite Hact, Hlen. lia.
      * intros i slot _ Hl. by rewrite (Hzero i slot Hl).
      * rewrite Hv. rewrite (LRU_victim_tie s j slot); try done.
        -- lia.
        -- rewrite Hact, Hlen. lia.
        -- intros i slot' _ Hl. by rewrite (Hzero i slot' Hl), (Hzero j slot Hslot).
    + intros Htag.
      assert (Hmiss : fst (CACHE_SET.LRU.Find tag s) = false).
      { apply not_true_is_false. intros Hhit.
        apply LRU_Find.Find_result in Hhit as (i & slot & _ & Hl & He).
        rewrite (Hzero i slot Hl) in He. simpl in He. congruence. }
      split; [done|].
      set (s1 := snd (CACHE_SET.LRU.Find tag s)).
      assert (Hact1 : CACHE_SET.LRU.active s1 = Z.to_nat k)
        by (unfold s1; by rewrite LRU_Find.Find_active).
      assert (Hone : forall i slot, (i < CACHE_SET.LRU.active s1)%nat ->
                 CACHE_SET.LRU._tags s1 !! i = Some slot -> LRU slot = 1).
      { intros i slot Hi. unfold s1.
        rewrite LRU_Find.Find_lookup_active by (rewrite Hact; lia).
        destruct (CACHE_SET.LRU._tags s !! i) as [slot0|] eqn:Hl; [|done].
        rewrite (Hzero i slot0 Hl). simpl. intros [= <-].
        unfold probe, CACHE_TAG_eqb.
        change (_tag (CACHE_TAG_ctor 0)) with 0.
        destruct (Z.eqb_spec 0 (_tag tag)); [congruence|done]. }
      destruct (LRU_Replace.victim_spec s1) as (j & slot & Hv & Hj & Hslot & _ & Habove).
      * unfold s1. by rewrite LRU_Find.Find_last.
      * rewrite Hact1. unfold s1. rewrite LRU_Find.Find_length, Hlen. lia.
      * intros i slot Hi Hl. rewrite (Hone i slot Hi Hl). lia.
      * rewrite Hv. rewrite (LRU_victim_tie s1 j slot); try done.
        -- lia.
        -- rewrite Hact1. unfold s1. rewrite LRU_Find.Find_length, Hlen. lia.
        -- intros i slot' Hi Hl. by rewrite (Hone i slot' Hi Hl), (Hone j slot Hj Hslot).
  - intros MAX k ts t s0 Hk HM Hs0 Hnd Hnz Hlen s.
    pose proof (LRU_cold.cold_inv_fresh MAX k s0 Hk ltac:(lia) Hs0) as Hinv0.
    assert (Hinv : cold_inv (Z.to_nat k) ts s).
    { apply (LRU_cold.cold_run (Z.to_nat k) ts [] s0 Hinv0); simpl.
      - by apply NoDup_app in Hnd as (Hts & _).
      - intros Hin. apply Hnz. apply elem_of_app. by left.
      - lia.
      - lia. }
    assert (Hnew : t ∉ ts).
    { intros Hin. apply NoDup_app in Hnd as (_ & Hdisj & _).
      apply (Hdisj t Hin). by left. }
    assert (Hnz' : t <> 0).
    { intros ->. apply Hnz. apply elem_of_app. right. by left. }
    destruct (LRU_cold.cold_full (Z.to_nat k) ts s t Hinv Hnew Hnz')
      as (Hmiss & Hv & _ & Hin); [lia..|].
    split.
    + intros j t' Ht'. destruct Hinv as (_ & _ & _ & _ & Hload).
      by rewrite (Hload j t' Ht').
    + split; [done|]. split; [rewrite Hv; lia|done].
Qed.

(** ** Bit utilities and the constructor of [CACHE_BASE] *)

Lemma land_mask_bounds (a m : Z) : 0 <= m -> 0 <= Z.land a m <= m.
Proof.
  intros Hm. apply Z.ldiff_le; [done|].
  apply Z.bits_inj'. intros n Hn.
  rewrite Z.ldiff_spec, Z.land_spec, Z.bits_0.
  destruct (Z.testbit a n), (Z.testbit m n); done.
Qed.

(** A value accepted by [IsPower2] is zero or a power of two. *)
Lemma IsPower2_inv (n : Z) :
  IsPower2 n = true -> 0 < n < 2 ^ 32 -> exists k, 0 <= k < 32 /\ n = 2 ^ k.
Proof.
  unfold IsPower2. intros Hland Hn. apply Z.eqb_eq in Hland.
  rewrite UINT32_of_small in Hland by (unfold is_UINT32; lia).
  exists (Z.log2 n).
  assert (Hk : 0 <= Z.log2 n) by apply Z.log2_nonneg.
  split.
  - split; [done|]. apply Z.log2_lt_pow2; lia.
  - destruct (Z.log2_spec n) as [Hlo Hhi]; [lia|].
    destruct (decide (n = 2 ^ Z.log2 n)) as [|Hne]; [done|]. exfalso.
    assert (Hlog : Z.log2 (n - 1) = Z.log2 n).
    { apply Z.log2_unique; [done|]. lia. }
    assert (Hbit : Z.testbit (Z.land n (n - 1)) (Z.log2 n) = true).
    { rewrite Z.land_spec, Z.bit_log2 by lia.
      rewrite <- Hlog. rewrite Z.bit_log2 by lia. done. }
    rewrite Hland, Z.bits_0 in Hbit. done.
Qed.

Lemma index_mask_inv (size lineSize associativity m : Z) :
  index_mask size lineSize associativity = Some m ->
  UINT32_of (associativity * lineSize) <> 0 /\
  m = UINT32_of (size / UINT32_of (associativity * lineSize) - 1).
Proof.
  unfold index_mask, udiv.
  destruct (Z.eqb_spec (UINT32_of (associativity * lineSize)) 0); simpl; [done|].
  by intros [= <-].
Qed.

(** What a successful construction establishes. *)
Lemma CACHE_BASE_ctor_inv name cs ls a l2cs l2ls l2a b :
  CACHE_BASE_ctor name cs ls a l2cs l2ls l2a = Some b ->
  _cacheSize b = cs /\ _lineSize b = ls /\ _associativity b = a /\
  _lineShift b = UINT32_of (FloorLog2 ls) /\
  index_mask cs ls a = Some (_setIndexMask b) /\
  IsPower2 ls = true /\ IsPower2 (NumSets b) = true /\
  _access b = STATS_zero /\ _l2_access b = STATS_zero.
Proof.
  unfold CACHE_BASE_ctor.
  destruct (index_mask cs ls a) as [m|]; simpl; [|done].
  destruct (index_mask l2cs l2ls l2a) as [m2|]; simpl; [|done].
  destruct (IsPower2 ls) eqn:Hls; simpl; [|done].
  destruct (IsPower2 (UINT32_of (m + 1))) eqn:Hsets; [|done].
  intros [= <-]. unfold NumSets. simpl. done.
Qed.

Lemma CACHE_BASE_ctor_mask name cs ls a l2cs l2ls l2a b :
  CACHE_BASE_ctor name cs ls a l2cs l2ls l2a = Some b ->
  is_UINT32 (_setIndexMask b).
Proof.
  intros Hb. apply CACHE_BASE_ctor_inv in Hb as (_ & _ & _ & _ & Hm & _).
  apply index_mask_inv in Hm as [_ ->]. apply UINT32_of_range.
Qed.

(** The set count is the quotient the mask was derived from. *)
Lemma CACHE_BASE_ctor_NumSets name cs ls a l2cs l2ls l2a b :
  CACHE_BASE_ctor name cs ls a l2cs l2ls l2a = Some b ->
  is_UINT32 cs ->
  UINT32_of (a * ls) <> 0 /\ NumSets b = cs / UINT32_of (a * ls).
Proof.
  intros Hb Hcs. apply CACHE_BASE_ctor_inv in Hb as (_ & _ & _ & _ & Hm & _).
  apply index_mask_inv in Hm as [Hp Hm]. split; [done|].
  unfold NumSets. rewrite Hm. unfold UINT32_of in *.
  rewrite Z.add_mod_idemp_l by lia.
  replace (cs / ((a * ls) mod 2 ^ 32) - 1 + 1) with (cs / ((a * ls) mod 2 ^ 32)) by lia.
  assert (Hpos : 0 < (a * ls) mod 2 ^ 32).
  { pose proof (Z.mod_pos_bound (a * ls) (2 ^ 32)). lia. }
  apply Z.mod_small. unfold is_UINT32 in Hcs. split.
  - apply Z.div_pos; lia.
  - apply Z.le_lt_trans with cs; [|lia]. apply Z.div_le_upper_bound; nia.
Qed.

(** C8.  On every constructed cache and for every address, [SplitAddress]
    yields the tag [addr >> lineShift] and the set index [tag & setIndexMask],
    the mask applied to the shifted address.  For 32KB, 64-byte lines and
    associativity 4 the set count is 128, and the address 0x1000 has tag 0x40
    and set index 64 (masking the raw address would give 0). *)
Theorem SplitAddress_shift_then_mask :
  (forall name cs ls a l2cs l2ls l2a (b : CACHE_BASE) (addr : Z),
      CACHE_BASE_ctor name cs ls a l2cs l2ls l2a = Some b ->
      let tag := Z.shiftr addr (_lineShift b) in
      SplitAddress b addr 1 = (CACHE_TAG_ctor tag, Z.land tag (_setIndexMask b)) /\
      to_ADDRINT (fst (SplitAddress b addr 1)) = tag) /\
  (forall name l2cs l2ls l2a (b : CACHE_BASE),
      CACHE_BASE_ctor name (32 * KILO) 64 4 l2cs l2ls l2a = Some b ->
      NumSets b = 128 /\ _lineShift b = 6 /\ _setIndexMask b = 127 /\
      SplitAddress b 0x1000 1 = (CACHE_TAG_ctor 0x40, 64) /\
      Z.land 0x1000 (_setIndexMask b) = 0).
Proof.
  split.
  - intros name cs ls a l2cs l2ls l2a b addr Hb tag.
    pose proof (CACHE_BASE_ctor_mask _ _ _ _ _ _ _ _ Hb) as Hmask.
    unfold SplitAddress. simpl. split; [|done]. f_equal.
    fold tag. apply UINT32_of_small.
    pose proof (land_mask_bounds tag (_setIndexMask b)).
    unfold is_UINT32 in *. lia.
  - intros name l2cs l2ls l2a b Hb.
    apply CACHE_BASE_ctor_inv in Hb as (_ & _ & _ & Hshift & Hm & _).
    apply index_mask_inv in Hm as [_ Hm].
    assert (Hs : _lineShift b = 6) by (rewrite Hshift; reflexivity).
    assert (Hk : _setIndexMask b = 127) by (rewrite Hm; reflexivity).
    unfold NumSets, SplitAddress. simpl. rewrite Hs, Hk. done.
Qed.

(** C8 on the example: its construction succeeds, and the first part applies
    at its address. *)
Lemma SplitAddress_shift_then_mask_witness :
  exists b, CACHE_BASE_ctor "dl1" (32 * KILO) 64 4 (32 * KILO) 64 4 = Some b /\
    SplitAddress b 0x1000 1 = (CACHE_TAG_ctor 0x40, 64) /\
    SplitAddress b 0x1000 1
    = (CACHE_TAG_ctor (Z.shiftr 0x1000 (_lineShift b)),
       Z.land (Z.shiftr 0x1000 (_lineShift b)) (_setIndexMask b)).
Proof.
  eexists. split; [reflexivity|]. split.
  - apply (proj2 SplitAddress_shift_then_mask "dl1"%string (32 * KILO) 64 4).
    reflexivity.
  - apply (proj1 SplitAddress_shift_then_mask "dl1"%string
             (32 * KILO) 64 4 (32 * KILO) 64 4).
    reflexivity.
Defined.

(** ** The laws of the two set classes *)

Lemma DIRECT_MAPPED_Find_hit tag s :
  fst (CACHE_SET.DIRECT_MAPPED.Find tag s) = true <->
  to_ADDRINT tag ∈ [to_ADDRINT (CACHE_SET.DIRECT_MAPPED._tag s)].
Proof.
  unfold CACHE_SET.DIRECT_MAPPED.Find, CACHE_TAG_eqb, to_ADDRINT. simpl.
  rewrite list_elem_of_singleton, Z.eqb_eq. split; congruence.
Qed.

Lemma DIRECT_MAPPED_configured k s :
  1 <= k ->
  CACHE_SET.DIRECT_MAPPED.SetAssociativity k CACHE_SET.DIRECT_MAPPED.default = Some s ->
  0 ∈ [to_ADDRINT (CACHE_SET.DIRECT_MAPPED._tag s)].
Proof.
  intros _. unfold CACHE_SET.DIRECT_MAPPED.SetAssociativity.
  destruct (k =? 1); [|done]. intros [= <-]. by apply list_elem_of_singleton.
Qed.

Lemma DIRECT_MAPPED_LAWS : SET_LAWS CACHE_SET.DIRECT_MAPPED.t.
Proof.
  split.
  - exact DIRECT_MAPPED_Find_hit.
  - done.
  - apply list_elem_of_singleton. done.
  - exact DIRECT_MAPPED_configured.
Qed.

(** [Find] changes recencies only: every slot keeps its tag value. *)
Lemma LRU_Find_tag_values tag s :
  _tag <$> CACHE_SET.LRU._tags (snd (CACHE_SET.LRU.Find tag s))
  = _tag <$> CACHE_SET.LRU._tags s.
Proof.
  apply list_eq. intros i. rewrite !list_lookup_fmap.
  destruct (decide (i < CACHE_SET.LRU.active s)%nat) as [Hlt|Hge].
  - rewrite LRU_Find.Find_lookup_active by done.
    destruct (CACHE_SET.LRU._tags s !! i) as [slot|]; [|done].
    simpl. by rewrite LRU_Find.probe_tag.
  - rewrite LRU_Find.Find_lookup_inactive by lia. done.
Qed.

Lemma LRU_Find_hit tag s :
  fst (CACHE_SET.LRU.Find tag s) = true <-> to_ADDRINT tag ∈ LRU_resident s.
Proof.
  rewrite LRU_Find.Find_result. unfold LRU_resident.
  rewrite list_elem_of_fmap. split.
  - intros (i & slot & Hi & Hl & He). exists slot. split; [done|].
    apply list_elem_of_lookup. exists i. by rewrite lookup_take_lt.
  - intros (slot & He & Hin). apply list_elem_of_lookup in Hin as [i Hl].
    rewrite lookup_take in Hl. case_decide; [|done].
    exists i, slot. done.
Qed.

Lemma LRU_Find_resident tag s :
  LRU_resident (snd (CACHE_SET.LRU.Find tag s)) = LRU_resident s.
Proof.
  unfold LRU_resident. rewrite LRU_Find.Find_active, !fmap_take.
  f_equal. apply LRU_Find_tag_values.
Qed.

Lemma LRU_zero_resident (n MAX : nat) (last : Z) :
  (1 <= n <= MAX)%nat -> Z.to_nat (INT32_of last + 1) = n ->
  0 ∈ LRU_resident {| CACHE_SET.LRU._tags := replicate MAX (CACHE_TAG_ctor 0);
                      CACHE_SET.LRU._tagsLastIndex := last |}.
Proof.
  intros Hn Hact. unfold LRU_resident, CACHE_SET.LRU.active. simpl. rewrite Hact.
  apply list_elem_of_fmap. exists (CACHE_TAG_ctor 0). split; [done|].
  rewrite take_replicate, elem_of_replicate. split; [done|lia].
Qed.

Lemma LRU_default_resident (MAX : Z) :
  1 <= MAX <= 2 ^ 31 -> 0 ∈ LRU_resident (CACHE_SET.LRU.default MAX).
Proof.
  intros HMAX. unfold CACHE_SET.LRU.default.
  apply (LRU_zero_resident (Z.to_nat MAX)); [lia|].
  rewrite UINT32_of_small by (unfold is_UINT32; lia).
  rewrite INT32_of_small by lia. lia.
Qed.

Lemma LRU_configured_resident (MAX : Z) (k : Z) (s : CACHE_SET.LRU.t) :
  1 <= MAX <= 2 ^ 31 -> 1 <= k ->
  CACHE_SET.LRU.SetAssociativity MAX k (CACHE_SET.LRU.default MAX) = Some s ->
  0 ∈ LRU_resident s.
Proof.
  intros HMAX Hk Hs. unfold CACHE_SET.LRU.SetAssociativity in Hs.
  destruct (Z.leb_spec k MAX); [|done]. injection Hs as <-. simpl.
  apply (LRU_zero_resident (Z.to_nat k)); [lia|].
  rewrite UINT32_of_small by (unfold is_UINT32; lia).
  rewrite INT32_of_small by lia. lia.
Qed.

(** The laws hold of [LRU<MAX_ASSOCIATIVITY>] for every array size that is
    positive and whose last index fits an [INT32]. *)
Lemma LRU_LAWS (MAX_ASSOCIATIVITY : Z) :
  1 <= MAX_ASSOCIATIVITY <= 2 ^ 31 ->
  @SET_LAWS CACHE_SET.LRU.t (LRU_OPS MAX_ASSOCIATIVITY) LRU_VIEW.
Proof.
  intros HMAX. split.
  - exact LRU_Find_hit.
  - exact LRU_Find_resident.
  - exact (LRU_default_resident MAX_ASSOCIATIVITY HMAX).
  - exact (fun k s => LRU_configured_resident MAX_ASSOCIATIVITY k s HMAX).
Qed.

(** ** The cache: single-line accesses *)

Lemma ACCESS_TYPE_eqb_eq a b : ACCESS_TYPE_eqb a b = true <-> a = b.
Proof. destruct a, b; simpl; split; congruence. Qed.

Lemma count_type_nonneg t accs : 0 <= count_type t accs.
Proof.
  induction accs as [|[addr t'] rest IH]; simpl; [lia|].
  destruct (ACCESS_TYPE_eqb t' t); lia.
Qed.

Lemma STATS_incr_same a t hit :
  STATS_get (STATS_incr a t hit) t hit = UINT64_of (STATS_get a t hit + 1).
Proof. destruct t, hit; done. Qed.

Lemma STATS_incr_other a t hit t' hit' :
  (t', hit') <> (t, hit) ->
  STATS_get (STATS_incr a t hit) t' hit' = STATS_get a t' hit'.
Proof. destruct t, t', hit, hit'; simpl; congruence. Qed.

Lemma count_access_geometry b t hit : same_geometry b (count_access b t hit).
Proof. unfold same_geometry. simpl. repeat split. Qed.

Lemma same_geometry_trans b1 b2 b3 :
  same_geometry b1 b2 -> same_geometry b2 b3 -> same_geometry b1 b3.
Proof. unfold same_geometry. intuition congruence. Qed.

Lemma same_geometry_refl b : same_geometry b b.
Proof. unfold same_geometry. repeat split. Qed.

Lemma same_geometry_SplitAddress b b' addr level :
  same_geometry b b' -> SplitAddress b' addr level = SplitAddress b addr level.
Proof.
  unfold same_geometry, SplitAddress.
  intros (_ & _ & _ & _ & _ & _ & _ & -> & -> & -> & ->). done.
Qed.

Section CACHE_properties.

Context {SET : Type} {ops : SET_OPS SET}.
Variable MAX_SETS : Z.
Variable STORE_ALLOCATION : CACHE_ALLOC.STORE_ALLOCATION.

Lemma AccessSingleLine_eq c addr t :
  AccessSingleLine STORE_ALLOCATION c addr t =
    match _sets c !! index_of c addr with
    | Some set =>
        Some (fst (Find (tag_of c addr) set),
              {| base := count_access (base c) t (fst (Find (tag_of c addr) set));
                 _sets := <[index_of c addr := set_after STORE_ALLOCATION (tag_of c addr) t set]> (_sets c);
                 _l2_sets := _l2_sets c |})
    | None => None
    end.
Proof.
  unfold AccessSingleLine, index_of, tag_of, set_after, SplitAddress. simpl.
  destruct (_sets c !! _) as [set|]; simpl; [|done].
  by destruct (Find _ set) as [hit set'].
Qed.

Lemma AccessSingleLine_geometry c addr t r :
  AccessSingleLine STORE_ALLOCATION c addr t = Some r ->
  same_geometry (base c) (base (snd r)) /\
  length (_sets (snd r)) = length (_sets c) /\
  _l2_sets (snd r) = _l2_sets c /\
  _l2_access (base (snd r)) = _l2_access (base c).
Proof.
  rewrite AccessSingleLine_eq. destruct (_sets c !! _) as [set|]; [|done].
  intros [= <-]. simpl. split; [apply count_access_geometry|].
  by rewrite length_insert.
Qed.

Lemma AccessSingleLine_index c addr t r addr' :
  AccessSingleLine STORE_ALLOCATION c addr t = Some r ->
  index_of (snd r) addr' = index_of c addr' /\ tag_of (snd r) addr' = tag_of c addr'.
Proof.
  intros Hr. apply AccessSingleLine_geometry in Hr as [Hg _].
  unfold index_of, tag_of. by rewrite (same_geometry_SplitAddress _ _ _ _ Hg).
Qed.

Lemma index_of_bound (c : CACHE SET) addr :
  is_UINT32 (_setIndexMask (base c)) ->
  (index_of c addr <= Z.to_nat (_setIndexMask (base c)))%nat.
Proof.
  intros Hm. unfold index_of, SplitAddress. simpl.
  pose proof (land_mask_bounds (Z.shiftr addr (_lineShift (base c)))
                (_setIndexMask (base c))) as Hb.
  unfold is_UINT32 in Hm.
  rewrite UINT32_of_small by (unfold is_UINT32; lia). lia.
Qed.

(** On such a cache every single-line access returns. *)
Lemma AccessSingleLine_total c addr t :
  cache_wf c ->
  exists r, AccessSingleLine STORE_ALLOCATION c addr t = Some r /\ cache_wf (snd r).
Proof.
  intros [Hm Hlen]. pose proof (index_of_bound c addr Hm) as Hidx.
  destruct (lookup_lt_is_Some_2 (_sets c) (index_of c addr)) as [set Hset]; [lia|].
  rewrite AccessSingleLine_eq, Hset. eexists. split; [done|].
  unfold cache_wf. simpl. by rewrite length_insert.
Qed.

Lemma run_total accs c :
  cache_wf c -> exists c', run STORE_ALLOCATION accs c = Some c' /\ cache_wf c'.
Proof.
  revert c. induction accs as [|[addr t] rest IH]; intros c Hwf; simpl.
  - by exists c.
  - destruct (AccessSingleLine_total c addr t Hwf) as (r & -> & Hwf'). simpl.
    by apply IH.
Qed.

Lemma run_geometry accs c c' :
  run STORE_ALLOCATION accs c = Some c' ->
  same_geometry (base c) (base c') /\ length (_sets c') = length (_sets c).
Proof.
  revert c. induction accs as [|[addr t] rest IH]; intros c; simpl.
  - intros [= <-]. split; [apply same_geometry_refl|done].
  - destruct (AccessSingleLine _ c addr t) as [r|] eqn:Hr; simpl; [|done].
    intros Hrest. apply IH in Hrest as [Hg Hl].
    apply AccessSingleLine_geometry in Hr as (Hg' & Hl' & _).
    split; [by eapply same_geometry_trans|congruence].
Qed.

(** *** Counters *)

Lemma AccessSingleLine_counters c addr t r :
  AccessSingleLine STORE_ALLOCATION c addr t = Some r ->
  STATS_get (_access (base (snd r))) t (fst r)
    = UINT64_of (STATS_get (_access (base c)) t (fst r) + 1) /\
  (forall t' hit', (t', hit') <> (t, fst r) ->
     STATS_get (_access (base (snd r))) t' hit' = STATS_get (_access (base c)) t' hit').
Proof.
  rewrite AccessSingleLine_eq. destruct (_sets c !! _) as [set|]; [|done].
  intros [= <-]. simpl. split.
  - apply STATS_incr_same.
  - intros t' hit'. apply STATS_incr_other.
Qed.

Lemma AccessSingleLine_counted c addr t r t' n :
  AccessSingleLine STORE_ALLOCATION c addr t = Some r ->
  counted c t' n -> n + (if ACCESS_TYPE_eqb t t' then 1 else 0) < 2 ^ 64 ->
  counted (snd r) t' (n + (if ACCESS_TYPE_eqb t t' then 1 else 0)).
Proof.
  intros Hr (Hh & Hm & Hsum) Hn.
  apply AccessSingleLine_counters in Hr as [Hsame Hother].
  unfold counted, Hits_of, Misses_of in *.
  destruct (ACCESS_TYPE_eqb t t') eqn:Heq.
  - apply ACCESS_TYPE_eqb_eq in Heq as <-.
    destruct (fst r) eqn:Hhit.
    + rewrite Hsame, (Hother t false) by congruence.
      rewrite UINT64_of_small by lia. lia.
    + rewrite Hsame, (Hother t true) by congruence.
      rewrite UINT64_of_small by lia. lia.
  - assert (t <> t').
    { intros ->. destruct t'; simpl in Heq; done. }
    rewrite !Hother by congruence. lia.
Qed.

Lemma run_counted accs c c' t n :
  run STORE_ALLOCATION accs c = Some c' ->
  counted c t n -> n + count_type t accs < 2 ^ 64 ->
  counted c' t (n + count_type t accs).
Proof.
  revert c n. induction accs as [|[addr t'] rest IH]; intros c n; simpl.
  - intros [= <-] Hc _. by rewrite Z.add_0_r.
  - destruct (AccessSingleLine _ c addr t') as [r|] eqn:Hr; simpl; [|done].
    intros Hrest Hc Hn. pose proof (count_type_nonneg t rest).
    rewrite Z.add_assoc. apply (IH (snd r)); [done| |lia].
    eapply AccessSingleLine_counted; [done..|].
    destruct (ACCESS_TYPE_eqb t' t); lia.
Qed.

End CACHE_properties.

(** ** The cache: construction *)

Section CACHE_construction.

Context {SET : Type} {ops : SET_OPS SET}.
Variable MAX_SETS : Z.

Lemma configure_sets_length n k (sets sets' : list SET) :
  configure_sets n k sets = Some sets' -> length sets' = length sets.
Proof.
  revert sets sets'. induction n as [|n IH]; intros sets sets'; simpl.
  - by intros [= <-].
  - destruct sets as [|s rest]; [done|].
    destruct (SetAssociativity k s) as [s'|]; simpl; [|done].
    destruct (configure_sets n k rest) as [rest'|] eqn:Hrest; simpl; [|done].
    intros [= <-]. simpl. f_equal. by apply IH.
Qed.

(** Each of the first [n] sets is the configured one; the others are left
    as they were. *)
Lemma configure_sets_lookup n k (sets sets' : list SET) i s :
  configure_sets n k sets = Some sets' -> sets !! i = Some s ->
  exists s', sets' !! i = Some s' /\
    ((i < n)%nat -> SetAssociativity k s = Some s') /\
    ((n <= i)%nat -> s' = s).
Proof.
  revert sets sets' i. induction n as [|n IH]; intros sets sets' i; simpl.
  - intros [= <-] Hs. exists s. split; [done|]. split; [lia|done].
  - destruct sets as [|s0 rest]; [done|].
    destruct (SetAssociativity k s0) as [s0'|] eqn:Hs0; simpl; [|done].
    destruct (configure_sets n k rest) as [rest'|] eqn:Hrest; simpl; [|done].
    intros [= <-]. destruct i as [|i]; simpl.
    + intros [= <-]. exists s0'. split; [done|]. split; [done|lia].
    + intros Hs. destruct (IH rest rest' i Hrest Hs) as (s' & Hl & Hlt & Hge).
      exists s'. split; [done|]. split; intros Hi; [apply Hlt|apply Hge]; lia.
Qed.

Lemma CACHE_ctor_inv name cs ls a l2cs l2ls l2a (c : CACHE SET) :
  CACHE_ctor MAX_SETS name cs ls a l2cs l2ls l2a = Some c ->
  CACHE_BASE_ctor name cs ls a l2cs l2ls l2a = Some (base c) /\
  NumSets (base c) <= MAX_SETS /\
  configure_sets (Z.to_nat (NumSets (base c))) a
    (replicate (Z.to_nat MAX_SETS) SET_default) = Some (_sets c).
Proof.
  unfold CACHE_ctor.
  destruct (CACHE_BASE_ctor name cs ls a l2cs l2ls l2a) as [b|]; simpl; [|done].
  destruct (Z.leb_spec (NumSets b) MAX_SETS); [|done].
  destruct (configure_sets (Z.to_nat (NumSets b)) a _) as [sets|] eqn:Hsets;
    simpl; [|done].
  destruct (configure_sets (Z.to_nat (l2_NumSets b)) l2a _) as [sets2|]; simpl; [|done].
  by intros [= <-].
Qed.

Lemma CACHE_ctor_length name cs ls a l2cs l2ls l2a (c : CACHE SET) :
  CACHE_ctor MAX_SETS name cs ls a l2cs l2ls l2a = Some c ->
  length (_sets c) = Z.to_nat MAX_SETS.
Proof.
  intros Hc. apply CACHE_ctor_inv in Hc as (_ & _ & Hsets).
  apply configure_sets_length in Hsets. by rewrite length_replicate in Hsets.
Qed.

(** A constructed cache with at least one set keeps every set index inside
    the array. *)
Lemma CACHE_ctor_wf name cs ls a l2cs l2ls l2a (c : CACHE SET) :
  CACHE_ctor MAX_SETS name cs ls a l2cs l2ls l2a = Some c ->
  1 <= NumSets (base c) -> cache_wf c.
Proof.
  intros Hc Hn. pose proof (CACHE_ctor_length _ _ _ _ _ _ _ _ Hc) as Hlen.
  apply CACHE_ctor_inv in Hc as (Hb & Hmax & _).
  pose proof (CACHE_BASE_ctor_mask _ _ _ _ _ _ _ _ Hb) as Hmask.
  split; [done|]. rewrite Hlen. unfold NumSets, UINT32_of, is_UINT32 in *.
  destruct (decide (_setIndexMask (base c) = 2 ^ 32 - 1)) as [Heq|Hne].
  - rewrite Heq in Hn. change ((2 ^ 32 - 1 + 1) mod 2 ^ 32) with 0 in Hn. lia.
  - rewrite Z.mod_small in Hmax by lia. lia.
Qed.

Lemma CACHE_ctor_counters name cs ls a l2cs l2ls l2a (c : CACHE SET) t :
  CACHE_ctor MAX_SETS name cs ls a l2cs l2ls l2a = Some c -> counted c t 0.
Proof.
  intros Hc. apply CACHE_ctor_inv in Hc as (Hb & _).
  apply CACHE_BASE_ctor_inv in Hb as (_ & _ & _ & _ & _ & _ & _ & Hacc & _).
  unfold counted, Hits_of, Misses_of. rewrite Hacc. by destruct t.
Qed.

(** The associativity of a constructed cache is not zero: the constructor
    divides by its product with the line size. *)
Lemma CACHE_ctor_associativity name cs ls a l2cs l2ls l2a (c : CACHE SET) :
  CACHE_ctor MAX_SETS name cs ls a l2cs l2ls l2a = Some c -> a <> 0.
Proof.
  intros Hc. apply CACHE_ctor_inv in Hc as (Hb & _).
  apply CACHE_BASE_ctor_inv in Hb as (_ & _ & _ & _ & Hm & _).
  apply index_mask_inv in Hm as [Hp _]. intros ->. by apply Hp.
Qed.

End CACHE_construction.

(** C7.  On a cache whose set indices stay inside [_sets], every call of
    [AccessSingleLine] returns, and adds one (on [UINT64]) to the counter of
    its access type and of its result; every other counter, and the
    second-level array, is as before.  After any sequence of single-line
    accesses on a constructed cache with at least one set, the hits and the
    misses of each type add up to the number of accesses of the type, and
    [Accesses(t)] returns it (the number being below 2^64). *)
Theorem AccessSingleLine_counts_once {SET : Type} {ops : SET_OPS SET}
    (MAX_SETS : Z) (STORE_ALLOCATION : CACHE_ALLOC.STORE_ALLOCATION) :
  (forall (c : CACHE SET) addr t,
      cache_wf c ->
      exists hit c',
        AccessSingleLine STORE_ALLOCATION c addr t = Some (hit, c') /\
        cache_wf c' /\
        STATS_get (_access (base c')) t hit
          = UINT64_of (STATS_get (_access (base c)) t hit + 1) /\
        (0 <= STATS_get (_access (base c)) t hit < 2 ^ 64 - 1 ->
         STATS_get (_access (base c')) t hit = STATS_get (_access (base c)) t hit + 1) /\
        (forall t' hit', (t', hit') <> (t, hit) ->
           STATS_get (_access (base c')) t' hit'
             = STATS_get (_access (base c)) t' hit') /\
        _l2_access (base c') = _l2_access (base c)) /\
  (forall name cs ls a l2cs l2ls l2a (c : CACHE SET) accs,
      CACHE_ctor MAX_SETS name cs ls a l2cs l2ls l2a = Some c ->
      1 <= NumSets (base c) ->
      exists c',
        run STORE_ALLOCATION accs c = Some c' /\
        forall t, count_type t accs < 2 ^ 64 ->
          Hits_of (base c') t + Misses_of (base c') t = count_type t accs /\
          Accesses_of (base c') t = count_type t accs).
Proof.
  split.
  - intros c addr t Hwf.
    destruct (AccessSingleLine_total STORE_ALLOCATION c addr t Hwf)
      as ([hit c'] & Hr & Hwf').
    exists hit, c'. split; [done|]. split; [done|].
    destruct (AccessSingleLine_counters _ _ _ _ _ Hr) as [Hsame Hother].
    destruct (AccessSingleLine_geometry _ _ _ _ _ Hr) as (_ & _ & _ & Hl2).
    simpl in *. repeat split; try done.
    intros Hrange. rewrite Hsame. apply UINT64_of_small. lia.
  - intros name cs ls a l2cs l2ls l2a c accs Hc Hn.
    pose proof (CACHE_ctor_wf _ _ _ _ _ _ _ _ _ Hc Hn) as Hwf.
    destruct (run_total STORE_ALLOCATION accs c Hwf) as (c' & Hrun & _).
    exists c'. split; [done|]. intros t Ht.
    pose proof (CACHE_ctor_counters _ _ _ _ _ _ _ _ _ t Hc) as H0.
    pose proof (run_counted _ _ _ _ t 0 Hrun H0 ltac:(lia)) as (Hh & Hm & Hsum).
    rewrite Z.add_0_l in Hsum. split; [done|].
    unfold Accesses_of. rewrite Hsum. apply UINT64_of_small.
    pose proof (count_type_nonneg t accs). lia.
Qed.

(** ** The cache: occupancy *)

Section CACHE_occupancy.

Context {SET : Type} {ops : SET_OPS SET} {view : SET_VIEW SET} {laws : SET_LAWS SET}.
Variable STORE_ALLOCATION : CACHE_ALLOC.STORE_ALLOCATION.

(** An access that does not replace in a set leaves its resident values. *)
Lemma AccessSingleLine_resident idx c addr t r s :
  AccessSingleLine STORE_ALLOCATION c addr t = Some r ->
  replaces_in STORE_ALLOCATION idx c addr t = false ->
  _sets c !! idx = Some s ->
  exists s', _sets (snd r) !! idx = Some s' /\ resident s' = resident s.
Proof.
  rewrite AccessSingleLine_eq. unfold replaces_in.
  destruct (_sets c !! index_of c addr) as [set|] eqn:Hset; [|done].
  intros [= <-] Hrep Hs. simpl.
  destruct (decide (index_of c addr = idx)) as [Heq|Hne].
  - rewrite Heq in *. rewrite Nat.eqb_refl, andb_true_r in Hrep.
    assert (set = s) by congruence. subst set.
    exists (set_after STORE_ALLOCATION (tag_of c addr) t s). split.
    + apply list_lookup_insert_eq. apply lookup_lt_is_Some. eauto.
    + unfold set_after. rewrite Hrep. apply Find_resident.
  - exists s. split; [|done]. by rewrite list_lookup_insert_ne.
Qed.

Lemma run_resident idx accs c c1 s :
  run STORE_ALLOCATION accs c = Some c1 ->
  no_replace_in STORE_ALLOCATION idx accs c = true ->
  _sets c !! idx = Some s ->
  exists s1, _sets c1 !! idx = Some s1 /\ resident s1 = resident s.
Proof.
  revert c s. induction accs as [|[addr t] rest IH]; intros c s; simpl.
  - intros [= <-] _ Hs. by exists s.
  - destruct (AccessSingleLine _ c addr t) as [r|] eqn:Hr; simpl; [|done].
    intros Hrun Hno Hs. apply andb_true_iff in Hno as [Hrep Hno].
    apply negb_true_iff in Hrep.
    destruct (AccessSingleLine_resident idx c addr t r s Hr Hrep Hs)
      as (s' & Hs' & Hres).
    destruct (IH (snd r) s' Hrun Hno Hs') as (s1 & Hs1 & Hres1).
    exists s1. split; [done|congruence].
Qed.

(** An access hits exactly when its tag value is resident in its set. *)
Lemma AccessSingleLine_hit c addr t s :
  _sets c !! index_of c addr = Some s ->
  exists c', AccessSingleLine STORE_ALLOCATION c addr t
             = Some (fst (Find (tag_of c addr) s), c').
Proof. intros Hs. rewrite AccessSingleLine_eq, Hs. by eexists. Qed.

Lemma zero_tag_index (c : CACHE SET) addr :
  to_ADDRINT (tag_of c addr) = 0 -> index_of c addr = O.
Proof.
  unfold tag_of, index_of, SplitAddress. simpl. unfold to_ADDRINT. simpl.
  intros ->. by rewrite Z.land_0_l.
Qed.

(** Set 0 of a constructed cache holds the value 0. *)
Lemma CACHE_ctor_set_0 MAX_SETS name cs ls a l2cs l2ls l2a (c : CACHE SET) :
  0 < MAX_SETS -> 0 <= a ->
  CACHE_ctor MAX_SETS name cs ls a l2cs l2ls l2a = Some c ->
  exists s0, _sets c !! O = Some s0 /\ 0 ∈ resident s0.
Proof.
  intros HM Ha Hc. pose proof (CACHE_ctor_associativity _ _ _ _ _ _ _ _ _ Hc) as Hnz.
  apply CACHE_ctor_inv in Hc as (_ & _ & Hsets).
  destruct (configure_sets_lookup _ _ _ _ O SET_default Hsets)
    as (s0 & Hs0 & Hlt & Hge).
  { apply lookup_replicate_2. lia. }
  exists s0. split; [done|].
  destruct (decide (0 < Z.to_nat (NumSets (base c)))%nat) as [Hpos|Hzero].
  - apply (configured_resident a); [lia|]. by apply Hlt.
  - rewrite Hge by lia. apply default_resident.
Qed.

End CACHE_occupancy.

(** C6.  Under [STORE_NO_ALLOCATE], a single-line store that misses leaves
    every set with the resident tag values it had (no tag is installed), and
    a load of the same address on the resulting cache misses as well. *)
Theorem store_no_allocate_miss_keeps_occupancy
    {SET : Type} {ops : SET_OPS SET} {view : SET_VIEW SET} {laws : SET_LAWS SET}
    (c c' : CACHE SET) (addr : Z) :
  AccessSingleLine CACHE_ALLOC.STORE_NO_ALLOCATE c addr ACCESS_TYPE_STORE
    = Some (false, c') ->
  length (_sets c') = length (_sets c) /\
  (forall i s, _sets c !! i = Some s ->
     exists s', _sets c' !! i = Some s' /\ resident s' = resident s) /\
  exists c'',
    AccessSingleLine CACHE_ALLOC.STORE_NO_ALLOCATE c' addr ACCESS_TYPE_LOAD
      = Some (false, c'').
Proof.
  intros Hr.
  pose proof (AccessSingleLine_geometry _ _ _ _ _ Hr) as (_ & Hlen & _).
  pose proof (AccessSingleLine_index _ _ _ _ _ addr Hr) as [Hidx Htag].
  simpl in Hlen, Hidx, Htag. split; [done|].
  assert (Hkeep : forall i s, _sets c !! i = Some s ->
            exists s', _sets c' !! i = Some s' /\ resident s' = resident s).
  { intros i s Hs.
    apply (AccessSingleLine_resident CACHE_ALLOC.STORE_NO_ALLOCATE i c addr
             ACCESS_TYPE_STORE (false, c') s Hr); [|done].
    unfold replaces_in. destruct (_sets c !! index_of c addr) as [set|]; [|done].
    unfold allocates. simpl. by rewrite andb_false_r. }
  split; [done|].
  rewrite AccessSingleLine_eq in Hr.
  destruct (_sets c !! index_of c addr) as [set|] eqn:Hset; [|done].
  injection Hr as Hmiss _.
  destruct (Hkeep _ _ Hset) as (set' & Hset' & Hres).
  rewrite <- Hidx in Hset'.
  destruct (AccessSingleLine_hit CACHE_ALLOC.STORE_NO_ALLOCATE c' addr
              ACCESS_TYPE_LOAD set' Hset') as [c'' Hc''].
  exists c''. rewrite Hc''. do 2 f_equal. rewrite Htag.
  apply not_true_is_false. intros Hhit.
  apply Find_hit in Hhit. rewrite Hres in Hhit. apply Find_hit in Hhit.
  congruence.
Qed.

(** C10.  On a freshly constructed cache (of a valid instantiation: the
    array of sets is not empty), an access to an address whose tag value is
    0 hits, whatever its type: set 0 holds the value 0 from its default
    tags.  It still hits after any sequence of accesses none of which runs
    [Replace] on set 0. *)
Theorem cold_zero_tag_hits
    {SET : Type} {ops : SET_OPS SET} {view : SET_VIEW SET} {laws : SET_LAWS SET}
    (MAX_SETS : Z) (STORE_ALLOCATION : CACHE_ALLOC.STORE_ALLOCATION)
    name cs ls a l2cs l2ls l2a (c : CACHE SET) (addr : Z) (t : ACCESS_TYPE) :
  0 < MAX_SETS -> 0 <= a ->
  CACHE_ctor MAX_SETS name cs ls a l2cs l2ls l2a = Some c ->
  to_ADDRINT (tag_of c addr) = 0 ->
  (exists c', AccessSingleLine STORE_ALLOCATION c addr t = Some (true, c')) /\
  (forall accs c1,
      run STORE_ALLOCATION accs c = Some c1 ->
      no_replace_in STORE_ALLOCATION O accs c = true ->
      exists c2, AccessSingleLine STORE_ALLOCATION c1 addr t = Some (true, c2)).
Proof.
  intros HM Ha Hc Htag.
  destruct (CACHE_ctor_set_0 MAX_SETS _ _ _ _ _ _ _ c HM Ha Hc) as (s0 & Hs0 & Hres).
  assert (Hpersist : forall accs c1,
      run STORE_ALLOCATION accs c = Some c1 ->
      no_replace_in STORE_ALLOCATION O accs c = true ->
      exists c2, AccessSingleLine STORE_ALLOCATION c1 addr t = Some (true, c2)).
  { intros accs c1 Hrun Hno.
    destruct (run_resident STORE_ALLOCATION O accs c c1 s0 Hrun Hno Hs0)
      as (s1 & Hs1 & Hres1).
    destruct (run_geometry _ _ _ _ Hrun) as [Hg _].
    assert (Htag1 : tag_of c1 addr = tag_of c addr).
    { unfold tag_of. by rewrite (same_geometry_SplitAddress _ _ _ _ Hg). }
    assert (Hidx1 : index_of c1 addr = O).
    { apply zero_tag_index. by rewrite Htag1. }
    rewrite <- Hidx1 in Hs1.
    destruct (AccessSingleLine_hit STORE_ALLOCATION c1 addr t s1 Hs1) as [c2 Hc2].
    exists c2. rewrite Hc2. do 2 f_equal.
    apply Find_hit. rewrite Htag1, Htag, Hres1. done. }
  split; [|done]. by apply (Hpersist [] c).
Qed.

(** C9, as the code has it.  When construction succeeds and, besides, the
    product of associativity and line size fits 32 bits and divides the
    total size, the total size is the product of set count, associativity and
    line size.  No access changes the geometry, so the equation holds in
    every later state; [Access] returns the object as it was. *)
Theorem geometry_product_when_divisible
    {SET : Type} {ops : SET_OPS SET}
    (MAX_SETS : Z) (STORE_ALLOCATION : CACHE_ALLOC.STORE_ALLOCATION)
    name cs ls a l2cs l2ls l2a (c : CACHE SET) :
  CACHE_ctor MAX_SETS name cs ls a l2cs l2ls l2a = Some c ->
  is_UINT32 cs -> 0 <= ls -> 0 <= a ->
  a * ls < 2 ^ 32 -> cs mod (a * ls) = 0 ->
  CacheSize (base c) = cs /\ LineSize (base c) = ls /\ Associativity (base c) = a /\
  CacheSize (base c) = NumSets (base c) * Associativity (base c) * LineSize (base c) /\
  (forall accs c',
      run STORE_ALLOCATION accs c = Some c' ->
      same_geometry (base c) (base c') /\
      CacheSize (base c')
        = NumSets (base c') * Associativity (base c') * LineSize (base c') /\
      forall fuel addr size t r,
        Access fuel c' addr size t = Some r -> snd r = c').
Proof.
  intros Hc Hcs Hls Ha Hfit Hdiv.
  apply CACHE_ctor_inv in Hc as (Hb & _).
  pose proof (CACHE_BASE_ctor_NumSets _ _ _ _ _ _ _ _ Hb Hcs) as [Hp Hn].
  pose proof (CACHE_BASE_ctor_inv _ _ _ _ _ _ _ _ Hb) as (Hcs' & Hls' & Ha' & _).
  rewrite UINT32_of_small in Hp, Hn by (unfold is_UINT32; nia).
  assert (Hprod : CacheSize (base c)
            = NumSets (base c) * Associativity (base c) * LineSize (base c)).
  { unfold CacheSize, Associativity, LineSize. rewrite Hcs', Hls', Ha', Hn.
    pose proof (Z.div_mod cs (a * ls) Hp) as Hdm. rewrite Hdiv in Hdm. lia. }
  split; [done|]. split; [done|]. split; [done|]. split; [done|].
  intros accs c' Hrun. apply run_geometry in Hrun as [Hg _].
  split; [done|]. split.
  - destruct Hg as (_ & Hg1 & Hg2 & Hg3 & _ & _ & _ & _ & Hg4 & _).
    unfold CacheSize, Associativity, LineSize, NumSets in *. congruence.
  - intros fuel addr size t r. unfold Access.
    destruct (Access_loop _ _ _ _ _ _); simpl; [|done]. by intros [= <-].
Qed.

(** ** The cache: [Access] *)

(** Clearing the offset bits: for a line size [2^k], [addr & ~(lineSize - 1)]
    is the start of the line of [addr]. *)
Lemma line_start (k addr : Z) :
  0 <= k < ADDRINT_BITS -> is_ADDRINT addr ->
  Z.land addr (ADDRINT_of (Z.lnot (ADDRINT_of (2 ^ k - 1)))) = 2 ^ k * (addr / 2 ^ k).
Proof.
  unfold is_ADDRINT, ADDRINT_BITS. intros Hk Haddr.
  assert (Hpow : 0 < 2 ^ k < 2 ^ 64).
  { split; [apply Z.pow_pos_nonneg; lia|apply Z.pow_lt_mono_r; lia]. }
  rewrite (ADDRINT_of_small (2 ^ k - 1)) by (unfold is_ADDRINT, ADDRINT_BITS; lia).
  unfold ADDRINT_of, ADDRINT_BITS.
  rewrite <- Z.land_ones by lia.
  rewrite (Z.land_comm (Z.lnot _)), Z.land_assoc, Z.land_ones by lia.
  rewrite Z.mod_small by lia.
  replace (2 ^ k - 1) with (Z.ones k) by (rewrite Z.ones_equiv; lia).
  rewrite <- Z.ldiff_land, Z.ldiff_ones_r by lia.
  rewrite Z.shiftl_mul_pow2, Z.shiftr_div_pow2 by lia. lia.
Qed.

Lemma Access_loop_step fuel addr highAddr lineSize allHit :
  Access_loop (S fuel) addr highAddr lineSize
    (ADDRINT_of (Z.lnot (ADDRINT_of (lineSize - 1)))) allHit =
  if next_line lineSize addr <? highAddr
  then Access_loop fuel (next_line lineSize addr) highAddr lineSize
         (ADDRINT_of (Z.lnot (ADDRINT_of (lineSize - 1)))) allHit
  else Some allHit.
Proof. simpl. unfold next_line. by rewrite andb_true_r. Qed.

(** Below the last line the loop moves forward, by at most one line. *)
Lemma next_line_forward (k addr : Z) :
  0 <= k < ADDRINT_BITS -> 0 <= addr < 2 ^ ADDRINT_BITS - 2 ^ k ->
  addr < next_line (2 ^ k) addr <= addr + 2 ^ k.
Proof.
  unfold ADDRINT_BITS. intros Hk Haddr. unfold next_line.
  rewrite line_start by (unfold is_ADDRINT, ADDRINT_BITS; lia).
  assert (Hpow : 0 < 2 ^ k) by (apply Z.pow_pos_nonneg; lia).
  pose proof (Z.mul_div_le addr (2 ^ k) Hpow).
  pose proof (Z.mul_succ_div_gt addr (2 ^ k) Hpow).
  rewrite ADDRINT_of_small by (unfold is_ADDRINT, ADDRINT_BITS; lia). lia.
Qed.

(** Every address the loop moves to is the start of a line. *)
Lemma next_line_aligned (k addr : Z) :
  0 <= k < ADDRINT_BITS -> is_ADDRINT addr ->
  0 <= next_line (2 ^ k) addr <= 2 ^ ADDRINT_BITS - 2 ^ k.
Proof.
  intros Hk Haddr. unfold next_line. rewrite line_start by done.
  unfold ADDRINT_of, ADDRINT_BITS in *.
  assert (Hpow : 0 < 2 ^ k) by (apply Z.pow_pos_nonneg; lia).
  assert (Hsplit : 2 ^ 64 = 2 ^ k * 2 ^ (64 - k)).
  { rewrite <- Z.pow_add_r by lia. f_equal. lia. }
  assert (Hq : 0 < 2 ^ (64 - k)) by (apply Z.pow_pos_nonneg; lia).
  replace (2 ^ k * (addr / 2 ^ k) + 2 ^ k) with (2 ^ k * (addr / 2 ^ k + 1)) by lia.
  rewrite Hsplit, Z.mul_mod_distr_l by lia.
  pose proof (Z.mod_pos_bound (addr / 2 ^ k + 1) (2 ^ (64 - k)) Hq). nia.
Qed.

Lemma Access_loop_below (k highAddr : Z) (allHit : bool) :
  0 <= k < ADDRINT_BITS -> highAddr <= 2 ^ ADDRINT_BITS - 2 ^ k ->
  forall fuel addr,
    0 <= addr < highAddr -> (Z.to_nat (highAddr - addr) <= fuel)%nat ->
    Access_loop fuel addr highAddr (2 ^ k)
      (ADDRINT_of (Z.lnot (ADDRINT_of (2 ^ k - 1)))) allHit = Some allHit.
Proof.
  intros Hk Hhigh. induction fuel as [|fuel IH]; intros addr Haddr Hfuel; [lia|].
  rewrite Access_loop_step.
  pose proof (next_line_forward k addr Hk ltac:(lia)) as Hnext.
  destruct (Z.ltb_spec (next_line (2 ^ k) addr) highAddr); [|done].
  apply IH; lia.
Qed.

(** When [highAddr] is not above the start of the last line, the loop ends. *)
Lemma Access_loop_returns (k highAddr addr : Z) (allHit : bool) (fuel : nat) :
  0 <= k < ADDRINT_BITS -> highAddr <= 2 ^ ADDRINT_BITS - 2 ^ k ->
  is_ADDRINT addr -> (Z.to_nat highAddr < fuel)%nat ->
  Access_loop fuel addr highAddr (2 ^ k)
    (ADDRINT_of (Z.lnot (ADDRINT_of (2 ^ k - 1)))) allHit = Some allHit.
Proof.
  intros Hk Hhigh Haddr Hfuel. destruct fuel as [|fuel]; [lia|].
  rewrite Access_loop_step.
  pose proof (next_line_aligned k addr Hk Haddr) as Hnext.
  destruct (Z.ltb_spec (next_line (2 ^ k) addr) highAddr); [|done].
  apply Access_loop_below; try done; lia.
Qed.

(** The addresses the loop holds are machine addresses, and from the first
    iteration on they are starts of lines: none is above the start of the
    last line. *)
Lemma Access_addr_range (k : Z) (n : nat) (addr : Z) :
  0 <= k < ADDRINT_BITS -> is_ADDRINT addr ->
  is_ADDRINT (Access_addr (2 ^ k) n addr) /\
  ((1 <= n)%nat -> Access_addr (2 ^ k) n addr <= 2 ^ ADDRINT_BITS - 2 ^ k).
Proof.
  intros Hk Haddr. induction n as [|n [IH _]].
  - split; [done|lia].
  - change (Access_addr (2 ^ k) (S n) addr)
      with (next_line (2 ^ k) (Access_addr (2 ^ k) n addr)).
    pose proof (next_line_aligned k _ Hk IH) as Hnext.
    assert (0 < 2 ^ k) by (apply Z.pow_pos_nonneg; lia).
    split; [unfold is_ADDRINT; lia|]. intros _. lia.
Qed.

Lemma Access_addr_next (lineSize : Z) (n : nat) (addr : Z) :
  Access_addr lineSize n (next_line lineSize addr) = Access_addr lineSize (S n) addr.
Proof. unfold Access_addr. by rewrite Nat.iter_succ_r. Qed.

(** The loop ends only on a test that fails. *)
Lemma Access_loop_exit fuel addr highAddr lineSize allHit r :
  Access_loop fuel addr highAddr lineSize
    (ADDRINT_of (Z.lnot (ADDRINT_of (lineSize - 1)))) allHit = Some r ->
  exists n, (1 <= n <= fuel)%nat /\ highAddr <= Access_addr lineSize n addr.
Proof.
  revert addr. induction fuel as [|fuel IH]; intros addr; [done|].
  rewrite Access_loop_step.
  destruct (Z.ltb_spec (next_line lineSize addr) highAddr) as [Hlt|Hge].
  - intros Hr. destruct (IH _ Hr) as (n & Hn & Hle).
    exists (S n). split; [lia|]. by rewrite <- Access_addr_next.
  - intros _. exists 1%nat. split; [lia|done].
Qed.

(** Whenever the loop ends, the result is the initial [allHit]. *)
Lemma Access_loop_result fuel addr highAddr lineSize notLineMask allHit r :
  Access_loop fuel addr highAddr lineSize notLineMask allHit = Some r -> r = allHit.
Proof.
  revert addr allHit. induction fuel as [|fuel IH]; intros addr allHit; simpl; [done|].
  rewrite andb_true_r. destruct (_ <? highAddr).
  - apply IH.
  - by intros [= <-].
Qed.

(** The line size of a constructed cache is a power of two. *)
Lemma CACHE_BASE_ctor_lineSize name cs ls a l2cs l2ls l2a b :
  CACHE_BASE_ctor name cs ls a l2cs l2ls l2a = Some b -> is_UINT32 ls ->
  IsPower2 (LineSize b) = true /\ 0 < LineSize b < 2 ^ 32.
Proof.
  intros Hb Hls.
  apply CACHE_BASE_ctor_inv in Hb as (_ & Hl & _ & _ & Hm & Hp & _).
  apply index_mask_inv in Hm as [Hnz _]. unfold LineSize. rewrite Hl.
  split; [done|]. unfold is_UINT32 in Hls.
  assert (ls <> 0); [|lia]. intros ->. by rewrite Z.mul_0_r in Hnz.
Qed.

(** C2, on the code.  On a cache whose line size is a power of two (every
    constructed cache), whenever [Access] returns it returns [true] and the
    object as it was: no counter and no set changes, whatever the cache
    holds.  It returns when the end address [(addr + size) mod 2^64] is not
    above [2^64 - lineSize], the start of the last line.  It returns only on a
    test [addr < highAddr] that fails; and when the end address is above the
    start of the last line, no test does: [addr = (addr & notLineMask) +
    lineSize] wraps from the last line to 0, every address the loop holds is
    the start of a line, and the test holds after every iteration.  The
    source then has no exit from the loop and, the loop having no side effect,
    no defined behaviour: the claim's result is not what the code delivers
    there. *)
Theorem Access_true_and_inert {SET : Type}
    (c : CACHE SET) (addr size : Z) (t : ACCESS_TYPE) :
  IsPower2 (LineSize (base c)) = true -> 0 < LineSize (base c) < 2 ^ 32 ->
  is_ADDRINT addr ->
  (forall fuel r, Access fuel c addr size t = Some r -> r = (true, c)) /\
  (ADDRINT_of (addr + size) <= 2 ^ ADDRINT_BITS - LineSize (base c) ->
   forall fuel, (Z.to_nat (ADDRINT_of (addr + size)) < fuel)%nat ->
     Access fuel c addr size t = Some (true, c)) /\
  (forall fuel r, Access fuel c addr size t = Some r ->
     exists n, (1 <= n <= fuel)%nat /\
       ADDRINT_of (addr + size) <= Access_addr (LineSize (base c)) n addr) /\
  (2 ^ ADDRINT_BITS - LineSize (base c) < ADDRINT_of (addr + size) ->
   forall n, (1 <= n)%nat ->
     Access_addr (LineSize (base c)) n addr < ADDRINT_of (addr + size)).
Proof.
  intros Hp Hls Haddr.
  destruct (IsPower2_inv _ Hp Hls) as (k & Hk & Hpow).
  assert (Hk' : 0 <= k < ADDRINT_BITS) by (unfold ADDRINT_BITS; lia).
  split; [|split; [|split]].
  - intros fuel r. unfold Access.
    destruct (Access_loop _ _ _ _ _ _) as [b|] eqn:Hloop; simpl; [|done].
    apply Access_loop_result in Hloop as ->. by intros [= <-].
  - intros Hhigh fuel Hfuel. unfold Access. rewrite Hpow in *.
    rewrite Access_loop_returns; done.
  - intros fuel r. unfold Access.
    destruct (Access_loop _ _ _ _ _ _) as [b|] eqn:Hloop; simpl; [|done].
    intros _. by apply Access_loop_exit in Hloop.
  - intros Hhigh n Hn. rewrite Hpow in *.
    destruct (Access_addr_range k n addr Hk' Haddr) as [_ Hle].
    specialize (Hle Hn). lia.
Qed.

(** * The properties on concrete caches *)

Lemma four_ways : 1 <= 4 <= 2 ^ 31.
Proof. lia. Qed.

(** C5 on [sample_set], probed with the value 9: slot 0 misses and ages from
    3 to 4 although slot 1 matches; slot 1 is reset. *)
Lemma LRU_Find_full_scan_witness :
  CACHE_SET.LRU._tags (snd (CACHE_SET.LRU.Find (CACHE_TAG_ctor 9) sample_set)) !! O
    = Some {| _tag := 7; dirty := false; LRU := 4 |} /\
  CACHE_SET.LRU._tags (snd (CACHE_SET.LRU.Find (CACHE_TAG_ctor 9) sample_set)) !! 1%nat
    = Some {| _tag := 9; dirty := false; LRU := 0 |}.
Proof.
  destruct (LRU_Find_full_scan (CACHE_TAG_ctor 9) sample_set) as (Hactive & _).
  split.
  - apply (Hactive O {| _tag := 7; dirty := false; LRU := 3 |}).
    + vm_compute. lia.
    + reflexivity.
    + simpl. lia.
    + unfold INT_MAX. simpl. lia.
  - apply (Hactive 1%nat {| _tag := 9; dirty := false; LRU := 1 |}).
    + vm_compute. lia.
    + reflexivity.
    + reflexivity.
Defined.

(** C4 on [tied_set]: [Replace] takes slot 2, the higher of the two. *)
Lemma LRU_Replace_highest_maximum_witness :
  exists j slot,
    CACHE_SET.LRU.victim tied_set = Z.of_nat j /\
    (j < CACHE_SET.LRU.active tied_set)%nat /\
    CACHE_SET.LRU._tags tied_set !! j = Some slot /\
    (forall i slot', (i < CACHE_SET.LRU.active tied_set)%nat ->
       CACHE_SET.LRU._tags tied_set !! i = Some slot' -> LRU slot' <= LRU slot) /\
    (forall i slot', (j < i < CACHE_SET.LRU.active tied_set)%nat ->
       CACHE_SET.LRU._tags tied_set !! i = Some slot' -> LRU slot' < LRU slot) /\
    ((forall i slot', (i < CACHE_SET.LRU.active tied_set)%nat ->
        CACHE_SET.LRU._tags tied_set !! i = Some slot' -> LRU slot' = LRU slot) ->
     j = (CACHE_SET.LRU.active tied_set - 1)%nat) /\
    CACHE_SET.LRU._tags (CACHE_SET.LRU.Replace (CACHE_TAG_ctor 8) tied_set) !! j
      = Some {| _tag := 8; dirty := false; LRU := 0 |} /\
    (forall i, i <> j ->
       CACHE_SET.LRU._tags (CACHE_SET.LRU.Replace (CACHE_TAG_ctor 8) tied_set) !! i
       = CACHE_SET.LRU._tags tied_set !! i) /\
    CACHE_SET.LRU._tagsLastIndex (CACHE_SET.LRU.Replace (CACHE_TAG_ctor 8) tied_set)
      = CACHE_SET.LRU._tagsLastIndex tied_set.
Proof.
  apply (proj1 LRU_Replace_highest_maximum (CACHE_TAG_ctor 8) tied_set).
  - unfold is_UINT32. simpl. lia.
  - vm_compute. lia.
  - intros [|[|[|[|i]]]] slot Hi Hslot; vm_compute in Hi; try lia;
      injection Hslot as <-; simpl; lia.
Defined.

(** C4 fails as stated.  In a fresh four-way set all recencies are equal and
    [Replace] fills slot 3, not slot 0; in a one-set four-way cache the loads
    of four new lines fill the slots 3, 2, 1, 0 in this order, and the fifth
    new line evicts slot 3, not slot 0. *)
Lemma LRU_Replace_not_lowest_index :
  (forall i slot, CACHE_SET.LRU._tags (CACHE_SET.LRU.default 4) !! i = Some slot ->
                  LRU slot = 0) /\
  CACHE_SET.LRU.victim (CACHE_SET.LRU.default 4) = 3 /\
  _tag <$> CACHE_SET.LRU._tags
             (CACHE_SET.LRU.Replace (CACHE_TAG_ctor 5) (CACHE_SET.LRU.default 4))
    = [0; 0; 0; 5] /\
  (c ← @CACHE_ctor _ (LRU_OPS 4) 1 "one set" 256 64 4 256 64 4;
   c' ← @run _ (LRU_OPS 4) CACHE_ALLOC.STORE_ALLOCATE
          [(64, ACCESS_TYPE_LOAD); (128, ACCESS_TYPE_LOAD);
           (192, ACCESS_TYPE_LOAD); (256, ACCESS_TYPE_LOAD)] c;
   s ← _sets c' !! O;
   Some (_tag <$> CACHE_SET.LRU._tags s)) = Some [4; 3; 2; 1] /\
  (c ← @CACHE_ctor _ (LRU_OPS 4) 1 "one set" 256 64 4 256 64 4;
   c' ← @run _ (LRU_OPS 4) CACHE_ALLOC.STORE_ALLOCATE
          [(64, ACCESS_TYPE_LOAD); (128, ACCESS_TYPE_LOAD);
           (192, ACCESS_TYPE_LOAD); (256, ACCESS_TYPE_LOAD);
           (320, ACCESS_TYPE_LOAD)] c;
   s ← _sets c' !! O;
   Some (_tag <$> CACHE_SET.LRU._tags s)) = Some [4; 3; 2; 5].
Proof.
  split.
  - intros i slot Hslot. apply lookup_replicate in Hslot as [-> _]. done.
  - repeat split; vm_compute; reflexivity.
Qed.

(** C6 on a two-set four-way cache without store allocation: a store that
    misses, and the load of the same address after it. *)
Lemma store_no_allocate_miss_keeps_occupancy_witness :
  exists c,
    @CACHE_ctor _ (LRU_OPS 4) 2 "two sets" 512 64 4 512 64 4 = Some c /\
    exists c',
    @AccessSingleLine _ (LRU_OPS 4) CACHE_ALLOC.STORE_NO_ALLOCATE c 0x1040
      ACCESS_TYPE_STORE = Some (false, c') /\
    exists c'',
      @AccessSingleLine _ (LRU_OPS 4) CACHE_ALLOC.STORE_NO_ALLOCATE c' 0x1040
        ACCESS_TYPE_LOAD = Some (false, c'').
Proof.
  exists_built.
  lazymatch goal with
  | |- exists c', AccessSingleLine _ ?c ?addr _ = _ /\ _ =>
      exists_built;
      lazymatch goal with
      | |- exists c'', AccessSingleLine _ ?c' _ _ = _ =>
          refine (proj2 (proj2 (@store_no_allocate_miss_keeps_occupancy
                                  _ (LRU_OPS 4) LRU_VIEW (LRU_LAWS 4 four_ways) c c' addr _)))
      end
  end.
  vm_compute. reflexivity.
Defined.

(** C7 on a two-set cache: two loads and a store. *)
Lemma AccessSingleLine_counts_once_witness :
  exists c,
    @CACHE_ctor _ (LRU_OPS 4) 2 "two sets" 512 64 4 512 64 4 = Some c /\
    exists c',
    @run _ (LRU_OPS 4) CACHE_ALLOC.STORE_NO_ALLOCATE
      [(0x1040, ACCESS_TYPE_LOAD); (0x1040, ACCESS_TYPE_LOAD);
       (0x2000, ACCESS_TYPE_STORE)] c = Some c' /\
    Hits_of (base c') ACCESS_TYPE_LOAD + Misses_of (base c') ACCESS_TYPE_LOAD = 2 /\
    Accesses_of (base c') ACCESS_TYPE_LOAD = 2 /\
    Accesses_of (base c') ACCESS_TYPE_STORE = 1.
Proof.
  exists_built.
  lazymatch goal with
  | |- exists c', run _ ?accs ?c = Some c' /\ _ =>
      destruct (proj2 (@AccessSingleLine_counts_once _ (LRU_OPS 4) 2
                         CACHE_ALLOC.STORE_NO_ALLOCATE)
                  "two sets"%string 512 64 4 512 64 4 c accs)
        as (c' & Hrun & Hcount)
  end.
  - vm_compute. reflexivity.
  - vm_compute. discriminate.
  - exists c'. split; [exact Hrun|].
    split; [|split].
    + apply (Hcount ACCESS_TYPE_LOAD). reflexivity.
    + apply (Hcount ACCESS_TYPE_LOAD). reflexivity.
    + apply (Hcount ACCESS_TYPE_STORE). reflexivity.
Defined.

(** C9 on a geometry whose total size is a multiple of associativity times
    line size: two sets of four lines of 64 bytes. *)
Lemma geometry_product_when_divisible_witness :
  exists c,
    @CACHE_ctor _ (LRU_OPS 4) 2 "two sets" 512 64 4 512 64 4 = Some c /\
    CacheSize (base c) = 512 /\ LineSize (base c) = 64 /\ Associativity (base c) = 4 /\
    CacheSize (base c) = NumSets (base c) * Associativity (base c) * LineSize (base c).
Proof.
  exists_built.
  lazymatch goal with
  | |- CacheSize (base ?c) = _ /\ _ =>
      destruct (@geometry_product_when_divisible _ (LRU_OPS 4) 2
                  CACHE_ALLOC.STORE_NO_ALLOCATE
                  "two sets"%string 512 64 4 512 64 4 c)
        as (Hcs & Hls & Ha & Hprod & _)
  end.
  - vm_compute. reflexivity.
  - unfold is_UINT32. lia.
  - lia.
  - lia.
  - lia.
  - reflexivity.
  - split; [exact Hcs|]. split; [exact Hls|]. split; [exact Ha|exact Hprod].
Defined.

(** C9 fails as stated.  A total size of 100 bytes with lines of 32 bytes and
    associativity 3 passes both assertions (32 and the set count 1 are powers
    of two), and 1 * 3 * 32 is 96.  A total size below one set's worth passes
    them too, with a set count of 0. *)
Lemma geometry_product_fails :
  (exists c,
     @CACHE_ctor _ (LRU_OPS 4) 1 "odd" 100 32 3 100 32 3 = Some c /\
     CacheSize (base c) = 100 /\
     NumSets (base c) * Associativity (base c) * LineSize (base c) = 96 /\
     CacheSize (base c)
       <> NumSets (base c) * Associativity (base c) * LineSize (base c)) /\
  (exists c,
     @CACHE_ctor _ DIRECT_MAPPED_OPS 1 "small" 32 64 1 32 64 1 = Some c /\
     CacheSize (base c) = 32 /\ NumSets (base c) = 0 /\
     CacheSize (base c)
       <> NumSets (base c) * Associativity (base c) * LineSize (base c)).
Proof.
  split; exists_built; repeat split; vm_compute; congruence.
Qed.

(** C10 on a fresh direct-mapped cache: the first access, at address 0. *)
Lemma cold_zero_tag_hits_witness :
  exists c,
    @CACHE_ctor _ DIRECT_MAPPED_OPS 4 "direct" 256 64 1 256 64 1 = Some c /\
    exists c',
    @AccessSingleLine _ DIRECT_MAPPED_OPS CACHE_ALLOC.STORE_ALLOCATE c 0
      ACCESS_TYPE_LOAD = Some (true, c').
Proof.
  exists_built.
  lazymatch goal with
  | |- exists c', AccessSingleLine _ ?c _ _ = _ =>
      destruct (@cold_zero_tag_hits _ DIRECT_MAPPED_OPS DIRECT_MAPPED_VIEW
                  DIRECT_MAPPED_LAWS 4
                  CACHE_ALLOC.STORE_ALLOCATE "direct"%string 256 64 1 256 64 1 c 0
                  ACCESS_TYPE_LOAD) as [[c' Hhit] _]
  end.
  - lia.
  - lia.
  - vm_compute. reflexivity.
  - reflexivity.
  - exists c'. exact Hhit.
Defined.

(** The same on a fresh four-way cache, for a store; and the end of the
    spurious hit in the direct-mapped cache: the load of the address 0x100
    (tag 4, set 0) replaces the slot, after which address 0 misses. *)
Example cold_zero_tag_examples :
  (c ← @CACHE_ctor _ (LRU_OPS 4) 2 "two sets" 512 64 4 512 64 4;
   r ← @AccessSingleLine _ (LRU_OPS 4) CACHE_ALLOC.STORE_NO_ALLOCATE c 0x3f
         ACCESS_TYPE_STORE;
   Some (fst r)) = Some true /\
  (c ← @CACHE_ctor _ DIRECT_MAPPED_OPS 4 "direct" 256 64 1 256 64 1;
   r1 ← @AccessSingleLine _ DIRECT_MAPPED_OPS CACHE_ALLOC.STORE_ALLOCATE c 0x100
          ACCESS_TYPE_LOAD;
   r2 ← @AccessSingleLine _ DIRECT_MAPPED_OPS CACHE_ALLOC.STORE_ALLOCATE (snd r1) 0
          ACCESS_TYPE_LOAD;
   Some (fst r1, fst r2)) = Some (false, false).
Proof. split; vm_compute; reflexivity. Qed.

(** C2 on a two-set cache: an access of 192 bytes at 0x40 returns; for four
    bytes at 0xfffffffffffffff8, in the last line of the address space, the
    first iteration moves the address to 0 and the test holds after every
    iteration. *)
Lemma Access_true_and_inert_witness :
  exists c,
    @CACHE_ctor _ (LRU_OPS 4) 2 "two sets" 512 64 4 512 64 4 = Some c /\
    Access 300 c 0x40 192 ACCESS_TYPE_LOAD = Some (true, c) /\
    Access_addr (LineSize (base c)) 1 0xfffffffffffffff8 = 0 /\
    forall n, (1 <= n)%nat ->
      Access_addr (LineSize (base c)) n 0xfffffffffffffff8
      < ADDRINT_of (0xfffffffffffffff8 + 4).
Proof.
  exists_built.
  lazymatch goal with
  | |- Access _ ?c _ _ _ = _ /\ _ =>
      pose proof (proj1 (proj2 (Access_true_and_inert c 0x40 192 ACCESS_TYPE_LOAD
                                  eq_refl ltac:(simpl; lia)
                                  ltac:(unfold is_ADDRINT, ADDRINT_BITS; lia))))
        as Hreturns;
      pose proof (proj2 (proj2 (proj2
                    (Access_true_and_inert c 0xfffffffffffffff8 4 ACCESS_TYPE_LOAD
                       eq_refl ltac:(simpl; lia)
                       ltac:(unfold is_ADDRINT, ADDRINT_BITS; lia)))))
        as Hnever
  end.
  split; [|split].
  - apply Hreturns.
    + vm_compute. discriminate.
    + vm_compute. lia.
  - vm_compute. reflexivity.
  - apply Hnever. vm_compute. reflexivity.
Defined.

(** C1 on the code.  In a 32KB four-way cache with 64-byte lines, after loads
    of 0x1000 and 0x1080, the 192 bytes at 0x1000 cover three full lines: the
    single-line accesses of the first and the third hit and that of the second
    misses (two more hits and one more miss are counted when they are made).
    [Access] on this range makes none of them: it returns [true] and the
    object as it was, counters included. *)
Theorem Access_skips_the_lines :
  exists c0,
    @CACHE_ctor _ (LRU_OPS 4) 128 "dl1" (32 * KILO) 64 4 (32 * KILO) 64 4 = Some c0 /\
    exists c,
    @run _ (LRU_OPS 4) CACHE_ALLOC.STORE_ALLOCATE
      [(0x1000, ACCESS_TYPE_LOAD); (0x1080, ACCESS_TYPE_LOAD)] c0 = Some c /\
    exists c1,
    @AccessSingleLine _ (LRU_OPS 4) CACHE_ALLOC.STORE_ALLOCATE c 0x1000
      ACCESS_TYPE_LOAD = Some (true, c1) /\
    exists c2,
    @AccessSingleLine _ (LRU_OPS 4) CACHE_ALLOC.STORE_ALLOCATE c1 0x1040
      ACCESS_TYPE_LOAD = Some (false, c2) /\
    exists c3,
    @AccessSingleLine _ (LRU_OPS 4) CACHE_ALLOC.STORE_ALLOCATE c2 0x1080
      ACCESS_TYPE_LOAD = Some (true, c3) /\
    Hits_of (base c3) ACCESS_TYPE_LOAD = Hits_of (base c) ACCESS_TYPE_LOAD + 2 /\
    Misses_of (base c3) ACCESS_TYPE_LOAD = Misses_of (base c) ACCESS_TYPE_LOAD + 1 /\
    Access 3 c 0x1000 192 ACCESS_TYPE_LOAD = Some (true, c).
Proof.
  do 5 exists_built.
  split; [vm_compute; reflexivity|].
  split; vm_compute; reflexivity.
Qed.

(** C3 on the code.  [SumAccess] returns 0 for every object, so the aggregate
    accessors do; after two loads and a store the per-type accessors give 2
    and 1 and [Accesses()] gives 0. *)
Theorem aggregate_accessors_return_zero :
  (forall b, Hits b = 0 /\ Misses b = 0 /\ Accesses b = 0) /\
  exists c0,
    @CACHE_ctor _ (LRU_OPS 4) 128 "dl1" (32 * KILO) 64 4 (32 * KILO) 64 4 = Some c0 /\
    exists c,
    @run _ (LRU_OPS 4) CACHE_ALLOC.STORE_ALLOCATE
      [(0x1000, ACCESS_TYPE_LOAD); (0x1000, ACCESS_TYPE_LOAD);
       (0x2000, ACCESS_TYPE_STORE)] c0 = Some c /\
    Accesses_of (base c) ACCESS_TYPE_LOAD = 2 /\
    Hits_of (base c) ACCESS_TYPE_LOAD = 1 /\
    Accesses_of (base c) ACCESS_TYPE_STORE = 1 /\
    Hits (base c) = 0 /\ Misses (base c) = 0 /\ Accesses (base c) = 0.
Proof.
  split; [done|]. do 2 exists_built.
  repeat split.
Qed.

(** * Further properties *)

(** ** The bit utilities *)

(** Masking with the bits [k], ..., [W - 1] clears the [k] low bits of a
    [W]-bit value. *)
Lemma land_high_mask (W k n : Z) :
  0 <= k <= W -> 0 <= n < 2 ^ W ->
  Z.land n (2 ^ W - 2 ^ k) = 2 ^ k * (n / 2 ^ k).
Proof.
  intros Hk Hn.
  assert (Hmask : 2 ^ W - 2 ^ k = Z.ldiff (Z.ones W) (Z.ones k)).
  { rewrite <- Z.sub_nocarry_ldiff.
    - rewrite !Z.ones_equiv. lia.
    - apply Z.bits_inj'. intros i Hi.
      rewrite Z.ldiff_spec, Z.bits_0, !Z.testbit_ones_nonneg by lia.
      destruct (Z.ltb_spec i k), (Z.ltb_spec i W); simpl; try done; lia. }
  rewrite Hmask.
  assert (Hld : Z.land n (Z.ldiff (Z.ones W) (Z.ones k)) = Z.ldiff n (Z.ones k)).
  { rewrite <- (Z.mod_small n (2 ^ W)) at 2 by lia.
    rewrite <- Z.land_ones by lia.
    apply Z.bits_inj'. intros i Hi.
    rewrite Z.land_spec, !Z.ldiff_spec, Z.land_spec. by rewrite andb_assoc. }
  rewrite Hld, Z.ldiff_ones_r by lia.
  rewrite Z.shiftl_mul_pow2, Z.shiftr_div_pow2 by lia. lia.
Qed.

(** One step of the binary search of [FloorLog2] on a value below
    [2^(2w)]: the test of the high half, and what is left for the next step. *)
Lemma halving_step (w m n : Z) :
  0 < w -> m = 2 ^ (2 * w) - 2 ^ w -> 0 < n < 2 ^ (2 * w) ->
  let r := if nonzero (Z.land n m) then (w, Z.shiftr n w) else (0, n) in
  0 < snd r < 2 ^ w /\ Z.log2 n = fst r + Z.log2 (snd r).
Proof.
  intros Hw -> Hn. cbv zeta.
  assert (Hpow : 0 < 2 ^ w) by (apply Z.pow_pos_nonneg; lia).
  assert (Hsq : 2 ^ (2 * w) = 2 ^ w * 2 ^ w).
  { rewrite <- Z.pow_add_r by lia. f_equal. lia. }
  rewrite land_high_mask by lia. unfold nonzero.
  destruct (Z.eqb_spec (2 ^ w * (n / 2 ^ w)) 0) as [Hz|Hnz]; simpl.
  - assert (n / 2 ^ w = 0) by nia.
    assert (n < 2 ^ w) by (apply Z.div_small_iff in H; lia).
    lia.
  - assert (Hq : 0 < n / 2 ^ w).
    { assert (0 <= n / 2 ^ w) by (apply Z.div_pos; lia). nia. }
    rewrite Z.shiftr_div_pow2 by lia. split.
    + split; [done|]. apply Z.div_lt_upper_bound; lia.
    + rewrite <- Z.shiftr_div_pow2 by lia.
      rewrite Z.log2_shiftr by lia.
      assert (w <= Z.log2 n).
      { apply Z.log2_le_pow2; [lia|].
        pose proof (Z.mul_div_le n (2 ^ w) Hpow). nia. }
      lia.
Qed.

(** [FloorLog2] is the integer logarithm on the non-zero 32-bit values. *)
Lemma FloorLog2_log2 (n : Z) : 0 < n < 2 ^ 32 -> FloorLog2 n = Z.log2 n.
Proof.
  intros Hn. unfold FloorLog2.
  destruct (Z.eqb_spec n 0) as [|_]; [lia|]. cbv zeta.
  (* One test of the search: both outcomes carry the bound of what is left
     and its share of the logarithm. *)
  let halve w :=
    lazymatch goal with
    | Hr : 0 < ?n < _ |- context [nonzero (Z.land ?n ?m)] =>
        let Hlog := fresh "Hlog" in
        generalize (halving_step w m n ltac:(lia) eq_refl ltac:(lia)); cbv zeta;
        destruct (nonzero (Z.land n m));
        cbn [fst snd]; cbv beta iota; clear Hr; intros [Hr Hlog]
    end in
  halve 16%Z; halve 8%Z; halve 4%Z; halve 2%Z; halve 1%Z;
    lazymatch goal with
    | Hr : 0 < ?m < 2 ^ 1 |- _ =>
        assert (Hone : Z.log2 m = 0) by (replace m with 1 by lia; reflexivity)
    end; lia.
Qed.

Lemma FloorLog2_pow2 (k : Z) : 0 <= k < 32 -> FloorLog2 (2 ^ k) = k.
Proof.
  intros Hk. rewrite FloorLog2_log2.
  - apply Z.log2_pow2. lia.
  - split; [apply Z.pow_pos_nonneg; lia|apply Z.pow_lt_mono_r; lia].
Qed.

Lemma IsPower2_pow2 (k : Z) : 0 <= k < 32 -> IsPower2 (2 ^ k) = true.
Proof.
  intros Hk. unfold IsPower2. apply Z.eqb_eq.
  assert (0 < 2 ^ k < 2 ^ 32).
  { split; [apply Z.pow_pos_nonneg; lia|apply Z.pow_lt_mono_r; lia]. }
  rewrite UINT32_of_small by (unfold is_UINT32; lia).
  replace (2 ^ k - 1) with (Z.ones k) by (rewrite Z.ones_equiv; lia).
  rewrite Z.land_ones by lia. apply Z.mod_same. lia.
Qed.

(** X1.  [IsPower2] accepts exactly zero and the powers of two: on a 32-bit
    value it returns [true] if and only if the value is 0 or [2^k] for some
    [k] below 32. *)
Theorem IsPower2_zero_or_power (n : Z) :
  is_UINT32 n ->
  (IsPower2 n = true <-> n = 0 \/ exists k, 0 <= k < 32 /\ n = 2 ^ k).
Proof.
  intros Hn. split.
  - intros Hp. destruct (decide (n = 0)) as [|Hnz]; [by left|right].
    apply IsPower2_inv; [done|]. unfold is_UINT32 in Hn. lia.
  - intros [->|(k & Hk & ->)]; [done|]. by apply IsPower2_pow2.
Qed.

(** X2.  [FloorLog2] returns -1 on 0 and the floor of the binary logarithm on
    every other 32-bit value [n]: the result [p] is between 0 and 31 and
    [2^p <= n < 2^(p+1)]. *)
Theorem FloorLog2_floor (n : Z) :
  is_UINT32 n ->
  (n = 0 -> FloorLog2 n = -1) /\
  (n <> 0 ->
   FloorLog2 n = Z.log2 n /\ 0 <= FloorLog2 n < 32 /\
   2 ^ FloorLog2 n <= n < 2 ^ (FloorLog2 n + 1)).
Proof.
  intros Hn. unfold is_UINT32 in Hn. split.
  - by intros ->.
  - intros Hnz. rewrite FloorLog2_log2 by lia. split; [done|].
    split.
    + split; [apply Z.log2_nonneg|]. apply Z.log2_lt_pow2; lia.
    + apply Z.log2_spec. lia.
Qed.

(** X3.  [CeilLog2] is the ceiling of the binary logarithm on the 32-bit
    values from 1 on: the result [p] is the least exponent with [n <= 2^p].
    At 0 the subtraction [n - 1] wraps to [0xffffffff] and the result is 32. *)
Theorem CeilLog2_ceiling (n : Z) :
  is_UINT32 n ->
  (n = 0 -> CeilLog2 n = 32) /\
  (n = 1 -> CeilLog2 n = 0) /\
  (1 < n ->
   CeilLog2 n = Z.log2_up n /\ 0 < CeilLog2 n <= 32 /\
   2 ^ (CeilLog2 n - 1) < n <= 2 ^ CeilLog2 n).
Proof.
  intros Hn. unfold is_UINT32 in Hn.
  split; [by intros ->|]. split; [by intros ->|]. intros H1.
  unfold CeilLog2. rewrite UINT32_of_small by (unfold is_UINT32; lia).
  rewrite FloorLog2_log2 by lia.
  assert (Hlo : 0 <= Z.log2 (n - 1)) by apply Z.log2_nonneg.
  assert (Hhi : Z.log2 (n - 1) < 32) by (apply Z.log2_lt_pow2; lia).
  rewrite INT32_of_small by lia.
  assert (Hup : Z.log2_up n = Z.log2 (n - 1) + 1).
  { rewrite Z.log2_up_eqn by lia. unfold Z.succ, Z.pred. done. }
  split; [by rewrite Hup|]. split; [lia|].
  destruct (Z.log2_spec (n - 1)) as [Hl Hu]; [lia|].
  replace (Z.log2 (n - 1) + 1 - 1) with (Z.log2 (n - 1)) by lia.
  unfold Z.succ in Hu. lia.
Qed.

(** ** The geometry of a constructed cache *)

(** The line shift of a constructed cache is the logarithm of its line
    size. *)
Lemma CACHE_BASE_ctor_lineShift name cs ls a l2cs l2ls l2a b :
  CACHE_BASE_ctor name cs ls a l2cs l2ls l2a = Some b -> is_UINT32 ls ->
  0 <= _lineShift b < 32 /\ LineSize b = 2 ^ _lineShift b.
Proof.
  intros Hb Hls.
  destruct (CACHE_BASE_ctor_lineSize _ _ _ _ _ _ _ _ Hb Hls) as [Hp Hrange].
  destruct (IsPower2_inv _ Hp Hrange) as (k & Hk & Hpow).
  apply CACHE_BASE_ctor_inv in Hb as (_ & Hl & _ & Hshift & _).
  unfold LineSize in *. rewrite Hl in Hpow. rewrite Hshift, Hpow.
  rewrite FloorLog2_pow2 by done.
  rewrite UINT32_of_small by (unfold is_UINT32; lia). rewrite Hl. done.
Qed.

(** With at least one set, the set count is a power of two and the mask is
    the set count minus one. *)
Lemma CACHE_BASE_ctor_sets name cs ls a l2cs l2ls l2a b :
  CACHE_BASE_ctor name cs ls a l2cs l2ls l2a = Some b -> 1 <= NumSets b ->
  exists j, 0 <= j < 32 /\ NumSets b = 2 ^ j /\ _setIndexMask b = 2 ^ j - 1.
Proof.
  intros Hb Hn.
  pose proof (CACHE_BASE_ctor_mask _ _ _ _ _ _ _ _ Hb) as Hmask.
  apply CACHE_BASE_ctor_inv in Hb as (_ & _ & _ & _ & _ & _ & Hp & _).
  pose proof (UINT32_of_range (_setIndexMask b + 1)) as Hr.
  fold (NumSets b) in Hr. unfold is_UINT32 in Hr.
  destruct (IsPower2_inv _ Hp ltac:(lia)) as (j & Hj & Hpow).
  exists j. split; [done|]. split; [done|].
  unfold NumSets, UINT32_of, is_UINT32 in *.
  destruct (decide (_setIndexMask b = 2 ^ 32 - 1)) as [Heq|Hne].
  - rewrite Heq in Hn. change ((2 ^ 32 - 1 + 1) mod 2 ^ 32) with 0 in Hn. lia.
  - rewrite Z.mod_small in Hpow by lia. lia.
Qed.

(** X4.  On a constructed cache with at least one set, [SplitAddress] at
    level 1 divides: the tag is the line number [addr / lineSize] and the set
    index is the line number modulo the set count, so it is below the set
    count; two addresses of one line get the same tag and set index. *)
Theorem SplitAddress_line_number name cs ls a l2cs l2ls l2a (b : CACHE_BASE)
    (addr : Z) :
  CACHE_BASE_ctor name cs ls a l2cs l2ls l2a = Some b ->
  is_UINT32 ls -> 1 <= NumSets b -> 0 <= addr ->
  SplitAddress b addr 1
    = (CACHE_TAG_ctor (addr / LineSize b), (addr / LineSize b) mod NumSets b) /\
  0 <= snd (SplitAddress b addr 1) < NumSets b /\
  (forall addr', 0 <= addr' -> addr' / LineSize b = addr / LineSize b ->
     SplitAddress b addr' 1 = SplitAddress b addr 1).
Proof.
  intros Hb Hls Hn Haddr.
  destruct (CACHE_BASE_ctor_lineShift _ _ _ _ _ _ _ _ Hb Hls) as [Hk Hline].
  destruct (CACHE_BASE_ctor_sets _ _ _ _ _ _ _ _ Hb Hn) as (j & Hj & Hsets & Hmask).
  assert (Hsplit : forall x, 0 <= x ->
            SplitAddress b x 1
            = (CACHE_TAG_ctor (x / LineSize b), (x / LineSize b) mod NumSets b)).
  { intros x Hx. unfold SplitAddress. simpl. unfold to_ADDRINT. simpl.
    rewrite Hline, Hsets, Hmask, Z.shiftr_div_pow2 by lia.
    replace (2 ^ j - 1) with (Z.ones j) by (rewrite Z.ones_equiv; lia).
    rewrite Z.land_ones by lia. f_equal.
    apply UINT32_of_small. unfold is_UINT32.
    assert (0 < 2 ^ j) by (apply Z.pow_pos_nonneg; lia).
    assert (2 ^ j < 2 ^ 32) by (apply Z.pow_lt_mono_r; lia).
    pose proof (Z.mod_pos_bound (x / 2 ^ _lineShift b) (2 ^ j)). lia. }
  split; [by apply Hsplit|]. split.
  - rewrite Hsplit by done. simpl. apply Z.mod_pos_bound. lia.
  - intros addr' Haddr' Heq. rewrite !Hsplit by done. by rewrite Heq.
Qed.

(** X5.  The five-argument [SplitAddress] at level 0 or 1 on a constructed
    cache: tag and set index are those of the four-argument one, the line
    index is [addr mod lineSize], and tag and line index give the address
    back.  At a level other than 0, 1 and 2 nothing is assigned. *)
Theorem SplitAddress_line_index name cs ls a l2cs l2ls l2a (b : CACHE_BASE)
    (addr level : Z) :
  CACHE_BASE_ctor name cs ls a l2cs l2ls l2a = Some b ->
  is_UINT32 ls -> 0 <= addr ->
  (level = 0 \/ level = 1 ->
   exists tag setIndex lineIndex,
     SplitAddress_line b addr level = Some (tag, setIndex, lineIndex) /\
     (tag, setIndex) = SplitAddress b addr 1 /\
     lineIndex = addr mod LineSize b /\ 0 <= lineIndex < LineSize b /\
     addr = to_ADDRINT tag * LineSize b + lineIndex) /\
  (level <> 0 -> level <> 1 -> level <> 2 -> SplitAddress_line b addr level = None).
Proof.
  intros Hb Hls Haddr.
  destruct (CACHE_BASE_ctor_lineShift _ _ _ _ _ _ _ _ Hb Hls) as [Hk Hline].
  split.
  - intros Hlevel. unfold SplitAddress_line.
    assert (Hl : (level =? 1) || (level =? 0) = true).
    { destruct Hlevel as [-> | ->]; done. }
    rewrite Hl. unfold SplitAddress. simpl. unfold to_ADDRINT. simpl.
    eexists _, _, _. split; [done|]. split; [done|].
    unfold LineSize in *. rewrite Hline.
    assert (Hpow : 0 < 2 ^ _lineShift b) by (apply Z.pow_pos_nonneg; lia).
    assert (Hlt : 2 ^ _lineShift b < 2 ^ 32) by (apply Z.pow_lt_mono_r; lia).
    rewrite (UINT32_of_small (2 ^ _lineShift b - 1)) by (unfold is_UINT32; lia).
    replace (2 ^ _lineShift b - 1) with (Z.ones (_lineShift b))
      by (rewrite Z.ones_equiv; lia).
    rewrite Z.land_ones by lia.
    pose proof (Z.mod_pos_bound addr (2 ^ _lineShift b) Hpow) as Hmod.
    rewrite UINT32_of_small by (unfold is_UINT32; lia).
    split; [done|]. split; [done|].
    rewrite Z.shiftr_div_pow2 by lia.
    unfold to_ADDRINT. simpl. pose proof (Z.div_mod addr (2 ^ _lineShift b) ltac:(lia)). lia.
  - intros H0 H1 H2. unfold SplitAddress_line.
    destruct (Z.eqb_spec level 1); [done|].
    destruct (Z.eqb_spec level 0); [done|].
    destruct (Z.eqb_spec level 2); done.
Qed.

(** X6.  What the constructor of [CACHE_BASE] accepts, on 32-bit arguments:
    exactly a line size that is a power of two, a product
    [associativity * lineSize] that is not 0 modulo 2^32 (it divides), a
    quotient [cacheSize / (associativity * lineSize)] that is 0 or a power of
    two, and a second-level product that is not 0 modulo 2^32 (it divides as
    well).  A line size of 0 is rejected although [IsPower2] accepts it, and a
    cache smaller than one set is accepted with a set count of 0. *)
Theorem CACHE_BASE_ctor_accepts name cs ls a l2cs l2ls l2a :
  is_UINT32 cs -> is_UINT32 ls ->
  (is_Some (CACHE_BASE_ctor name cs ls a l2cs l2ls l2a) <->
   (exists k, 0 <= k < 32 /\ ls = 2 ^ k) /\
   UINT32_of (a * ls) <> 0 /\
   (cs / UINT32_of (a * ls) = 0 \/
    exists j, 0 <= j < 32 /\ cs / UINT32_of (a * ls) = 2 ^ j) /\
   UINT32_of (l2a * l2ls) <> 0).
Proof.
  intros Hcs Hls. split.
  - intros [b Hb].
    destruct (CACHE_BASE_ctor_lineSize _ _ _ _ _ _ _ _ Hb Hls) as [Hp Hrange].
    destruct (CACHE_BASE_ctor_NumSets _ _ _ _ _ _ _ _ Hb Hcs) as [Hnz Hsets].
    pose proof (CACHE_BASE_ctor_inv _ _ _ _ _ _ _ _ Hb)
      as (_ & Hl & _ & _ & _ & _ & Hp2 & _).
    unfold LineSize in *. rewrite Hl in *.
    split; [by apply IsPower2_inv|]. split; [done|]. split.
    + rewrite <- Hsets.
      pose proof (UINT32_of_range (_setIndexMask b + 1)) as Hr.
      fold (NumSets b) in Hr. unfold is_UINT32 in Hr.
      destruct (decide (NumSets b = 0)) as [|Hne]; [by left|right].
      apply IsPower2_inv; [done|lia].
    + unfold CACHE_BASE_ctor in Hb.
      destruct (index_mask cs ls a) as [m|]; simpl in Hb; [|done].
      destruct (index_mask l2cs l2ls l2a) as [m2|] eqn:Hm2; simpl in Hb; [|done].
      by apply index_mask_inv in Hm2 as [Hnz2 _].
  - intros ((k & Hk & ->) & Hnz & Hq & Hnz2).
    unfold CACHE_BASE_ctor, index_mask, udiv.
    destruct (Z.eqb_spec (UINT32_of (a * 2 ^ k)) 0); [done|].
    destruct (Z.eqb_spec (UINT32_of (l2a * l2ls)) 0); [done|]. simpl.
    rewrite IsPower2_pow2 by done.
    assert (Hsets : IsPower2 (UINT32_of
              (UINT32_of (cs / UINT32_of (a * 2 ^ k) - 1) + 1)) = true).
    { destruct Hq as [-> | (j & Hj & ->)]; [done|].
      assert (0 < 2 ^ j < 2 ^ 32).
      { split; [apply Z.pow_pos_nonneg; lia|apply Z.pow_lt_mono_r; lia]. }
      rewrite (UINT32_of_small (2 ^ j - 1)) by (unfold is_UINT32; lia).
      replace (2 ^ j - 1 + 1) with (2 ^ j) by lia.
      rewrite UINT32_of_small by (unfold is_UINT32; lia).
      by apply IsPower2_pow2. }
    rewrite Hsets. simpl. done.
Qed.

(** ** The set classes: allocation *)

(** The slot [Replace] selects is an active one, whatever the recencies. *)
Lemma LRU_victim_active (s : CACHE_SET.LRU.t) :
  LRU_ok s ->
  exists j, CACHE_SET.LRU.victim s = Z.of_nat j /\ (j < CACHE_SET.LRU.active s)%nat.
Proof.
  intros [Hlast [Hn Hlen]]. unfold CACHE_SET.LRU.victim.
  destruct (LRU_Replace.Replace_loop_inv (CACHE_SET.LRU._tags s)
              (CACHE_SET.LRU._tagsLastIndex s) (CACHE_SET.LRU.active s))
    as (_ & _ & Hsel).
  destruct Hsel as [[-> _]|(j & slot & -> & Hj & _)].
  - exists (CACHE_SET.LRU.active s - 1)%nat.
    split; [by apply LRU_Replace.active_last|lia].
  - exists j. split; [done|lia].
Qed.

(** [Replace] writes one active slot. *)
Lemma LRU_Replace_insert (tag : CACHE_TAG) (s : CACHE_SET.LRU.t) :
  LRU_ok s ->
  exists j, (j < CACHE_SET.LRU.active s)%nat /\
    CACHE_SET.LRU.Replace tag s
    = {| CACHE_SET.LRU._tags := <[j := set_LRU 0 tag]> (CACHE_SET.LRU._tags s);
         CACHE_SET.LRU._tagsLastIndex := CACHE_SET.LRU._tagsLastIndex s |}.
Proof.
  intros Hok. destruct (LRU_victim_active s Hok) as (j & Hv & Hj).
  exists j. split; [done|]. unfold CACHE_SET.LRU.Replace.
  by rewrite Hv, Nat2Z.id.
Qed.

Lemma LRU_Find_ok tag s : LRU_ok s -> LRU_ok (snd (CACHE_SET.LRU.Find tag s)).
Proof.
  unfold LRU_ok.
  by rewrite LRU_Find.Find_last, LRU_Find.Find_active, LRU_Find.Find_length.
Qed.

Lemma LRU_Replace_ok tag s : LRU_ok s -> LRU_ok (CACHE_SET.LRU.Replace tag s).
Proof.
  intros Hok. destruct (LRU_Replace_insert tag s Hok) as (j & Hj & ->).
  destruct Hok as [Hlast Hn]. unfold LRU_ok, CACHE_SET.LRU.active in *. simpl.
  by rewrite length_insert.
Qed.

Lemma LRU_Replace_resident tag s :
  LRU_ok s -> to_ADDRINT tag ∈ LRU_resident (CACHE_SET.LRU.Replace tag s).
Proof.
  intros Hok. destruct (LRU_Replace_insert tag s Hok) as (j & Hj & ->).
  destruct Hok as [Hlast [Hn Hlen]].
  unfold LRU_resident, CACHE_SET.LRU.active in *. simpl.
  apply list_elem_of_fmap. exists (set_LRU 0 tag). split; [done|].
  apply list_elem_of_lookup. exists j.
  rewrite lookup_take_lt by done. apply list_lookup_insert_eq. lia.
Qed.

Lemma LRU_default_ok (MAX : Z) : 1 <= MAX <= 2 ^ 31 -> LRU_ok (CACHE_SET.LRU.default MAX).
Proof.
  intros HMAX. unfold LRU_ok, CACHE_SET.LRU.default, CACHE_SET.LRU.active. simpl.
  rewrite UINT32_of_small by (unfold is_UINT32; lia).
  rewrite INT32_of_small, length_replicate by lia.
  unfold is_UINT32. lia.
Qed.

Lemma LRU_configured_ok (MAX k : Z) (s : CACHE_SET.LRU.t) :
  1 <= MAX <= 2 ^ 31 -> 1 <= k ->
  CACHE_SET.LRU.SetAssociativity MAX k (CACHE_SET.LRU.default MAX) = Some s ->
  LRU_ok s.
Proof.
  intros HMAX Hk Hs. unfold CACHE_SET.LRU.SetAssociativity in Hs.
  destruct (Z.leb_spec k MAX); [|done]. injection Hs as <-.
  unfold LRU_ok, CACHE_SET.LRU.active. simpl.
  rewrite UINT32_of_small by (unfold is_UINT32; lia).
  rewrite INT32_of_small, length_replicate by lia.
  unfold is_UINT32. lia.
Qed.

Lemma LRU_ALLOC_LAWS (MAX_ASSOCIATIVITY : Z) :
  1 <= MAX_ASSOCIATIVITY <= 2 ^ 31 ->
  @SET_ALLOC_LAWS CACHE_SET.LRU.t (LRU_OPS MAX_ASSOCIATIVITY) LRU_VIEW LRU_OK.
Proof.
  intros HMAX. split.
  - exact (LRU_default_ok MAX_ASSOCIATIVITY HMAX).
  - exact (fun k s => LRU_configured_ok MAX_ASSOCIATIVITY k s HMAX).
  - exact LRU_Find_ok.
  - exact LRU_Replace_ok.
  - exact LRU_Replace_resident.
Qed.

Lemma DIRECT_MAPPED_ALLOC_LAWS : SET_ALLOC_LAWS CACHE_SET.DIRECT_MAPPED.t.
Proof.
  split; try done.
  intros tag s _. by apply list_elem_of_singleton.
Qed.

(** ** The cache: allocation *)

Section CACHE_allocation.

Context {SET : Type} {ops : SET_OPS SET} {view : SET_VIEW SET} {laws : SET_LAWS SET}.
Context {ok : SET_OK SET} {alaws : SET_ALLOC_LAWS SET}.
Variable MAX_SETS : Z.
Variable STORE_ALLOCATION : CACHE_ALLOC.STORE_ALLOCATION.

Lemma set_after_ok tag t (s : SET) :
  set_ok s -> set_ok (set_after STORE_ALLOCATION tag t s).
Proof.
  intros Hs. unfold set_after.
  destruct (allocates _ _ _); [apply Replace_ok|]; by apply Find_ok.
Qed.

Lemma AccessSingleLine_sets_ok (c : CACHE SET) addr t r :
  AccessSingleLine STORE_ALLOCATION c addr t = Some r ->
  Forall set_ok (_sets c) -> Forall set_ok (_sets (snd r)).
Proof.
  rewrite AccessSingleLine_eq.
  destruct (_sets c !! index_of c addr) as [set|] eqn:Hset; [|done].
  intros [= <-] Hall. simpl. apply Forall_insert; [done|].
  apply set_after_ok. by eapply Forall_lookup_1.
Qed.

Lemma run_sets_ok accs (c c' : CACHE SET) :
  run STORE_ALLOCATION accs c = Some c' ->
  Forall set_ok (_sets c) -> Forall set_ok (_sets c').
Proof.
  revert c. induction accs as [|[addr t] rest IH]; intros c; simpl.
  - by intros [= <-].
  - destruct (AccessSingleLine _ c addr t) as [r|] eqn:Hr; simpl; [|done].
    intros Hrun Hall. apply (IH (snd r)); [done|].
    by eapply AccessSingleLine_sets_ok.
Qed.

(** Every set of a constructed cache is a default set, configured or not. *)
Lemma CACHE_ctor_sets name cs ls a l2cs l2ls l2a (c : CACHE SET) i s :
  CACHE_ctor MAX_SETS name cs ls a l2cs l2ls l2a = Some c ->
  _sets c !! i = Some s ->
  s = SET_default \/ SetAssociativity a SET_default = Some s.
Proof.
  intros Hc Hs. pose proof (CACHE_ctor_length _ _ _ _ _ _ _ _ _ Hc) as Hlen.
  apply CACHE_ctor_inv in Hc as (_ & _ & Hsets).
  assert (Hi : (i < Z.to_nat MAX_SETS)%nat).
  { rewrite <- Hlen. apply lookup_lt_is_Some. eauto. }
  destruct (configure_sets_lookup _ _ _ _ i SET_default Hsets)
    as (s' & Hs' & Hlt & Hge); [by apply lookup_replicate_2|].
  assert (s' = s) by congruence. subst s'.
  destruct (decide (i < Z.to_nat (NumSets (base c)))%nat).
  - right. by apply Hlt.
  - left. apply Hge. lia.
Qed.

Lemma CACHE_ctor_sets_ok name cs ls a l2cs l2ls l2a (c : CACHE SET) :
  CACHE_ctor MAX_SETS name cs ls a l2cs l2ls l2a = Some c -> 0 <= a ->
  Forall set_ok (_sets c).
Proof.
  intros Hc Ha. pose proof (CACHE_ctor_associativity _ _ _ _ _ _ _ _ _ Hc) as Hnz.
  apply Forall_lookup. intros i s Hs.
  destruct (CACHE_ctor_sets _ _ _ _ _ _ _ _ _ _ Hc Hs) as [-> | Hconf].
  - apply default_ok.
  - apply (configured_ok a); [lia|done].
Qed.

(** The set index is a function of the tag. *)
Lemma index_of_tag (c : CACHE SET) addr addr' :
  tag_of c addr' = tag_of c addr -> index_of c addr' = index_of c addr.
Proof.
  unfold tag_of, index_of, SplitAddress, to_ADDRINT. simpl. by intros [= ->].
Qed.

(** After an access that hit or allocated, the line is resident: any access
    to it hits. *)
Lemma AccessSingleLine_then_hit (c : CACHE SET) addr t hit c' addr' t' :
  Forall set_ok (_sets c) ->
  AccessSingleLine STORE_ALLOCATION c addr t = Some (hit, c') ->
  hit = true \/ t = ACCESS_TYPE_LOAD
    \/ STORE_ALLOCATION = CACHE_ALLOC.STORE_ALLOCATE ->
  tag_of c addr' = tag_of c addr ->
  exists c'', AccessSingleLine STORE_ALLOCATION c' addr' t' = Some (true, c'').
Proof.
  intros Hall Hr Hkind Htag.
  destruct (AccessSingleLine_index _ _ _ _ _ addr' Hr) as [Hidx' Htag'].
  simpl in Hidx', Htag'.
  rewrite AccessSingleLine_eq in Hr.
  destruct (_sets c !! index_of c addr) as [set|] eqn:Hset; [|done].
  injection Hr as Hhit Hc'.
  assert (Hok : set_ok set) by (by eapply Forall_lookup_1).
  assert (Hnew : _sets c' !! index_of c' addr'
                 = Some (set_after STORE_ALLOCATION (tag_of c addr) t set)).
  { rewrite Hidx', (index_of_tag c addr addr' Htag), <- Hc'. simpl.
    apply list_lookup_insert_eq. apply lookup_lt_is_Some. eauto. }
  rewrite AccessSingleLine_eq, Hnew, Htag', Htag.
  eexists. do 2 f_equal.
  apply Find_hit. unfold set_after, allocates.
  destruct (fst (Find (tag_of c addr) set)) eqn:Hfind; cbn [negb andb].
  - rewrite Find_resident. by apply Find_hit.
  - assert (Halloc : ACCESS_TYPE_eqb t ACCESS_TYPE_LOAD
                     || match STORE_ALLOCATION with
                        | CACHE_ALLOC.STORE_ALLOCATE => true
                        | CACHE_ALLOC.STORE_NO_ALLOCATE => false
                        end = true).
    { destruct Hkind as [Hh|[-> | ->]]; [congruence|done|apply orb_true_r]. }
    rewrite Halloc. apply Replace_resident. by apply Find_ok.
Qed.

End CACHE_allocation.

(** X7.  In a constructed cache, after any sequence of single-line accesses,
    an access that hits, or that misses and allocates (a load, or a store
    under [STORE_ALLOCATE]), leaves its line resident: the next single-line
    access to any address of the same line, of either type, hits.  This holds
    for every set class satisfying the laws proved of [DIRECT_MAPPED] and
    [LRU]. *)
Theorem allocated_line_hits_next {SET : Type} {ops : SET_OPS SET}
    {view : SET_VIEW SET} {laws : SET_LAWS SET}
    {ok : SET_OK SET} {alaws : SET_ALLOC_LAWS SET}
    (MAX_SETS : Z) (STORE_ALLOCATION : CACHE_ALLOC.STORE_ALLOCATION)
    name cs ls a l2cs l2ls l2a (c0 c c' : CACHE SET)
    (accs : list (Z * ACCESS_TYPE)) (addr addr' : Z) (t t' : ACCESS_TYPE)
    (hit : bool) :
  CACHE_ctor MAX_SETS name cs ls a l2cs l2ls l2a = Some c0 ->
  is_UINT32 ls -> 0 <= a ->
  run STORE_ALLOCATION accs c0 = Some c ->
  AccessSingleLine STORE_ALLOCATION c addr t = Some (hit, c') ->
  hit = true \/ t = ACCESS_TYPE_LOAD
    \/ STORE_ALLOCATION = CACHE_ALLOC.STORE_ALLOCATE ->
  0 <= addr -> 0 <= addr' -> addr' / ls = addr / ls ->
  exists c'', AccessSingleLine STORE_ALLOCATION c' addr' t' = Some (true, c'').
Proof.
  intros Hc0 Hls Ha Hrun Hr Hkind Haddr Haddr' Hline.
  pose proof (CACHE_ctor_sets_ok MAX_SETS _ _ _ _ _ _ _ _ Hc0 Ha) as Hall0.
  pose proof (run_sets_ok _ _ _ _ Hrun Hall0) as Hall.
  apply (AccessSingleLine_then_hit STORE_ALLOCATION c addr t hit c' addr' t');
    try done.
  apply CACHE_ctor_inv in Hc0 as (Hb & _).
  destruct (CACHE_BASE_ctor_lineShift _ _ _ _ _ _ _ _ Hb Hls) as [Hk Hpow].
  apply CACHE_BASE_ctor_inv in Hb as (_ & Hl & _).
  apply run_geometry in Hrun as [Hg _].
  destruct Hg as (_ & _ & _ & _ & _ & _ & _ & Hshift & _).
  unfold LineSize in Hpow. rewrite Hl in Hpow.
  unfold tag_of, SplitAddress. simpl. rewrite Hshift.
  rewrite !Z.shiftr_div_pow2 by lia. rewrite <- Hpow. by rewrite Hline.
Qed.

(** ** Invariants of the sets of a cache *)

Section CACHE_invariants.

Context {SET : Type} {ops : SET_OPS SET}.
Variable STORE_ALLOCATION : CACHE_ALLOC.STORE_ALLOCATION.

(** A property of sets that every access carries from [P] to [Q] and that
    sets left alone keep passes from the sets before an access to the sets
    after it. *)
Lemma AccessSingleLine_Forall (P Q : SET -> Prop) (c : CACHE SET) addr t r :
  (forall s, P s -> Q s) ->
  (forall tag t s, P s -> Q (set_after STORE_ALLOCATION tag t s)) ->
  AccessSingleLine STORE_ALLOCATION c addr t = Some r ->
  Forall P (_sets c) -> Forall Q (_sets (snd r)).
Proof.
  intros Hkeep Hstep. rewrite AccessSingleLine_eq.
  destruct (_sets c !! index_of c addr) as [set|] eqn:Hset; [|done].
  intros [= <-] Hall. simpl. apply Forall_insert.
  - by eapply Forall_impl.
  - apply Hstep. by eapply Forall_lookup_1.
Qed.

Lemma run_Forall (P : SET -> Prop) accs (c c' : CACHE SET) :
  (forall tag t s, P s -> P (set_after STORE_ALLOCATION tag t s)) ->
  run STORE_ALLOCATION accs c = Some c' ->
  Forall P (_sets c) -> Forall P (_sets c').
Proof.
  intros Hstep. revert c. induction accs as [|[addr t] rest IH]; intros c; simpl.
  - by intros [= <-].
  - destruct (AccessSingleLine _ c addr t) as [r|] eqn:Hr; simpl; [|done].
    intros Hrun Hall. apply (IH (snd r)); [done|].
    by eapply (AccessSingleLine_Forall P P).
Qed.

(** The same for a property indexed by the number of accesses made. *)
Lemma run_Forall_counted (P : Z -> SET -> Prop) (bound : Z) accs
    (c c' : CACHE SET) (n : Z) :
  (forall n s, P n s -> P (n + 1) s) ->
  (forall n tag t s, 0 <= n < bound -> P n s ->
     P (n + 1) (set_after STORE_ALLOCATION tag t s)) ->
  run STORE_ALLOCATION accs c = Some c' ->
  0 <= n -> n + Z.of_nat (length accs) <= bound ->
  Forall (P n) (_sets c) -> Forall (P (n + Z.of_nat (length accs))) (_sets c').
Proof.
  intros Hkeep Hstep. revert c n.
  induction accs as [|[addr t] rest IH]; intros c n; simpl length.
  - simpl. intros [= <-] _ _. by rewrite Z.add_0_r.
  - simpl. destruct (AccessSingleLine _ c addr t) as [r|] eqn:Hr; simpl; [|done].
    intros Hrun Hn Hb Hall.
    replace (n + Z.of_nat (S (length rest)))
      with (n + 1 + Z.of_nat (length rest)) by lia.
    apply (IH (snd r)); [done|lia|lia|].
    apply (AccessSingleLine_Forall (P n) (P (n + 1)) c addr t r); try done.
    + apply Hkeep.
    + intros tag t0 s. apply Hstep. lia.
Qed.

End CACHE_invariants.

(** *** Associative sets *)

(** [Find] keeps the tag value of every slot. *)
Lemma LRU_Find_slot tag s i x :
  (i < CACHE_SET.LRU.active s)%nat ->
  CACHE_SET.LRU._tags (snd (CACHE_SET.LRU.Find tag s)) !! i = Some x ->
  exists x0, CACHE_SET.LRU._tags s !! i = Some x0 /\ x = probe tag x0.
Proof.
  intros Hi. rewrite LRU_Find.Find_lookup_active by done.
  destruct (CACHE_SET.LRU._tags s !! i) as [x0|]; [|done].
  intros [= <-]. by exists x0.
Qed.

Lemma LRU_Find_distinct tag s :
  LRU_distinct s -> LRU_distinct (snd (CACHE_SET.LRU.Find tag s)).
Proof.
  intros Hd i j x y. rewrite LRU_Find.Find_active. intros Hi Hj Hx Hy.
  apply LRU_Find_slot in Hx as (x0 & Hx0 & ->); [|done].
  apply LRU_Find_slot in Hy as (y0 & Hy0 & ->); [|done].
  rewrite !LRU_Find.probe_tag. by apply Hd.
Qed.

(** After a [Find] that missed, no active slot holds the tag value. *)
Lemma LRU_Find_miss tag s i x :
  fst (CACHE_SET.LRU.Find tag s) = false ->
  (i < CACHE_SET.LRU.active s)%nat ->
  CACHE_SET.LRU._tags (snd (CACHE_SET.LRU.Find tag s)) !! i = Some x ->
  _tag x <> _tag tag.
Proof.
  intros Hmiss Hi Hx Heq.
  apply LRU_Find_slot in Hx as (x0 & Hx0 & ->); [|done].
  rewrite LRU_Find.probe_tag in Heq.
  assert (fst (CACHE_SET.LRU.Find tag s) = true); [|congruence].
  apply LRU_Find.Find_result. by exists i, x0.
Qed.

Lemma LRU_Replace_distinct tag s :
  LRU_ok s ->
  (forall i x, (i < CACHE_SET.LRU.active s)%nat ->
     CACHE_SET.LRU._tags s !! i = Some x -> _tag x <> _tag tag) ->
  LRU_distinct s -> LRU_distinct (CACHE_SET.LRU.Replace tag s).
Proof.
  intros Hok Hnew Hd.
  destruct (LRU_Replace_insert tag s Hok) as (v & Hv & ->).
  destruct Hok as [_ [_ Hlen]].
  intros i j x y. unfold CACHE_SET.LRU.active. simpl.
  fold (CACHE_SET.LRU.active s). intros Hi Hj.
  destruct (decide (i = v)) as [->|Hiv], (decide (j = v)) as [->|Hjv]; [done|..].
  - rewrite list_lookup_insert_eq, list_lookup_insert_ne by lia.
    intros [= <-] Hy Heq _. simpl in Heq. exfalso. by eapply (Hnew j y).
  - rewrite list_lookup_insert_ne, list_lookup_insert_eq by lia.
    intros Hx [= <-] Heq _. simpl in Heq. exfalso. by eapply (Hnew i x).
  - rewrite !list_lookup_insert_ne by lia. by apply Hd.
Qed.

Lemma LRU_set_after_distinct MAX STORE_ALLOCATION tag t s :
  LRU_ok s /\ LRU_distinct s ->
  LRU_ok (@set_after _ (LRU_OPS MAX) STORE_ALLOCATION tag t s) /\
  LRU_distinct (@set_after _ (LRU_OPS MAX) STORE_ALLOCATION tag t s).
Proof.
  intros [Hok Hd]. unfold set_after, allocates. simpl.
  destruct (fst (CACHE_SET.LRU.Find tag s)) eqn:Hfind; cbn [negb andb].
  - split; [by apply LRU_Find_ok|by apply LRU_Find_distinct].
  - destruct (_ || _).
    + split; [by apply LRU_Replace_ok, LRU_Find_ok|].
      apply LRU_Replace_distinct.
      * by apply LRU_Find_ok.
      * rewrite LRU_Find.Find_active. intros i x. by apply LRU_Find_miss.
      * by apply LRU_Find_distinct.
    + split; [by apply LRU_Find_ok|by apply LRU_Find_distinct].
Qed.

(** A set whose slots all hold the default tag. *)
Lemma LRU_zero_tags (s : CACHE_SET.LRU.t) (n : nat) :
  CACHE_SET.LRU._tags s = replicate n (CACHE_TAG_ctor 0) ->
  LRU_distinct s /\ LRU_aged 0 s.
Proof.
  intros Htags. split.
  - intros i j x y _ _ Hx _ _ Hnz. rewrite Htags in Hx.
    apply lookup_replicate in Hx as [-> _]. done.
  - intros i slot _ Hslot. rewrite Htags in Hslot.
    apply lookup_replicate in Hslot as [-> _]. simpl. lia.
Qed.

(** The sets of a constructed cache of associative sets. *)
Lemma LRU_CACHE_ctor_sets MAX MAX_SETS name cs ls a l2cs l2ls l2a
    (c : CACHE CACHE_SET.LRU.t) :
  1 <= MAX <= 2 ^ 31 -> 0 <= a ->
  @CACHE_ctor _ (LRU_OPS MAX) MAX_SETS name cs ls a l2cs l2ls l2a = Some c ->
  Forall (fun s => LRU_ok s /\ LRU_distinct s /\ LRU_aged 0 s /\
                   (Z.to_nat (Z.min a MAX) <= CACHE_SET.LRU.active s)%nat)
         (_sets c).
Proof.
  intros HMAX Ha Hc.
  pose proof (@CACHE_ctor_associativity _ (LRU_OPS MAX) _ _ _ _ _ _ _ _ _ Hc) as Hnz.
  apply Forall_lookup. intros i s Hs.
  destruct (@CACHE_ctor_sets _ (LRU_OPS MAX) _ _ _ _ _ _ _ _ _ _ _ Hc Hs)
    as [-> | Hconf]; simpl in *.
  - split; [by apply LRU_default_ok|].
    destruct (LRU_zero_tags (CACHE_SET.LRU.default MAX) (Z.to_nat MAX) eq_refl)
      as [Hd Hg].
    split; [done|]. split; [done|].
    unfold CACHE_SET.LRU.active, CACHE_SET.LRU.default. simpl.
    rewrite UINT32_of_small by (unfold is_UINT32; lia).
    rewrite INT32_of_small by lia. lia.
  - split; [by apply (LRU_configured_ok MAX a); [|lia|]|].
    destruct (LRU_fresh.SetAssociativity_default MAX a s) as [Heq Hact];
      [|lia|done|].
    { unfold CACHE_SET.LRU.SetAssociativity in Hconf.
      destruct (Z.leb_spec a MAX); [lia|done]. }
    destruct (LRU_zero_tags s (Z.to_nat MAX)) as [Hd Hg]; [by rewrite Heq|].
    split; [done|]. split; [done|]. rewrite Hact. lia.
Qed.

(** X8.  In a cache of associative sets, a tag value other than 0 is never
    held by two active slots of a set: this holds of every set after any
    sequence of single-line accesses on a constructed cache (the value 0 is
    held by every slot of a fresh set). *)
Theorem LRU_no_duplicate_tag (MAX MAX_SETS : Z)
    (STORE_ALLOCATION : CACHE_ALLOC.STORE_ALLOCATION)
    name cs ls a l2cs l2ls l2a (c0 c : CACHE CACHE_SET.LRU.t)
    (accs : list (Z * ACCESS_TYPE)) :
  1 <= MAX <= 2 ^ 31 -> 0 <= a ->
  @CACHE_ctor _ (LRU_OPS MAX) MAX_SETS name cs ls a l2cs l2ls l2a = Some c0 ->
  @run _ (LRU_OPS MAX) STORE_ALLOCATION accs c0 = Some c ->
  forall idx s i j x y,
    _sets c !! idx = Some s ->
    (i < CACHE_SET.LRU.active s)%nat -> (j < CACHE_SET.LRU.active s)%nat ->
    CACHE_SET.LRU._tags s !! i = Some x -> CACHE_SET.LRU._tags s !! j = Some y ->
    to_ADDRINT x = to_ADDRINT y -> to_ADDRINT x <> 0 -> i = j.
Proof.
  intros HMAX Ha Hc0 Hrun idx s i j x y Hs.
  assert (Hall : Forall (fun s => LRU_ok s /\ LRU_distinct s) (_sets c)).
  { eapply (@run_Forall _ (LRU_OPS MAX)); [|done|].
    - intros tag t s0. apply LRU_set_after_distinct.
    - eapply Forall_impl;
        [exact (LRU_CACHE_ctor_sets MAX MAX_SETS _ _ _ _ _ _ _ _ HMAX Ha Hc0)|].
      simpl. intros s0 (Hok & Hd & _). done. }
  destruct (Forall_lookup_1 _ _ _ _ Hall Hs) as [_ Hd]. apply Hd.
Qed.

(** *** Recencies *)

(** What a probe leaves in a slot whose recency is in range. *)
Lemma probe_LRU tag slot n :
  0 <= LRU slot <= n -> n < INT_MAX ->
  (_tag slot = _tag tag -> LRU (probe tag slot) = 0) /\
  (_tag slot <> _tag tag -> LRU (probe tag slot) = LRU slot + 1).
Proof.
  intros Hslot Hn. unfold INT_MAX in Hn. unfold probe, CACHE_TAG_eqb.
  destruct (Z.eqb_spec (_tag slot) (_tag tag)); simpl.
  - split; [done|]. intros Hne. done.
  - split; [done|]. intros _. apply INT32_of_small. lia.
Qed.

Lemma LRU_Find_aged tag s n :
  n < INT_MAX -> LRU_aged n s ->
  LRU_aged (n + 1) (snd (CACHE_SET.LRU.Find tag s)).
Proof.
  intros Hn Hg i x. rewrite LRU_Find.Find_active. intros Hi Hx.
  apply LRU_Find_slot in Hx as (x0 & Hx0 & ->); [|done].
  pose proof (Hg i x0 Hi Hx0) as Hr.
  destruct (probe_LRU tag x0 n Hr Hn) as [Heq Hne].
  destruct (decide (_tag x0 = _tag tag)) as [He|He].
  - rewrite (Heq He). lia.
  - rewrite (Hne He). lia.
Qed.

Lemma LRU_Replace_aged tag s n :
  LRU_ok s -> 0 <= n -> LRU_aged n s -> LRU_aged n (CACHE_SET.LRU.Replace tag s).
Proof.
  intros Hok Hn Hg. destruct (LRU_Replace_insert tag s Hok) as (v & Hv & ->).
  destruct Hok as [_ [_ Hlen]].
  intros i x. unfold CACHE_SET.LRU.active. simpl.
  fold (CACHE_SET.LRU.active s). intros Hi.
  destruct (decide (i = v)) as [->|Hiv].
  - rewrite list_lookup_insert_eq by lia. intros [= <-]. simpl. lia.
  - rewrite list_lookup_insert_ne by lia. by apply Hg.
Qed.

Lemma LRU_aged_mono s n : LRU_aged n s -> LRU_aged (n + 1) s.
Proof. intros Hg i x Hi Hx. pose proof (Hg i x Hi Hx). lia. Qed.

Lemma LRU_set_after_active MAX STORE_ALLOCATION tag t s :
  LRU_ok s ->
  CACHE_SET.LRU.active (@set_after _ (LRU_OPS MAX) STORE_ALLOCATION tag t s)
  = CACHE_SET.LRU.active s.
Proof.
  intros Hok. unfold set_after. simpl. destruct (allocates _ _ _).
  - destruct (LRU_Replace_insert tag _ (LRU_Find_ok tag s Hok)) as (v & _ & ->).
    unfold CACHE_SET.LRU.active. simpl. by rewrite LRU_Find.Find_last.
  - apply LRU_Find.Find_active.
Qed.

Lemma LRU_set_after_aged MAX STORE_ALLOCATION tag t s n :
  0 <= n < INT_MAX -> LRU_ok s -> LRU_aged n s ->
  LRU_aged (n + 1) (@set_after _ (LRU_OPS MAX) STORE_ALLOCATION tag t s).
Proof.
  intros Hn Hok Hg. unfold set_after. simpl. destruct (allocates _ _ _).
  - apply LRU_Replace_aged; [by apply LRU_Find_ok|lia|].
    apply LRU_Find_aged; [lia|done].
  - apply LRU_Find_aged; [lia|done].
Qed.

(** The invariant carried along a sequence of accesses: the recencies are
    bounded by the number of accesses made, and every set has at least [k]
    active slots. *)
Lemma LRU_run_aged MAX MAX_SETS STORE_ALLOCATION
    name cs ls a l2cs l2ls l2a (c0 c : CACHE CACHE_SET.LRU.t) accs :
  1 <= MAX <= 2 ^ 31 -> 0 <= a ->
  @CACHE_ctor _ (LRU_OPS MAX) MAX_SETS name cs ls a l2cs l2ls l2a = Some c0 ->
  @run _ (LRU_OPS MAX) STORE_ALLOCATION accs c0 = Some c ->
  Z.of_nat (length accs) <= INT_MAX ->
  Forall (fun s => LRU_ok s /\ LRU_aged (Z.of_nat (length accs)) s /\
                   (Z.to_nat (Z.min a MAX) <= CACHE_SET.LRU.active s)%nat)
         (_sets c).
Proof.
  intros HMAX Ha Hc0 Hrun Hlen.
  pose proof (LRU_CACHE_ctor_sets MAX MAX_SETS _ _ _ _ _ _ _ _ HMAX Ha Hc0) as H0.
  apply (@run_Forall_counted _ (LRU_OPS MAX) STORE_ALLOCATION
           (fun n s => LRU_ok s /\ LRU_aged n s /\
                       (Z.to_nat (Z.min a MAX) <= CACHE_SET.LRU.active s)%nat)
           INT_MAX accs c0 c 0).
  - intros n s (Hok & Hg & Hact). split; [done|].
    split; [by apply LRU_aged_mono|done].
  - intros n tag t s Hn (Hok & Hg & Hact). split.
    { by apply (@set_after_ok _ (LRU_OPS MAX) LRU_VIEW LRU_OK
                  (LRU_ALLOC_LAWS MAX HMAX)). }
    split; [by apply LRU_set_after_aged|].
    by rewrite LRU_set_after_active.
  - done.
  - lia.
  - lia.
  - eapply Forall_impl; [exact H0|]. simpl. intros s (Hok & _ & Hg & Hact). done.
Qed.

(** X9.  In a cache of associative sets, after [n] single-line accesses on a
    constructed cache ([n] at most [INT_MAX]), the recency of every active
    slot lies between 0 and [n]: no recency counter has overflowed its
    [int]. *)
Theorem LRU_recency_bounded (MAX MAX_SETS : Z)
    (STORE_ALLOCATION : CACHE_ALLOC.STORE_ALLOCATION)
    name cs ls a l2cs l2ls l2a (c0 c : CACHE CACHE_SET.LRU.t)
    (accs : list (Z * ACCESS_TYPE)) :
  1 <= MAX <= 2 ^ 31 -> 0 <= a ->
  @CACHE_ctor _ (LRU_OPS MAX) MAX_SETS name cs ls a l2cs l2ls l2a = Some c0 ->
  @run _ (LRU_OPS MAX) STORE_ALLOCATION accs c0 = Some c ->
  Z.of_nat (length accs) <= INT_MAX ->
  forall idx s i slot,
    _sets c !! idx = Some s ->
    (i < CACHE_SET.LRU.active s)%nat -> CACHE_SET.LRU._tags s !! i = Some slot ->
    0 <= LRU slot <= Z.of_nat (length accs).
Proof.
  intros HMAX Ha Hc0 Hrun Hlen idx s i slot Hs.
  pose proof (LRU_run_aged MAX MAX_SETS STORE_ALLOCATION _ _ _ _ _ _ _ _ _ _
                HMAX Ha Hc0 Hrun Hlen) as Hall.
  destruct (Forall_lookup_1 _ _ _ _ Hall Hs) as (_ & Hg & _). apply Hg.
Qed.

(** *** The line accessed last *)



(** The slots of a set after a [Find], from those before it. *)
Lemma LRU_Find_probe tag s n i x0 :
  LRU_aged n s -> n < INT_MAX ->
  (i < CACHE_SET.LRU.active s)%nat -> CACHE_SET.LRU._tags s !! i = Some x0 ->
  CACHE_SET.LRU._tags (snd (CACHE_SET.LRU.Find tag s)) !! i = Some (probe tag x0) /\
  _tag (probe tag x0) = _tag x0 /\
  (_tag x0 = _tag tag -> LRU (probe tag x0) = 0) /\
  (_tag x0 <> _tag tag -> LRU (probe tag x0) = LRU x0 + 1).
Proof.
  intros Hg Hn Hi Hx0. rewrite LRU_Find.Find_lookup_active, Hx0 by done.
  split; [done|]. split; [apply LRU_Find.probe_tag|].
  apply (probe_LRU tag x0 n); [by apply (Hg i)|done].
Qed.




(** ** The cache: what an access leaves alone *)

(** X11.  A single-line access writes one set only: every set but the one
    the address indexes is as before, as are the number of sets, the
    second-level sets and counters, and the geometry; the index it used is
    inside [_sets]. *)
Theorem AccessSingleLine_frame {SET : Type} {ops : SET_OPS SET}
    (STORE_ALLOCATION : CACHE_ALLOC.STORE_ALLOCATION)
    (c c' : CACHE SET) (addr : Z) (t : ACCESS_TYPE) (hit : bool) :
  AccessSingleLine STORE_ALLOCATION c addr t = Some (hit, c') ->
  (index_of c addr < length (_sets c))%nat /\
  (forall i, i <> index_of c addr -> _sets c' !! i = _sets c !! i) /\
  length (_sets c') = length (_sets c) /\
  _l2_sets c' = _l2_sets c /\
  _l2_access (base c') = _l2_access (base c) /\
  same_geometry (base c) (base c').
Proof.
  rewrite AccessSingleLine_eq.
  destruct (_sets c !! index_of c addr) as [set|] eqn:Hset; [|done].
  intros [= _ <-]. simpl. split; [apply lookup_lt_is_Some; eauto|].
  split; [intros i Hi; by rewrite list_lookup_insert_ne|].
  split; [by rewrite length_insert|]. split; [done|]. split; [done|].
  apply count_access_geometry.
Qed.

(** X12.  The store policy matters on store misses only.  Under
    [STORE_ALLOCATE] and under [STORE_NO_ALLOCATE] a single-line access
    returns the same result and counts the same; for a load, and for a store
    that hits, it leaves the same cache. *)
Theorem store_policy_on_store_miss_only {SET : Type} {ops : SET_OPS SET}
    (c : CACHE SET) (addr : Z) (t : ACCESS_TYPE) :
  match AccessSingleLine CACHE_ALLOC.STORE_ALLOCATE c addr t,
        AccessSingleLine CACHE_ALLOC.STORE_NO_ALLOCATE c addr t with
  | Some (hit, c1), Some (hit', c2) =>
      hit = hit' /\ base c1 = base c2 /\ _l2_sets c1 = _l2_sets c2 /\
      (t = ACCESS_TYPE_LOAD \/ hit = true -> c1 = c2)
  | None, None => True
  | _, _ => False
  end.
Proof.
  rewrite !AccessSingleLine_eq.
  destruct (_sets c !! index_of c addr) as [set|]; [|done].
  split; [done|]. split; [done|]. split; [done|].
  intros Hkind. do 2 f_equal. unfold set_after, allocates.
  destruct Hkind as [-> | ->]; [|done].
  by destruct (fst (Find (tag_of c addr) set)).
Qed.

(** X13.  The second level is never used: after any sequence of single-line
    accesses on a constructed cache, the second-level sets are those the
    constructor left and every second-level counter is 0, whatever was
    accessed. *)
Theorem second_level_untouched {SET : Type} {ops : SET_OPS SET}
    (MAX_SETS : Z) (STORE_ALLOCATION : CACHE_ALLOC.STORE_ALLOCATION)
    name cs ls a l2cs l2ls l2a (c0 c : CACHE SET)
    (accs : list (Z * ACCESS_TYPE)) :
  CACHE_ctor MAX_SETS name cs ls a l2cs l2ls l2a = Some c0 ->
  run STORE_ALLOCATION accs c0 = Some c ->
  _l2_sets c = _l2_sets c0 /\
  forall t, l2_Hits_of (base c) t = 0 /\ l2_Misses_of (base c) t = 0 /\
            l2_Accesses_of (base c) t = 0.
Proof.
  intros Hc0 Hrun.
  assert (Hkeep : _l2_sets c = _l2_sets c0 /\
                  _l2_access (base c) = _l2_access (base c0)).
  { clear Hc0. revert c0 Hrun.
    induction accs as [|[addr t] rest IH]; intros c0; simpl.
    - by intros [= <-].
    - destruct (AccessSingleLine _ c0 addr t) as [r|] eqn:Hr; simpl; [|done].
      intros Hrun. destruct (IH _ Hrun) as [Hs Ha].
      apply AccessSingleLine_geometry in Hr as (_ & _ & Hs' & Ha').
      split; congruence. }
  destruct Hkeep as [Hs Ha]. split; [done|]. intros t.
  apply CACHE_ctor_inv in Hc0 as (Hb & _).
  apply CACHE_BASE_ctor_inv in Hb as (_ & _ & _ & _ & _ & _ & _ & _ & Hzero).
  unfold l2_Accesses_of, l2_Hits_of, l2_Misses_of. rewrite Ha, Hzero.
  by destruct t.
Qed.

(** X14.  A cache smaller than one set: when [cacheSize] is below
    [associativity * lineSize] the constructor accepts it with a set count of
    0 and a mask of all ones, and then a single-line access indexes [_sets]
    with the low 32 bits of the line number: it is outside the array exactly
    when that value is [MAX_SETS] or more. *)
Theorem zero_sets_index_outside {SET : Type} {ops : SET_OPS SET}
    (MAX_SETS : Z) (STORE_ALLOCATION : CACHE_ALLOC.STORE_ALLOCATION)
    name cs ls a l2cs l2ls l2a (c : CACHE SET) (addr : Z) (t : ACCESS_TYPE) :
  CACHE_ctor MAX_SETS name cs ls a l2cs l2ls l2a = Some c ->
  0 <= cs < UINT32_of (a * ls) -> 0 <= MAX_SETS -> 0 <= addr ->
  NumSets (base c) = 0 /\ _setIndexMask (base c) = 2 ^ 32 - 1 /\
  (AccessSingleLine STORE_ALLOCATION c addr t = None <->
   MAX_SETS <= Z.shiftr addr (_lineShift (base c)) mod 2 ^ 32).
Proof.
  intros Hc Hcs HM Haddr.
  pose proof (CACHE_ctor_length _ _ _ _ _ _ _ _ _ Hc) as Hlen.
  apply CACHE_ctor_inv in Hc as (Hb & _).
  apply CACHE_BASE_ctor_inv in Hb as (_ & _ & _ & _ & Hm & _).
  apply index_mask_inv in Hm as [_ Hm].
  rewrite Z.div_small in Hm by lia.
  assert (Hmask : _setIndexMask (base c) = 2 ^ 32 - 1) by (rewrite Hm; reflexivity).
  split; [unfold NumSets; by rewrite Hmask|]. split; [done|].
  rewrite AccessSingleLine_eq.
  assert (Hidx : Z.of_nat (index_of c addr)
                 = Z.shiftr addr (_lineShift (base c)) mod 2 ^ 32).
  { unfold index_of, SplitAddress, to_ADDRINT. simpl. rewrite Hmask.
    replace (2 ^ 32 - 1) with (Z.ones 32) by reflexivity.
    rewrite Z.land_ones by lia.
    assert (0 <= Z.shiftr addr (_lineShift (base c)) mod 2 ^ 32 < 2 ^ 32)
      by (apply Z.mod_pos_bound; lia).
    rewrite UINT32_of_small by done. lia. }
  rewrite <- Hidx.
  destruct (_sets c !! index_of c addr) as [set|] eqn:Hset.
  - split; [done|]. intros Hge.
    assert (index_of c addr < length (_sets c))%nat
      by (apply lookup_lt_is_Some; eauto).
    lia.
  - split; [|done]. intros _. apply lookup_ge_None in Hset. lia.
Qed.

(** ** The set classes: configuration *)

(** X15.  [SetAssociativity] and [GetAssociativity].  On an associative set,
    [SetAssociativity(k)] succeeds exactly when [k] is at most
    [MAX_ASSOCIATIVITY]; it keeps every stored tag, and [GetAssociativity]
    then returns [k].  On a direct-mapped set it succeeds exactly for
    [k = 1], leaves the set as it is, and [GetAssociativity] returns 1. *)
Theorem SetAssociativity_GetAssociativity (MAX k k' : Z) :
  is_UINT32 k ->
  (forall s : CACHE_SET.LRU.t,
     (k <= MAX ->
      exists s', CACHE_SET.LRU.SetAssociativity MAX k s = Some s' /\
        CACHE_SET.LRU._tags s' = CACHE_SET.LRU._tags s /\
        CACHE_SET.LRU.GetAssociativity k' s' = k) /\
     (MAX < k -> CACHE_SET.LRU.SetAssociativity MAX k s = None)) /\
  (forall s : CACHE_SET.DIRECT_MAPPED.t,
     (k = 1 -> CACHE_SET.DIRECT_MAPPED.SetAssociativity k s = Some s) /\
     (k <> 1 -> CACHE_SET.DIRECT_MAPPED.SetAssociativity k s = None) /\
     CACHE_SET.DIRECT_MAPPED.GetAssociativity k' s = 1).
Proof.
  intros Hk. split.
  - intros s. unfold CACHE_SET.LRU.SetAssociativity. split.
    + intros Hle. destruct (Z.leb_spec k MAX); [|lia].
      eexists. split; [done|]. split; [done|].
      unfold CACHE_SET.LRU.GetAssociativity, UINT32_of, is_UINT32 in *. simpl.
      rewrite Z.add_mod_idemp_l by lia.
      replace (k - 1 + 1) with k by lia. apply Z.mod_small. lia.
    + intros Hgt. destruct (Z.leb_spec k MAX); [lia|done].
  - intros s. unfold CACHE_SET.DIRECT_MAPPED.SetAssociativity.
    split; [by intros ->|]. split; [|done].
    intros Hne. by destruct (Z.eqb_spec k 1).
Qed.

(** ** The direct-mapped cache *)

(** X16.  A direct-mapped set holds one line.  After a single-line access
    that hit or allocated, an access to an address of the same set hits
    exactly when its tag is the tag of the first access: the line that was
    there before an allocation is gone, and two lines of one set evict each
    other. *)
Theorem DIRECT_MAPPED_holds_one_line
    (STORE_ALLOCATION : CACHE_ALLOC.STORE_ALLOCATION)
    (c c' : CACHE CACHE_SET.DIRECT_MAPPED.t) (addr addr' : Z)
    (t t' : ACCESS_TYPE) (hit : bool) :
  AccessSingleLine STORE_ALLOCATION c addr t = Some (hit, c') ->
  hit = true \/ t = ACCESS_TYPE_LOAD
    \/ STORE_ALLOCATION = CACHE_ALLOC.STORE_ALLOCATE ->
  index_of c addr' = index_of c addr ->
  exists c'',
    AccessSingleLine STORE_ALLOCATION c' addr' t'
    = Some (to_ADDRINT (tag_of c addr) =? to_ADDRINT (tag_of c addr'), c'').
Proof.
  intros Hr Hkind Hidx.
  destruct (AccessSingleLine_index _ _ _ _ _ addr' Hr) as [Hidx' Htag'].
  simpl in Hidx', Htag'.
  rewrite AccessSingleLine_eq in Hr.
  destruct (_sets c !! index_of c addr) as [set|] eqn:Hset; [|done].
  injection Hr as Hhit Hc'.
  assert (Hnew : _sets c' !! index_of c' addr'
                 = Some (set_after STORE_ALLOCATION (tag_of c addr) t set)).
  { rewrite Hidx', Hidx, <- Hc'. cbn [_sets].
    apply list_lookup_insert_eq. apply lookup_lt_is_Some. eauto. }
  rewrite AccessSingleLine_eq, Hnew, Htag'.
  eexists. do 2 f_equal.
  unfold set_after, allocates. cbn [Find Replace DIRECT_MAPPED_OPS].
  unfold CACHE_SET.DIRECT_MAPPED.Find, CACHE_SET.DIRECT_MAPPED.Replace.
  cbn [fst snd]. unfold CACHE_TAG_eqb, to_ADDRINT.
  cbn [Find DIRECT_MAPPED_OPS] in Hhit.
  unfold CACHE_SET.DIRECT_MAPPED.Find, CACHE_TAG_eqb in Hhit. cbn [fst] in Hhit.
  destruct (Z.eqb_spec (_tag (CACHE_SET.DIRECT_MAPPED._tag set))
              (_tag (tag_of c addr))) as [Heq|Hneq]; cbn [negb andb].
  - by rewrite Heq.
  - assert (Halloc : ACCESS_TYPE_eqb t ACCESS_TYPE_LOAD
                     || match STORE_ALLOCATION with
                        | CACHE_ALLOC.STORE_ALLOCATE => true
                        | CACHE_ALLOC.STORE_NO_ALLOCATE => false
                        end = true).
    { destruct Hkind as [Hh|[-> | ->]]; [congruence|done|apply orb_true_r]. }
    rewrite Halloc. done.
Qed.

(** ** The constructor of [CACHE] *)

Section CACHE_acceptance.

Context {SET : Type} {ops : SET_OPS SET}.

(** Configuring the first [n] of [m] default sets has a result exactly when
    the indices stay inside the array and the set class accepts the
    associativity. *)
Lemma configure_sets_accepts (n m : nat) (k : Z) :
  is_Some (configure_sets n k (replicate m SET_default)) <->
  (n <= m)%nat /\ ((1 <= n)%nat -> is_Some (SetAssociativity k SET_default)).
Proof.
  revert m. induction n as [|n IH]; intros m; simpl.
  - split; [|by eauto]. intros _. split; lia.
  - destruct m as [|m]; simpl.
    + split; [by intros [x Hx]|]. lia.
    + specialize (IH m).
      destruct (SetAssociativity k SET_default) as [s'|]; simpl.
      * destruct (configure_sets n k (replicate m SET_default)) as [rest|]; simpl.
        -- split; [|by eauto]. intros _.
           destruct (proj1 IH ltac:(eauto)) as [Hn _]. split; [lia|eauto].
        -- split; [by intros [x Hx]|]. intros [Hle _].
           apply IH. split; [lia|eauto].
      * split; [by intros [x Hx]|]. intros [_ Hk].
        destruct Hk as [x Hx]; [lia|done].
Qed.

End CACHE_acceptance.

(** X17.  What the constructor of [CACHE] accepts, once the base class is
    constructed and where its second loop stays inside [_l2_sets], the
    second-level set count being at most [MAX_SETS] (the constructor asserts
    this of the first level only; past the array the source has no defined
    behaviour, and nothing is said of it here).  The constructor succeeds
    exactly when the set count is at most [MAX_SETS] and, for each level whose
    set count is not 0, the set class accepts the associativity: the
    second-level sets are configured although no access uses them, so the
    second-level associativity can stop the construction.  When the base
    class is not constructed, neither is the cache. *)
Theorem CACHE_ctor_accepts {SET : Type} {ops : SET_OPS SET} (MAX_SETS : Z)
    name cs ls a l2cs l2ls l2a :
  0 <= MAX_SETS ->
  (forall b, CACHE_BASE_ctor name cs ls a l2cs l2ls l2a = Some b ->
     l2_NumSets b <= MAX_SETS ->
     (is_Some (CACHE_ctor MAX_SETS name cs ls a l2cs l2ls l2a) <->
      NumSets b <= MAX_SETS /\
      (1 <= NumSets b -> is_Some (SetAssociativity a SET_default)) /\
      (1 <= l2_NumSets b -> is_Some (SetAssociativity l2a SET_default)))) /\
  (CACHE_BASE_ctor name cs ls a l2cs l2ls l2a = None ->
   CACHE_ctor MAX_SETS name cs ls a l2cs l2ls l2a = None).
Proof.
  intros HM. split.
  - intros b Hb Hl2. unfold CACHE_ctor. rewrite Hb. simpl.
    pose proof (UINT32_of_range (_setIndexMask b + 1)) as Hn.
    pose proof (UINT32_of_range (_l2_setIndexMask b + 1)) as Hn2.
    fold (NumSets b) in Hn. fold (l2_NumSets b) in Hn2. unfold is_UINT32 in *.
    pose proof (configure_sets_accepts (Z.to_nat (NumSets b)) (Z.to_nat MAX_SETS) a)
      as H1.
    pose proof (configure_sets_accepts (Z.to_nat (l2_NumSets b)) (Z.to_nat MAX_SETS) l2a)
      as H2.
    destruct (Z.leb_spec (NumSets b) MAX_SETS) as [Hle|Hgt].
    + destruct (configure_sets (Z.to_nat (NumSets b)) a _) as [sets|]; simpl.
      * destruct (configure_sets (Z.to_nat (l2_NumSets b)) l2a _) as [sets2|]; simpl.
        -- split; [|by eauto]. intros _.
           destruct (proj1 H1 ltac:(eauto)) as [_ Ha1].
           destruct (proj1 H2 ltac:(eauto)) as [_ Ha2].
           split; [done|].
           split; intros Hpos; [apply Ha1|apply Ha2]; lia.
        -- split; [by intros [x Hx]|]. intros (_ & _ & Ha2).
           assert (is_Some (None : option (list SET))) as [x Hx]; [|done].
           apply H2. split; [lia|]. intros Hpos. apply Ha2. lia.
      * split; [by intros [x Hx]|]. intros (_ & Ha1 & _).
        assert (is_Some (None : option (list SET))) as [x Hx]; [|done].
        apply H1. split; [lia|]. intros Hpos. apply Ha1. lia.
    + split; [by intros [x Hx]|]. lia.
  - intros Hb. unfold CACHE_ctor. by rewrite Hb.
Qed.

(** ** The constructors of the set classes *)

(** Storing the default tag in slots that hold it changes nothing. *)
Lemma for_down_store_default (n m : nat) :
  for_down n (fun index tags => <[index := CACHE_TAG_ctor 0]> tags)
    (replicate m (CACHE_TAG_ctor 0))
  = replicate m (CACHE_TAG_ctor 0).
Proof.
  induction n as [|n IH]; simpl; [done|].
  rewrite <- IH at 2. f_equal.
  destruct (decide (n < m)%nat) as [Hlt|Hge].
  - apply list_insert_id. by apply lookup_replicate.
  - apply list_insert_ge. rewrite length_replicate. lia.
Qed.

(** X18.  Constructing a set with an associativity is configuring a default
    set: for both set classes the constructor called with [k] yields what
    [SetAssociativity(k)] yields on a default-constructed set, and fails when
    it fails (the loop of the [LRU] constructor stores default tags in slots
    that hold them, all inside the array).  This is what makes the sets of a
    [CACHE], which are default-constructed and then configured, the sets the
    constructors build. *)
Theorem set_ctor_is_configured_default (MAX k : Z) :
  is_UINT32 k -> 0 <= MAX <= 2 ^ 31 ->
  CACHE_SET.LRU.ctor MAX k
    = CACHE_SET.LRU.SetAssociativity MAX k (CACHE_SET.LRU.default MAX) /\
  (k <= MAX ->
   (Z.to_nat (INT32_of (UINT32_of (k - 1)) + 1) <= Z.to_nat MAX)%nat) /\
  CACHE_SET.DIRECT_MAPPED.ctor k
    = CACHE_SET.DIRECT_MAPPED.SetAssociativity k CACHE_SET.DIRECT_MAPPED.default.
Proof.
  intros Hk HMAX. unfold is_UINT32 in Hk. split; [|split].
  - unfold CACHE_SET.LRU.ctor, CACHE_SET.LRU.SetAssociativity, CACHE_SET.LRU.default.
    destruct (k <=? MAX); [|done]. simpl. do 2 f_equal.
    apply for_down_store_default.
  - intros Hle. destruct (decide (k = 0)) as [->|Hnz].
    { change (INT32_of (UINT32_of (0 - 1))) with (-1). lia. }
    rewrite UINT32_of_small by (unfold is_UINT32; lia).
    rewrite INT32_of_small by lia. lia.
  - unfold CACHE_SET.DIRECT_MAPPED.ctor, CACHE_SET.DIRECT_MAPPED.SetAssociativity.
    done.
Qed.

(** ** The replacement order of the associative sets *)

Lemma since_lt v h d : since v h = Some d -> (d < length h)%nat.
Proof.
  revert d. induction h as [|u rest IH]; intros d; simpl; [done|].
  destruct (u =? v); [intros [= <-]; lia|].
  destruct (since v rest) as [d'|]; simpl; [|done].
  intros [= <-]. specialize (IH d' eq_refl). lia.
Qed.

(** One more access in the history, for a slot the probe has aged or
    reset. *)
Lemma LRU_tracks_probe (h : list Z) (tag x0 : CACHE_TAG) (n : Z) :
  0 <= LRU x0 <= n -> n < INT_MAX ->
  match since (_tag x0) h with
  | Some d => LRU x0 = Z.of_nat d
  | None => Z.of_nat (length h) <= LRU x0
  end ->
  match since (_tag (probe tag x0)) (_tag tag :: h) with
  | Some d => LRU (probe tag x0) = Z.of_nat d
  | None => Z.of_nat (length (_tag tag :: h)) <= LRU (probe tag x0)
  end.
Proof.
  intros Hr Hn Hx0. rewrite LRU_Find.probe_tag.
  destruct (probe_LRU tag x0 n Hr Hn) as [Heq Hne]. simpl since.
  destruct (Z.eqb_spec (_tag tag) (_tag x0)) as [He|He].
  - rewrite Heq by done. done.
  - rewrite Hne by congruence.
    destruct (since (_tag x0) h) as [d|]; simpl; lia.
Qed.

Lemma LRU_set_after_ok MAX STORE_ALLOCATION tag t s :
  LRU_ok s -> LRU_ok (@set_after _ (LRU_OPS MAX) STORE_ALLOCATION tag t s).
Proof.
  intros Hok. unfold set_after. simpl.
  destruct (allocates _ _ _); [apply LRU_Replace_ok|]; by apply LRU_Find_ok.
Qed.

Lemma LRU_set_after_tracks MAX STORE_ALLOCATION tag t s n h :
  LRU_ok s -> LRU_aged n s -> n < INT_MAX -> LRU_tracks h s ->
  LRU_tracks (_tag tag :: h) (@set_after _ (LRU_OPS MAX) STORE_ALLOCATION tag t s).
Proof.
  intros Hok Hg Hn Htr.
  assert (Hfind : LRU_tracks (_tag tag :: h) (snd (CACHE_SET.LRU.Find tag s))).
  { intros i x. rewrite LRU_Find.Find_active. intros Hi Hx.
    apply LRU_Find_slot in Hx as (x0 & Hx0 & ->); [|done].
    apply (LRU_tracks_probe h tag x0 n); [by apply (Hg i)|done|by apply (Htr i)]. }
  unfold set_after. simpl. destruct (allocates _ _ _); [|done].
  pose proof (LRU_Find_ok tag s Hok) as Hok1.
  destruct (LRU_Replace_insert tag _ Hok1) as (v & Hv & ->).
  destruct Hok1 as [_ [_ Hlen1]].
  intros i x. unfold CACHE_SET.LRU.active. simpl.
  fold (CACHE_SET.LRU.active (snd (CACHE_SET.LRU.Find tag s))). intros Hi.
  destruct (decide (i = v)) as [->|Hiv].
  - rewrite list_lookup_insert_eq by lia. intros [= <-]. simpl.
    by rewrite Z.eqb_refl.
  - rewrite list_lookup_insert_ne by lia. by apply Hfind.
Qed.

Lemma set_history_geometry b b' idx accs h :
  same_geometry b b' -> set_history b' idx accs h = set_history b idx accs h.
Proof.
  intros Hg. revert h.
  induction accs as [|[addr t] rest IH]; intros h; cbn [set_history]; [done|].
  by rewrite (same_geometry_SplitAddress _ _ _ _ Hg), IH.
Qed.

(** Along a sequence of accesses, the recencies of every set follow the
    history of the set. *)
Lemma LRU_run_tracks MAX STORE_ALLOCATION accs :
  forall (c c' : CACHE CACHE_SET.LRU.t) (n : Z) (H : nat -> list Z),
    (forall idx s, _sets c !! idx = Some s ->
       LRU_ok s /\ LRU_aged n s /\ LRU_tracks (H idx) s) ->
    0 <= n -> n + Z.of_nat (length accs) <= INT_MAX ->
    @run _ (LRU_OPS MAX) STORE_ALLOCATION accs c = Some c' ->
    forall idx s, _sets c' !! idx = Some s ->
      LRU_ok s /\ LRU_aged (n + Z.of_nat (length accs)) s /\
      LRU_tracks (set_history (base c) idx accs (H idx)) s.
Proof.
  induction accs as [|[addr t] rest IH]; intros c c' n H Hinv Hn Hlen.
  - simpl. intros [= <-]. by rewrite Z.add_0_r.
  - intros Hrun idx s Hs. cbn [run] in Hrun.
    assert (Hn' : n + 1 + Z.of_nat (length rest) <= INT_MAX)
      by (simpl length in Hlen; lia).
    destruct (AccessSingleLine _ c addr t) as [r|] eqn:Hr; [|done].
    destruct (@AccessSingleLine_geometry _ (LRU_OPS MAX) _ _ _ _ _ Hr) as (Hg & _).
    rewrite (@AccessSingleLine_eq _ (LRU_OPS MAX)) in Hr.
    destruct (_sets c !! index_of c addr) as [set|] eqn:Hset; [|done].
    injection Hr as <-. cbn [mbind option_bind snd base] in Hrun, Hg.
    replace (n + Z.of_nat (length ((addr, t) :: rest)))
      with (n + 1 + Z.of_nat (length rest)) by (simpl length; lia).
    cbn [set_history]. fold (index_of c addr). fold (tag_of c addr).
    rewrite <- (set_history_geometry _ _ idx rest _ Hg).
    refine (IH {| base := _; _sets := _; _l2_sets := _ |} c' (n + 1)
             (fun idx => if Nat.eqb (index_of c addr) idx
                         then to_ADDRINT (tag_of c addr) :: H idx else H idx)
             _ _ _ Hrun idx s Hs);
      [|lia|lia].
    intros idx' s' Hs'. cbn [_sets] in Hs'.
    destruct (Hinv _ _ Hset) as (Hok & Hag & Htr).
    destruct (Nat.eqb_spec (index_of c addr) idx') as [<-|Hne].
    + rewrite list_lookup_insert_eq in Hs' by (apply lookup_lt_is_Some; eauto).
      injection Hs' as <-.
      split; [by apply LRU_set_after_ok|].
      split; [apply LRU_set_after_aged; [lia|done..]|].
      apply (LRU_set_after_tracks MAX STORE_ALLOCATION _ t set n); [done..|lia|done].
    + rewrite list_lookup_insert_ne in Hs' by done.
      destruct (Hinv _ _ Hs') as (Hok' & Hag' & Htr').
      split; [done|]. split; [by apply LRU_aged_mono|done].
Qed.

(** X19.  The associative set replaces the least recently used line.  In a
    constructed cache, after a sequence of fewer than [INT_MAX] single-line
    accesses, take an access that misses in its set: the slot [Replace]
    selects is an active one, and if the line it holds was accessed before,
    then every line of the set was accessed, and no earlier than it: none of
    the lines that stay is older than the one replaced.  (A line never
    accessed, as the default tags of a fresh set, goes before every accessed
    one.)  The history of a set lists the tag values of the accesses that
    indexed it, of either type and whatever their result. *)
Theorem LRU_victim_least_recent (MAX MAX_SETS : Z)
    (STORE_ALLOCATION : CACHE_ALLOC.STORE_ALLOCATION)
    name cs ls a l2cs l2ls l2a (c0 c : CACHE CACHE_SET.LRU.t)
    (accs : list (Z * ACCESS_TYPE)) (addr : Z) (s : CACHE_SET.LRU.t) :
  1 <= MAX <= 2 ^ 31 -> 0 <= a ->
  @CACHE_ctor _ (LRU_OPS MAX) MAX_SETS name cs ls a l2cs l2ls l2a = Some c0 ->
  @run _ (LRU_OPS MAX) STORE_ALLOCATION accs c0 = Some c ->
  Z.of_nat (length accs) < INT_MAX ->
  _sets c !! index_of c addr = Some s ->
  fst (CACHE_SET.LRU.Find (tag_of c addr) s) = false ->
  exists j evicted,
    (j < CACHE_SET.LRU.active s)%nat /\
    CACHE_SET.LRU._tags s !! j = Some evicted /\
    CACHE_SET.LRU.victim (snd (CACHE_SET.LRU.Find (tag_of c addr) s)) = Z.of_nat j /\
    forall d,
      since (to_ADDRINT evicted) (set_history (base c0) (index_of c addr) accs [])
        = Some d ->
      forall i kept,
        (i < CACHE_SET.LRU.active s)%nat ->
        CACHE_SET.LRU._tags s !! i = Some kept ->
        exists d',
          since (to_ADDRINT kept) (set_history (base c0) (index_of c addr) accs [])
            = Some d' /\
          (d' <= d)%nat.
Proof.
  intros HMAX Ha Hc0 Hrun Hlen Hs Hmiss.
  set (tag := tag_of c addr) in *.
  set (h := set_history (base c0) (index_of c addr) accs []).
  assert (Hinv : LRU_ok s /\ LRU_aged (0 + Z.of_nat (length accs)) s /\
                 LRU_tracks h s).
  { apply (LRU_run_tracks MAX STORE_ALLOCATION accs c0 c 0 (fun _ => []));
      [|lia|lia|done|done].
    intros idx s0 Hs0.
    pose proof (LRU_CACHE_ctor_sets MAX MAX_SETS _ _ _ _ _ _ _ _ HMAX Ha Hc0) as H0.
    destruct (Forall_lookup_1 _ _ _ _ H0 Hs0) as (Hok & _ & Hg & _).
    split; [done|]. split; [done|].
    intros i slot Hi Hslot. simpl. apply (Hg i slot Hi Hslot). }
  destruct Hinv as (Hok & Hg & Htr). rewrite Z.add_0_l in Hg.
  set (n := Z.of_nat (length accs)) in *.
  pose proof (LRU_Find_ok tag s Hok) as Hok1.
  pose proof (LRU_Find_aged tag s n Hlen Hg) as Hg1.
  assert (Hslots : forall i x0, (i < CACHE_SET.LRU.active s)%nat ->
            CACHE_SET.LRU._tags s !! i = Some x0 ->
            CACHE_SET.LRU._tags (snd (CACHE_SET.LRU.Find tag s)) !! i
              = Some (probe tag x0) /\
            LRU (probe tag x0) = LRU x0 + 1).
  { intros i x0 Hi Hx0.
    destruct (LRU_Find_probe tag s n i x0 Hg Hlen Hi Hx0) as (Hl & _ & _ & H1).
    split; [done|]. apply H1. intros Heq.
    assert (fst (CACHE_SET.LRU.Find tag s) = true); [|congruence].
    apply LRU_Find.Find_result. by exists i, x0. }
  destruct (LRU_Replace.victim_spec (snd (CACHE_SET.LRU.Find tag s)))
    as (j & slot & Hv & Hj & Hslot & Hmax & _).
  { apply Hok1. }
  { apply Hok1. }
  { intros i x Hi Hx. pose proof (Hg1 i x Hi Hx). lia. }
  rewrite LRU_Find.Find_active in Hj, Hmax.
  destruct Hok as [_ [_ Hlen0]].
  destruct (lookup_lt_is_Some_2 (CACHE_SET.LRU._tags s) j) as [evicted Hev]; [lia|].
  exists j, evicted. split; [done|]. split; [done|]. split; [done|].
  intros d Hd i kept Hi Hkept.
  destruct (Hslots j evicted Hj Hev) as [Hlj Hrj].
  destruct (Hslots i kept Hi Hkept) as [Hli Hri].
  assert (slot = probe tag evicted) by congruence. subst slot.
  pose proof (Hmax i (probe tag kept) Hi Hli) as Hle.
  pose proof (Htr j evicted Hj Hev) as Htj.
  pose proof (Htr i kept Hi Hkept) as Hti.
  unfold to_ADDRINT in *. rewrite Hd in Htj.
  apply since_lt in Hd.
  destruct (since (_tag kept) h) as [d'|].
  - exists d'. split; [done|]. lia.
  - lia.
Qed.


(** ** The further properties on concrete values and caches *)


(** X1 at 64, a power of two. *)
Lemma IsPower2_zero_or_power_witness :
  is_UINT32 64 /\
  (IsPower2 64 = true <-> 64 = 0 \/ exists k, 0 <= k < 32 /\ 64 = 2 ^ k).
Proof.
  assert (H : is_UINT32 64) by (unfold is_UINT32; lia).
  split; [exact H|]. exact (IsPower2_zero_or_power 64 H).
Defined.

(** X2 at 100: the result is 6. *)
Lemma FloorLog2_floor_witness :
  is_UINT32 100 /\ FloorLog2 100 = 6 /\
  2 ^ FloorLog2 100 <= 100 < 2 ^ (FloorLog2 100 + 1).
Proof.
  assert (H : is_UINT32 100) by (unfold is_UINT32; lia).
  split; [exact H|]. split; [reflexivity|].
  apply (proj2 (FloorLog2_floor 100 H)). lia.
Defined.

(** X3 at 100: the result is 7. *)
Lemma CeilLog2_ceiling_witness :
  is_UINT32 100 /\ CeilLog2 100 = 7 /\
  2 ^ (CeilLog2 100 - 1) < 100 <= 2 ^ CeilLog2 100.
Proof.
  assert (H : is_UINT32 100) by (unfold is_UINT32; lia).
  split; [exact H|]. split; [reflexivity|].
  apply (proj2 (proj2 (CeilLog2_ceiling 100 H))). lia.
Defined.

(** X4 on the 32KB four-way cache with 64-byte lines, at 0x1234. *)
Lemma SplitAddress_line_number_witness :
  exists b, CACHE_BASE_ctor "dl1" (32 * KILO) 64 4 (32 * KILO) 64 4 = Some b /\
    SplitAddress b 0x1234 1
    = (CACHE_TAG_ctor (0x1234 / LineSize b), (0x1234 / LineSize b) mod NumSets b).
Proof.
  eexists. split; [reflexivity|].
  apply (SplitAddress_line_number "dl1"%string (32 * KILO) 64 4 (32 * KILO) 64 4).
  - reflexivity.
  - unfold is_UINT32. lia.
  - vm_compute. discriminate.
  - lia.
Defined.

(** X5 on the same cache, at 0x1234: tag 0x48, set 72, offset 0x34. *)
Lemma SplitAddress_line_index_witness :
  exists b, CACHE_BASE_ctor "dl1" (32 * KILO) 64 4 (32 * KILO) 64 4 = Some b /\
    SplitAddress_line b 0x1234 1 = Some (CACHE_TAG_ctor 0x48, 72, 0x34) /\
    exists tag setIndex lineIndex,
      SplitAddress_line b 0x1234 1 = Some (tag, setIndex, lineIndex) /\
      (tag, setIndex) = SplitAddress b 0x1234 1 /\
      lineIndex = 0x1234 mod LineSize b /\ 0 <= lineIndex < LineSize b /\
      0x1234 = to_ADDRINT tag * LineSize b + lineIndex.
Proof.
  eexists. split; [reflexivity|]. split; [reflexivity|].
  apply (proj1 (SplitAddress_line_index "dl1"%string (32 * KILO) 64 4
                  (32 * KILO) 64 4 _ 0x1234 1 eq_refl
                  ltac:(unfold is_UINT32; lia) ltac:(lia))).
  by right.
Defined.

(** X6 on the geometry of the same cache. *)
Lemma CACHE_BASE_ctor_accepts_witness :
  is_UINT32 (32 * KILO) /\ is_UINT32 64 /\
  (is_Some (CACHE_BASE_ctor "dl1" (32 * KILO) 64 4 (32 * KILO) 64 4) <->
   (exists k, 0 <= k < 32 /\ 64 = 2 ^ k) /\
   UINT32_of (4 * 64) <> 0 /\
   (32 * KILO / UINT32_of (4 * 64) = 0 \/
    exists j, 0 <= j < 32 /\ 32 * KILO / UINT32_of (4 * 64) = 2 ^ j) /\
   UINT32_of (4 * 64) <> 0).
Proof.
  assert (H1 : is_UINT32 (32 * KILO)) by (unfold is_UINT32, KILO; lia).
  assert (H2 : is_UINT32 64) by (unfold is_UINT32; lia).
  split; [exact H1|]. split; [exact H2|].
  exact (CACHE_BASE_ctor_accepts "dl1"%string (32 * KILO) 64 4 (32 * KILO) 64 4 H1 H2).
Defined.

(** X7 on a two-set four-way cache: a load that misses at 0x1040, then a
    store to another byte of the line. *)
Lemma allocated_line_hits_next_witness :
  exists c0,
    @CACHE_ctor _ (LRU_OPS 4) 2 "two sets" 512 64 4 512 64 4 = Some c0 /\
    exists c',
    @AccessSingleLine _ (LRU_OPS 4) CACHE_ALLOC.STORE_NO_ALLOCATE c0 0x1040
      ACCESS_TYPE_LOAD = Some (false, c') /\
    exists c'',
    @AccessSingleLine _ (LRU_OPS 4) CACHE_ALLOC.STORE_NO_ALLOCATE c' 0x107f
      ACCESS_TYPE_STORE = Some (true, c'').
Proof.
  exists_built.
  lazymatch goal with
  | |- exists c', AccessSingleLine _ ?c0 _ _ = _ /\ _ =>
      exists_built;
      lazymatch goal with
      | |- exists c'', AccessSingleLine _ ?c' _ _ = _ =>
          apply (@allocated_line_hits_next _ (LRU_OPS 4) LRU_VIEW
                   (LRU_LAWS 4 four_ways) LRU_OK (LRU_ALLOC_LAWS 4 four_ways)
                   2 CACHE_ALLOC.STORE_NO_ALLOCATE
                   "two sets"%string 512 64 4 512 64 4 c0 c0 c' [] 0x1040 0x107f
                   ACCESS_TYPE_LOAD ACCESS_TYPE_STORE false)
      end
  end.
  - vm_compute. reflexivity.
  - unfold is_UINT32. lia.
  - lia.
  - reflexivity.
  - vm_compute. reflexivity.
  - right. by left.
  - lia.
  - lia.
  - reflexivity.
Defined.

(** X8 and X9 on the same cache after four loads. *)
Lemma LRU_no_duplicate_tag_witness :
  exists c0,
    @CACHE_ctor _ (LRU_OPS 4) 2 "two sets" 512 64 4 512 64 4 = Some c0 /\
    exists c,
    @run _ (LRU_OPS 4) CACHE_ALLOC.STORE_ALLOCATE
      [(0x1040, ACCESS_TYPE_LOAD); (0x2040, ACCESS_TYPE_LOAD);
       (0x1040, ACCESS_TYPE_STORE); (0x3040, ACCESS_TYPE_LOAD)] c0 = Some c /\
    forall idx s i j x y,
      _sets c !! idx = Some s ->
      (i < CACHE_SET.LRU.active s)%nat -> (j < CACHE_SET.LRU.active s)%nat ->
      CACHE_SET.LRU._tags s !! i = Some x -> CACHE_SET.LRU._tags s !! j = Some y ->
      to_ADDRINT x = to_ADDRINT y -> to_ADDRINT x <> 0 -> i = j.
Proof.
  exists_built.
  lazymatch goal with
  | |- exists c, run _ ?accs ?c0 = _ /\ _ =>
      exists_built;
      lazymatch goal with
      | |- forall idx s i j x y, _sets ?c !! idx = Some s -> _ =>
          apply (LRU_no_duplicate_tag 4 2 CACHE_ALLOC.STORE_ALLOCATE
                   "two sets"%string 512 64 4 512 64 4 c0 c accs four_ways)
      end
  end.
  - lia.
  - vm_compute. reflexivity.
  - vm_compute. reflexivity.
Defined.

Lemma LRU_recency_bounded_witness :
  exists c0,
    @CACHE_ctor _ (LRU_OPS 4) 2 "two sets" 512 64 4 512 64 4 = Some c0 /\
    exists c,
    @run _ (LRU_OPS 4) CACHE_ALLOC.STORE_ALLOCATE
      [(0x1040, ACCESS_TYPE_LOAD); (0x2040, ACCESS_TYPE_LOAD);
       (0x1040, ACCESS_TYPE_STORE); (0x3040, ACCESS_TYPE_LOAD)] c0 = Some c /\
    forall idx s i slot,
      _sets c !! idx = Some s ->
      (i < CACHE_SET.LRU.active s)%nat -> CACHE_SET.LRU._tags s !! i = Some slot ->
      0 <= LRU slot <= 4.
Proof.
  exists_built.
  lazymatch goal with
  | |- exists c, run _ ?accs ?c0 = _ /\ _ =>
      exists_built;
      lazymatch goal with
      | |- forall idx s i slot, _sets ?c !! idx = Some s -> _ =>
          apply (LRU_recency_bounded 4 2 CACHE_ALLOC.STORE_ALLOCATE
                   "two sets"%string 512 64 4 512 64 4 c0 c accs four_ways)
      end
  end.
  - lia.
  - vm_compute. reflexivity.
  - vm_compute. reflexivity.
  - vm_compute. discriminate.
Defined.


(** X11 on the two-set cache: a load at 0x1040 uses set 1 and leaves set 0. *)
Lemma AccessSingleLine_frame_witness :
  exists c,
    @CACHE_ctor _ (LRU_OPS 4) 2 "two sets" 512 64 4 512 64 4 = Some c /\
    exists c',
    @AccessSingleLine _ (LRU_OPS 4) CACHE_ALLOC.STORE_ALLOCATE c 0x1040
      ACCESS_TYPE_LOAD = Some (false, c') /\
    @index_of _ c 0x1040 = 1%nat /\
    (forall i, i <> 1%nat -> _sets c' !! i = _sets c !! i) /\
    _l2_sets c' = _l2_sets c.
Proof.
  exists_built.
  lazymatch goal with
  | |- exists c', AccessSingleLine _ ?c ?addr ?t = _ /\ _ =>
      exists_built;
      lazymatch goal with
      | |- _ /\ (forall i, _ -> _sets ?c' !! i = _) /\ _ =>
          destruct (@AccessSingleLine_frame _ (LRU_OPS 4)
                      CACHE_ALLOC.STORE_ALLOCATE c c' addr t false)
            as (_ & Hother & _ & Hl2 & _)
      end
  end.
  - vm_compute. reflexivity.
  - split; [reflexivity|]. split; [exact Hother|exact Hl2].
Defined.

(** X13 on the two-set cache after three accesses. *)
Lemma second_level_untouched_witness :
  exists c0,
    @CACHE_ctor _ (LRU_OPS 4) 2 "two sets" 512 64 4 512 64 4 = Some c0 /\
    exists c,
    @run _ (LRU_OPS 4) CACHE_ALLOC.STORE_ALLOCATE
      [(0x1040, ACCESS_TYPE_LOAD); (0x2040, ACCESS_TYPE_STORE);
       (0x1040, ACCESS_TYPE_LOAD)] c0 = Some c /\
    _l2_sets c = _l2_sets c0 /\
    forall t, l2_Hits_of (base c) t = 0 /\ l2_Misses_of (base c) t = 0 /\
              l2_Accesses_of (base c) t = 0.
Proof.
  exists_built.
  lazymatch goal with
  | |- exists c, run _ ?accs ?c0 = _ /\ _ =>
      exists_built;
      lazymatch goal with
      | |- _l2_sets ?c = _ /\ _ =>
          apply (@second_level_untouched _ (LRU_OPS 4) 2 CACHE_ALLOC.STORE_ALLOCATE
                   "two sets"%string 512 64 4 512 64 4 c0 c accs)
      end
  end.
  - vm_compute. reflexivity.
  - vm_compute. reflexivity.
Defined.

(** X14 on a direct-mapped cache of 32 bytes with 64-byte lines and one
    set in the array: the set count is 0, address 0 indexes set 0 and address
    64 indexes set 1, outside the array. *)
Lemma zero_sets_index_outside_witness :
  exists c,
    @CACHE_ctor _ DIRECT_MAPPED_OPS 1 "small" 32 64 1 32 64 1 = Some c /\
    NumSets (base c) = 0 /\
    @AccessSingleLine _ DIRECT_MAPPED_OPS CACHE_ALLOC.STORE_ALLOCATE c 64
      ACCESS_TYPE_LOAD = None /\
    @AccessSingleLine _ DIRECT_MAPPED_OPS CACHE_ALLOC.STORE_ALLOCATE c 0
      ACCESS_TYPE_LOAD <> None.
Proof.
  exists_built.
  lazymatch goal with
  | |- NumSets (base ?c) = 0 /\ _ =>
      destruct (@zero_sets_index_outside _ DIRECT_MAPPED_OPS 1
                  CACHE_ALLOC.STORE_ALLOCATE "small"%string 32 64 1 32 64 1 c 64
                  ACCESS_TYPE_LOAD) as (Hn & _ & Hout)
  end.
  - vm_compute. reflexivity.
  - vm_compute. split; [discriminate|reflexivity].
  - lia.
  - lia.
  - split; [exact Hn|]. split.
    + apply Hout. vm_compute. discriminate.
    + vm_compute. discriminate.
Defined.

(** X15 at associativity 2 of at most 4. *)
Lemma SetAssociativity_GetAssociativity_witness :
  is_UINT32 2 /\
  exists s',
    CACHE_SET.LRU.SetAssociativity 4 2 sample_set = Some s' /\
    CACHE_SET.LRU._tags s' = CACHE_SET.LRU._tags sample_set /\
    CACHE_SET.LRU.GetAssociativity 0 s' = 2.
Proof.
  assert (H : is_UINT32 2) by (unfold is_UINT32; lia).
  split; [exact H|].
  apply (proj1 (proj1 (SetAssociativity_GetAssociativity 4 2 0 H) sample_set)).
  lia.
Defined.

(** X16 on a direct-mapped cache of four sets: the load of 0x100 (tag 4,
    set 0) allocates; 0x13f is in its line and hits, address 0 (tag 0, set 0)
    misses. *)
Lemma DIRECT_MAPPED_holds_one_line_witness :
  exists c,
    @CACHE_ctor _ DIRECT_MAPPED_OPS 4 "direct" 256 64 1 256 64 1 = Some c /\
    exists c',
    @AccessSingleLine _ DIRECT_MAPPED_OPS CACHE_ALLOC.STORE_ALLOCATE c 0x100
      ACCESS_TYPE_LOAD = Some (false, c') /\
    (exists c'',
       @AccessSingleLine _ DIRECT_MAPPED_OPS CACHE_ALLOC.STORE_ALLOCATE c' 0x13f
         ACCESS_TYPE_LOAD = Some (true, c'')) /\
    (exists c'',
       @AccessSingleLine _ DIRECT_MAPPED_OPS CACHE_ALLOC.STORE_ALLOCATE c' 0
         ACCESS_TYPE_LOAD = Some (false, c'')).
Proof.
  exists_built.
  lazymatch goal with
  | |- exists c', AccessSingleLine _ ?c ?addr ?t = _ /\ _ =>
      exists_built;
      lazymatch goal with
      | |- (exists c'', AccessSingleLine _ ?c' _ _ = _) /\ _ =>
          split;
          [ apply (DIRECT_MAPPED_holds_one_line CACHE_ALLOC.STORE_ALLOCATE
                     c c' addr 0x13f t ACCESS_TYPE_LOAD false)
          | apply (DIRECT_MAPPED_holds_one_line CACHE_ALLOC.STORE_ALLOCATE
                     c c' addr 0 t ACCESS_TYPE_LOAD false) ]
      end
  end.
  - vm_compute. reflexivity.
  - right. by left.
  - reflexivity.
  - vm_compute. reflexivity.
  - right. by left.
  - reflexivity.
Defined.

(** X17 for [LRU<4>] and two sets in the array, on the geometry of the
    two-set cache; and on the same with a second level of two sets of
    associativity 8, which [LRU<4>] does not accept: the cache is not
    constructed. *)
Lemma CACHE_ctor_accepts_witness :
  0 <= 2 /\
  (exists b, CACHE_BASE_ctor "two sets" 512 64 4 512 64 4 = Some b /\
     l2_NumSets b <= 2 /\
     (is_Some (@CACHE_ctor _ (LRU_OPS 4) 2 "two sets" 512 64 4 512 64 4) <->
      NumSets b <= 2 /\
      (1 <= NumSets b ->
       is_Some (@SetAssociativity _ (LRU_OPS 4) 4 (@SET_default _ (LRU_OPS 4)))) /\
      (1 <= l2_NumSets b ->
       is_Some (@SetAssociativity _ (LRU_OPS 4) 4 (@SET_default _ (LRU_OPS 4)))))) /\
  (exists b, CACHE_BASE_ctor "wide" 512 64 4 1024 64 8 = Some b /\
     l2_NumSets b = 2 /\
     ~ is_Some (@CACHE_ctor _ (LRU_OPS 4) 2 "wide" 512 64 4 1024 64 8)).
Proof.
  assert (H : 0 <= 2) by lia.
  split; [exact H|]. split.
  - eexists. split; [reflexivity|]. split; [vm_compute; discriminate|].
    apply (proj1 (@CACHE_ctor_accepts _ (LRU_OPS 4) 2 "two sets"%string
                    512 64 4 512 64 4 H)).
    + reflexivity.
    + vm_compute. discriminate.
  - eexists. split; [reflexivity|]. split; [reflexivity|].
    intros Hsome.
    apply (proj1 (@CACHE_ctor_accepts _ (LRU_OPS 4) 2 "wide"%string
                    512 64 4 1024 64 8 H) _ eq_refl) in Hsome
      as (_ & _ & Hl2).
    + destruct Hl2 as [s Hs]; [vm_compute; discriminate|]. discriminate Hs.
    + vm_compute. discriminate.
Defined.

(** X18 at associativity 2 of at most 4. *)
Lemma set_ctor_is_configured_default_witness :
  is_UINT32 2 /\ 0 <= 4 <= 2 ^ 31 /\
  CACHE_SET.LRU.ctor 4 2
    = CACHE_SET.LRU.SetAssociativity 4 2 (CACHE_SET.LRU.default 4).
Proof.
  assert (H : is_UINT32 2) by (unfold is_UINT32; lia).
  assert (HM : 0 <= 4 <= 2 ^ 31) by lia.
  split; [exact H|]. split; [exact HM|].
  exact (proj1 (set_ctor_is_configured_default 4 2 H HM)).
Defined.

(** X19 on a one-set two-way cache: after loads of the lines of tags 1, 2 and
    1 again, the line of tag 3 misses; the slot selected is slot 0, which
    holds the line of tag 2, accessed before the last access of tag 1. *)
Lemma LRU_victim_least_recent_witness :
  exists c0,
    @CACHE_ctor _ (LRU_OPS 4) 1 "one set" 128 64 2 128 64 2 = Some c0 /\
    exists c,
    @run _ (LRU_OPS 4) CACHE_ALLOC.STORE_ALLOCATE
      [(0x40, ACCESS_TYPE_LOAD); (0x80, ACCESS_TYPE_LOAD);
       (0x40, ACCESS_TYPE_LOAD)] c0 = Some c /\
    exists s,
    _sets c !! @index_of _ c 0xc0 = Some s /\
    to_ADDRINT <$> CACHE_SET.LRU._tags s = [2; 1; 0; 0] /\
    set_history (base c0) (@index_of _ c 0xc0)
      [(0x40, ACCESS_TYPE_LOAD); (0x80, ACCESS_TYPE_LOAD);
       (0x40, ACCESS_TYPE_LOAD)] [] = [1; 2; 1] /\
    CACHE_SET.LRU.victim (snd (CACHE_SET.LRU.Find (@tag_of _ c 0xc0) s)) = 0 /\
    exists j evicted,
      (j < CACHE_SET.LRU.active s)%nat /\
      CACHE_SET.LRU._tags s !! j = Some evicted /\
      CACHE_SET.LRU.victim (snd (CACHE_SET.LRU.Find (@tag_of _ c 0xc0) s))
        = Z.of_nat j /\
      forall d,
        since (to_ADDRINT evicted)
          (set_history (base c0) (@index_of _ c 0xc0)
             [(0x40, ACCESS_TYPE_LOAD); (0x80, ACCESS_TYPE_LOAD);
              (0x40, ACCESS_TYPE_LOAD)] []) = Some d ->
        forall i kept,
          (i < CACHE_SET.LRU.active s)%nat ->
          CACHE_SET.LRU._tags s !! i = Some kept ->
          exists d',
            since (to_ADDRINT kept)
              (set_history (base c0) (@index_of _ c 0xc0)
                 [(0x40, ACCESS_TYPE_LOAD); (0x80, ACCESS_TYPE_LOAD);
                  (0x40, ACCESS_TYPE_LOAD)] []) = Some d' /\
            (d' <= d)%nat.
Proof.
  exists_built.
  lazymatch goal with
  | |- exists c, run _ ?accs ?c0 = _ /\ _ =>
      exists_built;
      lazymatch goal with
      | |- exists s, _sets ?c !! _ = Some s /\ _ =>
          exists_built;
          lazymatch goal with
          | |- (_ <$> CACHE_SET.LRU._tags ?s = _) /\ _ =>
              split; [vm_compute; reflexivity|];
              split; [vm_compute; reflexivity|];
              split; [vm_compute; reflexivity|];
              apply (LRU_victim_least_recent 4 1 CACHE_ALLOC.STORE_ALLOCATE
                       "one set"%string 128 64 2 128 64 2 c0 c accs 0xc0 s
                       four_ways)
          end
      end
  end.
  - lia.
  - vm_compute. reflexivity.
  - vm_compute. reflexivity.
  - vm_compute. reflexivity.
  - vm_compute. reflexivity.
  - vm_compute. reflexivity.
Defined.
